(** * MikuCffHelper: the MLIL clean-up passes of [passes/mid/clearPass.py]

    A shallow embedding of the four control-flow simplification passes
    ([pass_clear_const_if], [pass_clear_goto], [pass_clear_if],
    [pass_merge_block]), of the stub [pass_swap_if] and of their
    composition [pass_clear], together with the properties of the
    specification that concern them.

    The passes are Python functions over Binary Ninja's medium level IL.
    They mutate one IL function in place through its API, write to a log and
    may raise.  They are modelled in a state-and-exception monad over a heap
    that holds the IL function and the log. *)

From Stdlib Require Import ZArith List Bool Lia String.
From stdpp Require Import base list.
Import ListNotations.

Local Open Scope nat_scope.

(** ** The IL data model *)

(** Value expressions.  The passes look at them only to tell a literal
    constant from a variable and to find the two sides of a comparison. *)
Inductive Expr : Type :=
  | MLIL_CONST (constant : Z)
  | MLIL_VAR (src : nat)
  | MLIL_CMP_E (left right : Expr)
  | MLIL_CMP_NE (left right : Expr)
  | MLIL_BINARY (opcode : nat) (left right : Expr)
  | MLIL_UNARY (opcode : nat) (src : Expr)
  | MLIL_OPAQUE (opcode : nat).

(** A node of the expression store.  An [MLIL_IF] refers to its condition by
    expression index, as the source does when it hands [if_instr.condition]
    to [copy_expr]; jump targets are instruction indices. *)
Inductive Node : Type :=
  | MLIL_GOTO (dest : nat)
  | MLIL_IF (condition : nat) (true false : nat)
  | MLIL_RET (src : list Expr)
  | MLIL_SET_VAR (dest : nat) (src : Expr)
  | MLIL_VALUE (e : Expr)
  | MLIL_NOP.

(** [MediumLevelILBasicBlock]: the instructions [start], ..., [end_ - 1]. *)
Record MediumLevelILBasicBlock : Type := {
  start : nat;
  end_ : nat
}.

(** [MediumLevelILFunction]: the expression store (expression index to node),
    the instruction list (instruction index to expression index) and the
    basic blocks as the last [finalize] left them. *)
Record MediumLevelILFunction : Type := {
  exprs : list Node;
  instrs : list nat;
  basic_blocks : list MediumLevelILBasicBlock
}.

(** [MediumLevelILInstruction]: what the Python object of an instruction or
    of a sub-expression carries. *)
Record MediumLevelILInstruction : Type := {
  instr_index : nat;
  expr_index : nat;
  node : Node
}.

(** [MediumLevelILLabel]: only its [operand] matters to the passes. *)
Record MediumLevelILLabel : Type := {
  operand : nat
}.

(** The [isinstance] tests of the source. *)
Definition isinstance_Goto (i : MediumLevelILInstruction) : bool :=
  match node i with MLIL_GOTO _ => true | _ => false end.

Definition isinstance_If (i : MediumLevelILInstruction) : bool :=
  match node i with MLIL_IF _ _ _ => true | _ => false end.

Definition isinstance_Ret (i : MediumLevelILInstruction) : bool :=
  match node i with MLIL_RET _ => true | _ => false end.

(** ** Effects *)

(** The exceptions the passes can end with. *)
Inductive PyExn : Type :=
  | IndexError
  | AttributeError
  | RecursionError
  | Exception (msg : string).

Inductive Outcome (A : Type) : Type :=
  | Ok (a : A)
  | Raise (e : PyExn).

Arguments Ok {A} a.
Arguments Raise {A} e.

(** What [log_info] and [log_error] are called with. *)
Inductive LogEntry : Type :=
  | log_info_optimized_goto (goto_index final_index : nat)
  | log_error_eeeee (pre_instrs : list MediumLevelILInstruction).

(** The heap a pass runs on.  [scans] is a ghost counter: the number of scan
    iterations started so far.  No code reads it. *)
Record Heap : Type := {
  il : MediumLevelILFunction;
  log : list LogEntry;
  scans : nat
}.

Definition IL (A : Type) : Type := Heap -> Outcome A * Heap.

Definition ret {A} (a : A) : IL A := fun h => (Ok a, h).

Definition raise {A} (e : PyExn) : IL A := fun h => (Raise e, h).

Definition bind {A B} (c : IL A) (k : A -> IL B) : IL B :=
  fun h =>
    match c h with
    | (Ok a, h') => k a h'
    | (Raise e, h') => (Raise e, h')
    end.

Declare Scope il_scope.
Delimit Scope il_scope with il.
Notation "'let*' x := c 'in' k" := (bind c (fun x => k))
  (at level 10, x name, c at level 100, k at level 200) : il_scope.
Notation "'run' c 'then' k" := (bind c (fun _ => k))
  (at level 10, c at level 100, k at level 200) : il_scope.
Local Open Scope il_scope.

Definition get_il : IL MediumLevelILFunction := fun h => (Ok (il h), h).

Definition put_il (m : MediumLevelILFunction) : IL unit :=
  fun h => (Ok tt, {| il := m; log := log h; scans := scans h |}).

Definition write_log (e : LogEntry) : IL unit :=
  fun h => (Ok tt, {| il := il h; log := log h ++ [e]; scans := scans h |}).

Definition tick_scan : IL unit :=
  fun h => (Ok tt, {| il := il h; log := log h; scans := S (scans h) |}).

(** [for x in xs: body(x)], run for its effects. *)
Fixpoint for_each {A} (body : A -> IL unit) (xs : list A) : IL unit :=
  match xs with
  | [] => ret tt
  | x :: rest => run body x then for_each body rest
  end.

(** [[f(x) for x in xs]]. *)
Fixpoint map_il {A B} (f : A -> IL B) (xs : list A) : IL (list B) :=
  match xs with
  | [] => ret []
  | x :: rest => let* y := f x in let* ys := map_il f rest in ret (y :: ys)
  end.

(** ** The IL access layer

    Binary Ninja's API is not among the sources.  Its operations are
    modelled as the spec describes the IR access layer, to the depth the
    passes use them: the source location that the builders take is left
    out. *)

(** Modelled from the spec: the node stored at an expression index (the
    spec's lookup by a previously obtained index). *)
Definition expr_at (e : nat) : IL Node :=
  let* m := get_il in
  match exprs m !! e with
  | Some n => ret n
  | None => raise IndexError
  end.

(** The instruction object for the instruction index [i], when the index
    and the expression it refers to exist. *)
Definition lookup_instr (m : MediumLevelILFunction) (i : nat)
    : option MediumLevelILInstruction :=
  match instrs m !! i with
  | Some e =>
      match exprs m !! e with
      | Some n => Some {| instr_index := i; expr_index := e; node := n |}
      | None => None
      end
  | None => None
  end.

(** Modelled from the spec: [mlil[i]], the instruction at an instruction
    index; Python's [IndexError] when there is none. *)
Definition getitem (i : nat) : IL MediumLevelILInstruction :=
  let* m := get_il in
  match lookup_instr m i with
  | Some x => ret x
  | None => raise IndexError
  end.

(** Modelled from the spec: [bb[-1]], the last instruction of a block. *)
Definition bb_last (bb : MediumLevelILBasicBlock) : IL MediumLevelILInstruction :=
  if start bb <? end_ bb then getitem (end_ bb - 1) else raise IndexError.

(** Modelled from the spec: [list(bb[:])] and [list(bb[:-1])], the ordered
    instructions of a block, all of them and all but the last. *)
Definition bb_all (bb : MediumLevelILBasicBlock) : IL (list MediumLevelILInstruction) :=
  map_il getitem (seq (start bb) (end_ bb - start bb)).

Definition bb_init (bb : MediumLevelILBasicBlock) : IL (list MediumLevelILInstruction) :=
  map_il getitem (seq (start bb) (end_ bb - start bb - 1)).

(** Modelled from the spec: [instr.condition] of an [MLIL_IF], the
    sub-expression object, read from the store; any other instruction has no
    such attribute. *)
Definition condition_of (i : MediumLevelILInstruction) : IL MediumLevelILInstruction :=
  match node i with
  | MLIL_IF c _ _ =>
      let* n := expr_at c in
      ret {| instr_index := instr_index i; expr_index := c; node := n |}
  | _ => raise AttributeError
  end.

(** Modelled from the spec: a newly built expression is a new node at the
    end of the store; its expression index is returned. *)
Definition add_expr (n : Node) : IL nat :=
  let* m := get_il in
  run put_il {| exprs := exprs m ++ [n]; instrs := instrs m;
                basic_blocks := basic_blocks m |}
  then ret (length (exprs m)).

(** Modelled from the spec: [mlil.goto(label, loc)] and
    [mlil.if_expr(cond, t, f, loc)] build a jump from a label and a branch
    from a condition and two labels. *)
Definition goto (label : MediumLevelILLabel) : IL nat :=
  add_expr (MLIL_GOTO (operand label)).

Definition if_expr (cond : nat) (t f : MediumLevelILLabel) : IL nat :=
  add_expr (MLIL_IF cond (operand t) (operand f)).

(** Modelled from the spec: [mlil.copy_expr(original, loc)] duplicates an
    expression (a deep copy, without aliasing): the copy is made of fresh
    nodes, the condition of a copied [MLIL_IF] being copied with it. *)
Definition copy_expr (original : MediumLevelILInstruction) : IL nat :=
  match node original with
  | MLIL_IF c t f =>
      let* n := expr_at c in
      let* c' := add_expr n in
      add_expr (MLIL_IF c' t f)
  | n => add_expr n
  end.

(** Modelled from the spec: [mlil.replace_expr(old, new)] replaces the
    expression at [old] with the newly built one; the node at [old] takes the
    contents of the node at [new]. *)
Definition replace_expr (old new : nat) : IL unit :=
  let* n := expr_at new in
  let* m := get_il in
  put_il {| exprs := <[old := n]> (exprs m); instrs := instrs m;
            basic_blocks := basic_blocks m |}.

(** Modelled from the spec: [mlil.append(expr)] adds an instruction at the
    end of the function. *)
Definition append (e : nat) : IL unit :=
  let* m := get_il in
  put_il {| exprs := exprs m; instrs := instrs m ++ [e];
            basic_blocks := basic_blocks m |}.

(** Modelled from the spec: [mlil.mark_label(label)] binds the label to the
    next position to be appended. *)
Definition mark_label : IL MediumLevelILLabel :=
  let* m := get_il in
  ret {| operand := length (instrs m) |}.

(** Modelled from the spec: [mlil.get_basic_block_at(i)], the block that
    holds instruction [i], [None] when no block does. *)
Definition get_basic_block_at (i : nat) : IL (option MediumLevelILBasicBlock) :=
  let* m := get_il in
  ret (find (fun bb => (start bb <=? i) && (i <? end_ bb)) (basic_blocks m)).

(** ** The analysis context *)

(** [analysis_context.function], of which the passes read [mlil] only. *)
Record Function : Type := {
  function_mlil : option MediumLevelILFunction
}.

(** [AnalysisContext]: the IL function being worked on ([None] when there is
    none) and the function it belongs to.  The two IL functions are taken to
    be distinct objects. *)
Record AnalysisContext : Type := {
  mlil : option MediumLevelILFunction;
  function : Function
}.

(** What a pass can change: the context's IL function, the log, and the
    ghost count of scans. *)
Record World : Type := {
  analysis_context : AnalysisContext;
  messages : list LogEntry;
  scan_count : nat
}.

Definition Pass : Type := World -> Outcome unit * World.

(** Running the body of a pass on the context's IL function [m]. *)
Definition on_mlil (m : MediumLevelILFunction) (body : IL unit) : Pass :=
  fun w =>
    let '(r, h) := body {| il := m; log := messages w; scans := scan_count w |} in
    (r, {| analysis_context :=
             {| mlil := Some (il h);
                function := function (analysis_context w) |};
           messages := log h;
           scan_count := scans h |}).

(** Two passes one after the other; an exception of the first ends both. *)
Definition and_then (p q : Pass) : Pass :=
  fun w =>
    match p w with
    | (Ok _, w') => q w'
    | (Raise e, w') => (Raise e, w')
    end.

(** ** The passes *)

Section Passes.

(** Binary Ninja's [finalize] (the basic blocks are computed again) and
    [generate_ssa_form], the repository's own
    [CFGAnalyzer.MLIL_get_incoming_blocks] (the blocks whose last instruction
    can transfer control to the block that starts at a given index), and the
    depth at which Python gives up a recursion. *)
Variable finalize : MediumLevelILFunction -> MediumLevelILFunction.
Variable generate_ssa_form : MediumLevelILFunction -> MediumLevelILFunction.
Variable MLIL_get_incoming_blocks :
  MediumLevelILFunction -> nat -> list MediumLevelILBasicBlock.
Variable recursion_limit : nat.

Definition mlil_finalize : IL unit :=
  let* m := get_il in put_il (finalize m).

Definition mlil_generate_ssa_form : IL unit :=
  let* m := get_il in put_il (generate_ssa_form m).

(** [for bb in mlil.basic_blocks: ...] where the body either sets
    [updated = True] (it returns [true]) or leaves it ([false]). *)
Fixpoint scan_blocks (body : MediumLevelILBasicBlock -> IL bool)
    (bbs : list MediumLevelILBasicBlock) (updated : bool) : IL bool :=
  match bbs with
  | [] => ret updated
  | bb :: rest =>
      let* u := body bb in
      scan_blocks body rest (updated || u)
  end.

(** The loop every pass is written around:
    [for _ in range(n): updated = False; scan; if updated: finalize,
    generate_ssa_form else: break]. *)
Fixpoint fixed_point_loop (scan : IL bool) (n : nat) : IL unit :=
  match n with
  | 0 => ret tt
  | S n' =>
      run tick_scan then
      let* updated := scan in
      if updated then
        run mlil_finalize then
        run mlil_generate_ssa_form then
        fixed_point_loop scan n'
      else ret tt
  end.

(** *** [pass_clear_const_if] *)

Definition fold_const_if (if_instr : MediumLevelILInstruction) (target : nat) : IL bool :=
  let label := {| operand := target |} in
  let* goto_instr := goto label in
  run replace_expr (expr_index if_instr) goto_instr then
  ret true.

Definition clear_const_if_block (bb : MediumLevelILBasicBlock) : IL bool :=
  let* if_instr := bb_last bb in
  match node if_instr with
  | MLIL_IF _ t f =>
      let* condition := condition_of if_instr in
      match node condition with
      | MLIL_VALUE (MLIL_CONST constant) =>
          if (constant =? 1)%Z then fold_const_if if_instr t
          else if (constant =? 0)%Z then fold_const_if if_instr f
          else ret false
      | _ => ret false
      end
  | _ => ret false
  end.

Definition clear_const_if_scan : IL bool :=
  let* m := get_il in
  scan_blocks clear_const_if_block (basic_blocks m) false.

Definition clear_const_if_body : IL unit :=
  let* m := get_il in
  run fixed_point_loop clear_const_if_scan (length (basic_blocks m)) then
  run mlil_finalize then
  mlil_generate_ssa_form.

(** *** [pass_clear_goto] *)

(** The inner function [optimize_goto]; [depth] is what is left of the
    recursion limit. *)
Fixpoint optimize_goto (depth : nat) (goto_instr : MediumLevelILInstruction)
    : IL MediumLevelILInstruction :=
  match depth with
  | 0 => raise RecursionError
  | S depth' =>
      match node goto_instr with
      | MLIL_GOTO dest =>
          let* target_instr := getitem dest in
          if negb (isinstance_Goto target_instr) then ret target_instr
          else
            let* final_target := optimize_goto depth' target_instr in
            run write_log (log_info_optimized_goto (instr_index goto_instr)
                             (instr_index final_target)) then
            ret final_target
      | _ => raise AttributeError
      end
  end.

Definition clear_goto_block (bb : MediumLevelILBasicBlock) : IL bool :=
  let* goto_instr := bb_last bb in
  match node goto_instr with
  | MLIL_GOTO dest =>
      let* final_target_instr := optimize_goto recursion_limit goto_instr in
      if instr_index final_target_instr =? dest then ret false
      else
        let label := {| operand := instr_index final_target_instr |} in
        let* new_goto := goto label in
        run replace_expr (expr_index goto_instr) new_goto then
        ret true
  | _ => ret false
  end.

Definition clear_goto_scan : IL bool :=
  let* m := get_il in
  scan_blocks clear_goto_block (basic_blocks m) false.

Definition clear_goto_body : IL unit :=
  let* m := get_il in
  run fixed_point_loop clear_goto_scan (length (basic_blocks m)) then
  run mlil_finalize then
  mlil_generate_ssa_form.

(** *** [pass_clear_if] *)

(** The inner function [get_final_target]. *)
Fixpoint get_final_target (depth : nat) (instr : MediumLevelILInstruction)
    : IL MediumLevelILInstruction :=
  match depth with
  | 0 => raise RecursionError
  | S depth' =>
      match node instr with
      | MLIL_GOTO dest =>
          let* next := getitem dest in
          get_final_target depth' next
      | _ => ret instr
      end
  end.

Definition clear_if_block (bb : MediumLevelILBasicBlock) : IL bool :=
  let* if_instr := bb_last bb in
  match node if_instr with
  | MLIL_IF _ t f =>
      let* t_instr := getitem t in
      let* true_target := get_final_target recursion_limit t_instr in
      let* f_instr := getitem f in
      let* false_target := get_final_target recursion_limit f_instr in
      if negb (instr_index true_target =? t)
         || negb (instr_index false_target =? f) then
        let true_label := {| operand := instr_index true_target |} in
        let false_label := {| operand := instr_index false_target |} in
        let* condition := condition_of if_instr in
        let* cond := copy_expr condition in
        let* new_if := if_expr cond true_label false_label in
        run replace_expr (expr_index if_instr) new_if then
        ret true
      else ret false
  | _ => ret false
  end.

Definition clear_if_scan : IL bool :=
  let* m := get_il in
  scan_blocks clear_if_block (basic_blocks m) false.

Definition clear_if_body : IL unit :=
  let* m := get_il in
  run fixed_point_loop clear_if_scan (length (basic_blocks m)) then
  run mlil_finalize then
  mlil_generate_ssa_form.

(** *** [merge_block] and [pass_merge_block] *)

(** The body of [for pre_instr in pre_instrs] in [merge_block]. *)
Definition redirect_pre_instr (instrs : list MediumLevelILInstruction)
    (label : MediumLevelILLabel) (start_label_oprand : nat)
    (pre_instr : MediumLevelILInstruction) : IL unit :=
  match node pre_instr with
  | MLIL_GOTO _ =>
      let* new_goto := goto label in
      replace_expr (expr_index pre_instr) new_goto
  | MLIL_IF _ true_idx false_idx =>
      let true_label := {| operand := true_idx |} in
      let false_label := {| operand := false_idx |} in
      match instrs with
      | [] => raise IndexError
      | first :: _ =>
          if true_idx =? instr_index first then
            let t_label := {| operand := start_label_oprand |} in
            let* condition := condition_of pre_instr in
            let* cond := copy_expr condition in
            let* new_if := if_expr cond t_label false_label in
            replace_expr (expr_index pre_instr) new_if
          else if false_idx =? instr_index first then
            let t_label := {| operand := start_label_oprand |} in
            let* condition := condition_of pre_instr in
            let* cond := copy_expr condition in
            let* new_if := if_expr cond true_label t_label in
            replace_expr (expr_index pre_instr) new_if
          else raise (Exception "Invalid if condition")
      end
  | _ => ret tt
  end.

Definition merge_block (instrs pre_instrs : list MediumLevelILInstruction) : IL bool :=
  if negb (forallb (fun instr => isinstance_Goto instr || isinstance_If instr)
             pre_instrs) then
    run write_log (log_error_eeeee pre_instrs) then
    ret false
  else if length instrs =? 0 then ret false
  else
    let* label := mark_label in
    let start_label_oprand := operand label in
    run for_each (fun x => let* e := copy_expr x in append e) instrs then
    run for_each (redirect_pre_instr instrs label start_label_oprand) pre_instrs then
    ret true.

(** One turn of [for block in mlil.basic_blocks] in [pass_merge_block]:
    [true] when [merge_block] succeeded (the source then leaves the scan). *)
Definition merge_candidate (block : MediumLevelILBasicBlock) : IL bool :=
  let* last_instr := bb_last block in
  match node last_instr with
  | MLIL_GOTO dest =>
      let* next_block := get_basic_block_at dest in
      match next_block with
      | None => raise AttributeError
      | Some next_block =>
          let* m := get_il in
          let next_block_incoming := MLIL_get_incoming_blocks m (start next_block) in
          if length next_block_incoming =? 1 then
            let* next_last := bb_last next_block in
            if isinstance_Goto next_last || isinstance_Ret next_last then
              let pre_blocks := MLIL_get_incoming_blocks m (start block) in
              let* pre_instrs := map_il bb_last pre_blocks in
              let* body := bb_init block in
              let* next_body := bb_all next_block in
              let instrs := body ++ next_body in
              merge_block instrs pre_instrs
            else ret false
          else ret false
      end
  | _ => ret false
  end.

(** The scan of [pass_merge_block], with its [break]. *)
Fixpoint merge_scan_blocks (blocks : list MediumLevelILBasicBlock) : IL bool :=
  match blocks with
  | [] => ret false
  | block :: rest =>
      let* merged := merge_candidate block in
      if merged then ret true else merge_scan_blocks rest
  end.

Definition merge_scan : IL bool :=
  let* m := get_il in
  merge_scan_blocks (basic_blocks m).

Definition merge_block_body : IL unit :=
  let* m := get_il in
  run fixed_point_loop merge_scan (length (basic_blocks m) * 2) then
  run mlil_finalize then
  mlil_generate_ssa_form.

(** *** [pass_swap_if] *)

(** The inner function [traverse_find_if]: the instruction itself when it is
    an [MLIL_IF] whose condition is not a variable, has a [left] and a
    [right], the left one a constant and the right one a variable.  For a
    branch the source evaluates [instr.condition] in its first test; for any
    other instruction the test ends at [isinstance]. *)
Definition traverse_find_if (instr : MediumLevelILInstruction)
    : IL (option MediumLevelILInstruction) :=
  if isinstance_If instr then
    let* condition := condition_of instr in
    match node condition with
    | MLIL_VALUE (MLIL_CMP_E (MLIL_CONST _) (MLIL_VAR _))
    | MLIL_VALUE (MLIL_CMP_NE (MLIL_CONST _) (MLIL_VAR _))
    | MLIL_VALUE (MLIL_BINARY _ (MLIL_CONST _) (MLIL_VAR _)) => ret (Some instr)
    | _ => ret None
    end
  else ret None.

(** Modelled from the spec: [mlil.traverse], which is not among the
    sources, in the loop [for x in mlil.traverse(cb): body(x)].  [traverse]
    is a generator: it goes through the instructions of the blocks in
    order, reads each one as [mlil[i]], calls [cb] on it and hands what
    [cb] returns, unless that is [None], to the loop before it reads the
    next instruction.  The operands
    of an instruction, which it visits too, are no branches: for them
    [traverse_find_if] returns [None] at its first test. *)
Definition traverse
    (cb : MediumLevelILInstruction -> IL (option MediumLevelILInstruction))
    (body : MediumLevelILInstruction -> IL unit) : IL unit :=
  let* m := get_il in
  for_each (fun i =>
              let* instr := getitem i in
              let* found := cb instr in
              match found with
              | Some x => body x
              | None => ret tt
              end)
           (flat_map (fun bb => seq (start bb) (end_ bb - start bb))
                     (basic_blocks m)).

(** The loop over the instructions found reads [if_instr.condition]; the
    test that follows has an empty body. *)
Definition swap_if_body : IL unit :=
  traverse traverse_find_if
    (fun if_instr =>
       let* condition := condition_of if_instr in
       ret tt).

(** *** The passes on an analysis context *)

(** Without an IL function, [mlil.basic_blocks] is an attribute of [None]. *)
Definition pass_clear_const_if : Pass :=
  fun w =>
    match mlil (analysis_context w) with
    | None => (Raise AttributeError, w)
    | Some m => on_mlil m clear_const_if_body w
    end.

Definition pass_clear_goto : Pass :=
  fun w =>
    match mlil (analysis_context w) with
    | None => (Raise AttributeError, w)
    | Some m => on_mlil m clear_goto_body w
    end.

Definition pass_clear_if : Pass :=
  fun w =>
    match mlil (analysis_context w) with
    | None => (Raise AttributeError, w)
    | Some m => on_mlil m clear_if_body w
    end.

(** [if mlil is None: return]. *)
Definition pass_merge_block : Pass :=
  fun w =>
    match mlil (analysis_context w) with
    | None => (Ok tt, w)
    | Some m => on_mlil m merge_block_body w
    end.

(** [pass_swap_if] works on [analysis_context.function.mlil]. *)
Definition pass_swap_if : Pass :=
  fun w =>
    match function_mlil (function (analysis_context w)) with
    | None => (Ok tt, w)
    | Some m =>
        let '(r, h) :=
          swap_if_body {| il := m; log := messages w; scans := scan_count w |} in
        (r, {| analysis_context :=
                 {| mlil := mlil (analysis_context w);
                    function := {| function_mlil := Some (il h) |} |};
               messages := log h;
               scan_count := scans h |})
    end.

Definition pass_clear : Pass :=
  and_then pass_clear_const_if
    (and_then pass_clear_goto
       (and_then pass_clear_if pass_merge_block)).

End Passes.


(** ** A reference instance of the collaborators

    The theorems below hold for every [finalize], [generate_ssa_form] and
    [MLIL_get_incoming_blocks].  The examples run the passes with the simple
    instance of this section. *)

Definition is_terminator (n : Node) : bool :=
  match n with
  | MLIL_GOTO _ | MLIL_IF _ _ _ | MLIL_RET _ => true
  | _ => false
  end.

Definition jump_targets (m : MediumLevelILFunction) : list nat :=
  flat_map (fun i =>
              match lookup_instr m i with
              | Some x =>
                  match node x with
                  | MLIL_GOTO d => [d]
                  | MLIL_IF _ t f => [t; f]
                  | _ => []
                  end
              | None => []
              end)
           (seq 0 (length (instrs m))).

(** An instruction starts a block when it is the first one, a jump target,
    or the instruction after a terminator. *)
Definition is_leader (m : MediumLevelILFunction) (i : nat) : bool :=
  match i with
  | 0 => true
  | S j =>
      existsb (Nat.eqb i) (jump_targets m)
      || match lookup_instr m j with
         | Some x => is_terminator (node x)
         | None => false
         end
  end.

(** The blocks of the instructions [i], ..., [i + n - 1], the current block
    having started at [first]. *)
Fixpoint block_ranges (leader : nat -> bool) (first i n : nat)
    : list MediumLevelILBasicBlock :=
  match n with
  | 0 => if first <? i then [{| start := first; end_ := i |}] else []
  | S n' =>
      if leader i && (first <? i) then
        {| start := first; end_ := i |} :: block_ranges leader i (S i) n'
      else block_ranges leader first (S i) n'
  end.

(** Modelled from the spec: Binary Ninja's [finalize], which the spec
    describes as recomputing the block boundaries after structural edits;
    no instruction is added or removed. *)
Definition finalize_blocks (m : MediumLevelILFunction) : MediumLevelILFunction :=
  {| exprs := exprs m;
     instrs := instrs m;
     basic_blocks := block_ranges (is_leader m) 0 0 (length (instrs m)) |}.

(** Modelled from the spec: [generate_ssa_form] rebuilds analysis data that
    the passes never read. *)
Definition regenerate_metadata (m : MediumLevelILFunction) : MediumLevelILFunction := m.

(** Whether control can pass from the last instruction of [bb] to the
    instruction [target]: by a jump, by either arm of a branch, or by falling
    through. *)
Definition transfers_to (m : MediumLevelILFunction) (target : nat)
    (bb : MediumLevelILBasicBlock) : bool :=
  match lookup_instr m (end_ bb - 1) with
  | Some x =>
      match node x with
      | MLIL_GOTO d => d =? target
      | MLIL_IF _ t f => (t =? target) || (f =? target)
      | MLIL_RET _ => false
      | _ => end_ bb =? target
      end
  | None => false
  end.

(** Modelled from the spec: [CFGAnalyzer.MLIL_get_incoming_blocks], which is
    not among the sources; the spec has it return, for a block's entry index,
    the blocks whose terminator can transfer control to it. *)
Definition incoming_blocks (m : MediumLevelILFunction) (target : nat)
    : list MediumLevelILBasicBlock :=
  filter (fun bb => Is_true (transfers_to m target bb)) (basic_blocks m).

(** * Properties *)

(** ** Running the monad *)

Lemma bind_ok {A B} (c : IL A) (k : A -> IL B) h a h' :
  c h = (Ok a, h') -> bind c k h = k a h'.
Proof. intros E. unfold bind. now rewrite E. Qed.

Lemma bind_raise {A B} (c : IL A) (k : A -> IL B) h e h' :
  c h = (Raise e, h') -> bind c k h = (Raise e, h').
Proof. intros E. unfold bind. now rewrite E. Qed.

Lemma heap_eta h : {| il := il h; log := log h; scans := scans h |} = h.
Proof. now destruct h. Qed.

Lemma mlil_eta m :
  {| exprs := exprs m; instrs := instrs m; basic_blocks := basic_blocks m |} = m.
Proof. now destruct m. Qed.

(** Reading an instruction leaves the heap as it is. *)
Lemma getitem_eq i h :
  getitem i h =
  (match lookup_instr (il h) i with
   | Some x => Ok x
   | None => Raise IndexError
   end, h).
Proof.
  unfold getitem, bind, get_il, ret, raise.
  destruct (lookup_instr (il h) i); reflexivity.
Qed.

Lemma expr_at_eq e h :
  expr_at e h =
  (match exprs (il h) !! e with
   | Some n => Ok n
   | None => Raise IndexError
   end, h).
Proof.
  unfold expr_at, bind, get_il, ret, raise.
  destruct (exprs (il h) !! e); reflexivity.
Qed.

Lemma bb_last_heap bb h : snd (bb_last bb h) = h.
Proof.
  unfold bb_last. destruct (start bb <? end_ bb); [|reflexivity].
  now rewrite getitem_eq.
Qed.

Lemma map_il_getitem_heap l h : snd (map_il getitem l h) = h.
Proof.
  induction l as [|i l IH]; [reflexivity|].
  simpl. unfold bind at 1. rewrite getitem_eq.
  destruct (lookup_instr (il h) i); [|reflexivity].
  unfold bind. destruct (map_il getitem l h) as [[ys|e] h'] eqn:E;
    simpl in IH; subst h'; reflexivity.
Qed.

Lemma map_il_bb_last_heap l h : snd (map_il bb_last l h) = h.
Proof.
  induction l as [|b l IH]; [reflexivity|].
  simpl. unfold bind at 1.
  destruct (bb_last b h) as [[x|e] h1] eqn:E1;
    pose proof (bb_last_heap b h) as Hh; rewrite E1 in Hh; simpl in Hh; subst h1;
    [|reflexivity].
  unfold bind. destruct (map_il bb_last l h) as [[ys|e] h'] eqn:E;
    simpl in IH; subst h'; reflexivity.
Qed.

(** ** The ghost counter moves only when a scan starts *)

Definition keeps_scans {A} (c : IL A) : Prop :=
  forall h, scans (snd (c h)) = scans h.

Lemma keeps_scans_ret {A} (a : A) : keeps_scans (ret a).
Proof. now intros h. Qed.

Lemma keeps_scans_raise {A} e : keeps_scans (@raise A e).
Proof. now intros h. Qed.

Lemma keeps_scans_bind {A B} (c : IL A) (k : A -> IL B) :
  keeps_scans c -> (forall a, keeps_scans (k a)) -> keeps_scans (bind c k).
Proof.
  intros Hc Hk h. unfold bind. specialize (Hc h).
  destruct (c h) as [[a|e] h']; simpl in *; [|assumption].
  now rewrite Hk.
Qed.

Lemma keeps_scans_get_il : keeps_scans get_il.
Proof. now intros h. Qed.

Lemma keeps_scans_put_il m : keeps_scans (put_il m).
Proof. now intros h. Qed.

Lemma keeps_scans_write_log e : keeps_scans (write_log e).
Proof. now intros h. Qed.

Create HintDb scans_db.

#[export] Hint Resolve keeps_scans_ret keeps_scans_raise keeps_scans_get_il
  keeps_scans_put_il keeps_scans_write_log : scans_db.

(** Goes through a computation built from [bind], [if] and [match]. *)
Ltac keeps_scans_step :=
  match goal with
  | |- keeps_scans (bind _ _) => apply keeps_scans_bind; [|intros ?]
  | |- keeps_scans (if ?b then _ else _) => destruct b
  | |- keeps_scans (match ?x with _ => _ end) => destruct x
  | |- keeps_scans _ => solve [auto with scans_db]
  end.

Ltac keeps_scans_tac := repeat keeps_scans_step.

Lemma keeps_scans_expr_at e : keeps_scans (expr_at e).
Proof. unfold expr_at. keeps_scans_tac. Qed.

#[export] Hint Resolve keeps_scans_expr_at : scans_db.

Lemma keeps_scans_getitem i : keeps_scans (getitem i).
Proof. unfold getitem. keeps_scans_tac. Qed.

#[export] Hint Resolve keeps_scans_getitem : scans_db.

Lemma keeps_scans_bb_last bb : keeps_scans (bb_last bb).
Proof. unfold bb_last. keeps_scans_tac. Qed.

Lemma keeps_scans_condition_of i : keeps_scans (condition_of i).
Proof. unfold condition_of. keeps_scans_tac. Qed.

Lemma keeps_scans_add_expr n : keeps_scans (add_expr n).
Proof. unfold add_expr. keeps_scans_tac. Qed.

#[export] Hint Resolve keeps_scans_bb_last keeps_scans_condition_of
  keeps_scans_add_expr : scans_db.

Lemma keeps_scans_goto l : keeps_scans (goto l).
Proof. unfold goto. keeps_scans_tac. Qed.

Lemma keeps_scans_if_expr c t f : keeps_scans (if_expr c t f).
Proof. unfold if_expr. keeps_scans_tac. Qed.

Lemma keeps_scans_copy_expr x : keeps_scans (copy_expr x).
Proof. unfold copy_expr. keeps_scans_tac. Qed.

Lemma keeps_scans_replace_expr o n : keeps_scans (replace_expr o n).
Proof. unfold replace_expr. keeps_scans_tac. Qed.

Lemma keeps_scans_append e : keeps_scans (append e).
Proof. unfold append. keeps_scans_tac. Qed.

Lemma keeps_scans_mark_label : keeps_scans mark_label.
Proof. unfold mark_label. keeps_scans_tac. Qed.

Lemma keeps_scans_get_basic_block_at i : keeps_scans (get_basic_block_at i).
Proof. unfold get_basic_block_at. keeps_scans_tac. Qed.

#[export] Hint Resolve keeps_scans_goto keeps_scans_if_expr keeps_scans_copy_expr
  keeps_scans_replace_expr keeps_scans_append keeps_scans_mark_label
  keeps_scans_get_basic_block_at : scans_db.

Lemma keeps_scans_for_each {A} (body : A -> IL unit) xs :
  (forall x, keeps_scans (body x)) -> keeps_scans (for_each body xs).
Proof.
  intros Hb. induction xs as [|x xs IH]; simpl; keeps_scans_tac; auto.
Qed.

Lemma keeps_scans_map_il {A B} (f : A -> IL B) xs :
  (forall x, keeps_scans (f x)) -> keeps_scans (map_il f xs).
Proof.
  intros Hf. induction xs as [|x xs IH]; simpl; keeps_scans_tac; auto.
Qed.

Section ScanCount.

Variable finalize : MediumLevelILFunction -> MediumLevelILFunction.
Variable generate_ssa_form : MediumLevelILFunction -> MediumLevelILFunction.
Variable MLIL_get_incoming_blocks :
  MediumLevelILFunction -> nat -> list MediumLevelILBasicBlock.
Variable recursion_limit : nat.

Lemma keeps_scans_finalize : keeps_scans (mlil_finalize finalize).
Proof. unfold mlil_finalize. keeps_scans_tac. Qed.

Lemma keeps_scans_generate_ssa_form :
  keeps_scans (mlil_generate_ssa_form generate_ssa_form).
Proof. unfold mlil_generate_ssa_form. keeps_scans_tac. Qed.

Lemma keeps_scans_scan_blocks body bbs updated :
  (forall bb, keeps_scans (body bb)) -> keeps_scans (scan_blocks body bbs updated).
Proof.
  intros Hb. revert updated.
  induction bbs as [|bb bbs IH]; intros updated; simpl; keeps_scans_tac; auto.
Qed.

Lemma keeps_scans_clear_const_if_block bb : keeps_scans (clear_const_if_block bb).
Proof. unfold clear_const_if_block, fold_const_if. keeps_scans_tac. Qed.

Lemma keeps_scans_optimize_goto depth x : keeps_scans (optimize_goto depth x).
Proof.
  revert x. induction depth as [|depth IH]; intros x; simpl; keeps_scans_tac; auto.
Qed.

Lemma keeps_scans_get_final_target depth x : keeps_scans (get_final_target depth x).
Proof.
  revert x. induction depth as [|depth IH]; intros x; simpl; keeps_scans_tac; auto.
Qed.

Lemma keeps_scans_clear_goto_block bb :
  keeps_scans (clear_goto_block recursion_limit bb).
Proof.
  unfold clear_goto_block. keeps_scans_tac; apply keeps_scans_optimize_goto.
Qed.

Lemma keeps_scans_clear_if_block bb :
  keeps_scans (clear_if_block recursion_limit bb).
Proof.
  unfold clear_if_block. keeps_scans_tac; apply keeps_scans_get_final_target.
Qed.

Lemma keeps_scans_redirect_pre_instr instrs label s x :
  keeps_scans (redirect_pre_instr instrs label s x).
Proof. unfold redirect_pre_instr. keeps_scans_tac. Qed.

Lemma keeps_scans_merge_block instrs pre_instrs :
  keeps_scans (merge_block instrs pre_instrs).
Proof.
  unfold merge_block. keeps_scans_tac.
  - apply keeps_scans_for_each. intros x. keeps_scans_tac.
  - apply keeps_scans_for_each. intros x. apply keeps_scans_redirect_pre_instr.
Qed.

Lemma keeps_scans_merge_candidate block :
  keeps_scans (merge_candidate MLIL_get_incoming_blocks block).
Proof.
  unfold merge_candidate, bb_init, bb_all. keeps_scans_tac;
    try (apply keeps_scans_map_il; intros ?; auto with scans_db);
    apply keeps_scans_merge_block.
Qed.

Lemma keeps_scans_merge_scan_blocks blocks :
  keeps_scans (merge_scan_blocks MLIL_get_incoming_blocks blocks).
Proof.
  induction blocks as [|b blocks IH]; simpl; keeps_scans_tac; auto.
  apply keeps_scans_merge_candidate.
Qed.

Lemma keeps_scans_clear_const_if_scan : keeps_scans clear_const_if_scan.
Proof.
  unfold clear_const_if_scan. keeps_scans_tac.
  apply keeps_scans_scan_blocks, keeps_scans_clear_const_if_block.
Qed.

Lemma keeps_scans_clear_goto_scan : keeps_scans (clear_goto_scan recursion_limit).
Proof.
  unfold clear_goto_scan. keeps_scans_tac.
  apply keeps_scans_scan_blocks, keeps_scans_clear_goto_block.
Qed.

Lemma keeps_scans_clear_if_scan : keeps_scans (clear_if_scan recursion_limit).
Proof.
  unfold clear_if_scan. keeps_scans_tac.
  apply keeps_scans_scan_blocks, keeps_scans_clear_if_block.
Qed.

Lemma keeps_scans_merge_scan : keeps_scans (merge_scan MLIL_get_incoming_blocks).
Proof.
  unfold merge_scan. keeps_scans_tac. apply keeps_scans_merge_scan_blocks.
Qed.

(** The loop starts at most [n] scans. *)
Lemma fixed_point_loop_scans scan n :
  keeps_scans scan ->
  forall h,
    scans (snd (fixed_point_loop finalize generate_ssa_form scan n h))
    <= scans h + n.
Proof.
  intros Hs. induction n as [|n IH]; intros h; simpl; [lia|].
  unfold bind at 1. simpl. unfold bind at 1.
  pose proof (Hs (snd (tick_scan h))) as Hk.
  destruct (scan _) as [[[|]|e] h1] eqn:E; simpl in *.
  - unfold bind at 1, mlil_finalize at 1, bind at 1, get_il, put_il. simpl.
    unfold bind at 1, mlil_generate_ssa_form at 1, bind at 1, get_il, put_il. simpl.
    etransitivity; [apply IH|]. simpl. lia.
  - lia.
  - lia.
Qed.

(** A pass body: the loop, then [finalize] and [generate_ssa_form]. *)
Lemma pass_body_scans scan n h :
  keeps_scans scan ->
  scans (snd ((run fixed_point_loop finalize generate_ssa_form scan n then
               run mlil_finalize finalize then
               mlil_generate_ssa_form generate_ssa_form) h))
  <= scans h + n.
Proof.
  intros Hs. pose proof (fixed_point_loop_scans scan n Hs h) as Hl.
  unfold bind at 1.
  destruct (fixed_point_loop _ _ _ _ _) as [[[]|e] h1]; simpl in *; [|assumption].
  unfold bind, mlil_finalize, mlil_generate_ssa_form, get_il, put_il. simpl.
  assumption.
Qed.

Lemma on_mlil_scans m body w :
  scan_count (snd (on_mlil m body w)) =
  scans (snd (body {| il := m; log := messages w; scans := scan_count w |})).
Proof.
  unfold on_mlil. now destruct (body _) as [r h].
Qed.

End ScanCount.

(** ** The fixed-point loops (C8) *)

(** [len(mlil.basic_blocks)] when the pass starts. *)
Definition block_count (w : World) : nat :=
  match mlil (analysis_context w) with
  | Some m => length (basic_blocks m)
  | None => 0
  end.

(** The heap after [finalize] and [generate_ssa_form]. *)
Definition rederived (finalize generate_ssa_form :
    MediumLevelILFunction -> MediumLevelILFunction) (h : Heap) : Heap :=
  {| il := generate_ssa_form (finalize (il h)); log := log h; scans := scans h |}.

(** C8: each pass is the bounded loop around its own scan.  A pass starts at
    most as many scans as the function had basic blocks when the pass began
    (twice as many for the block merger).  A scan that reports no rewrite
    ends the loop at once, and after a scan that reports a rewrite the loop
    goes on from the heap that [finalize] and [generate_ssa_form] leave. *)
Theorem C8_bounded_fixed_point_loops
    (finalize generate_ssa_form : MediumLevelILFunction -> MediumLevelILFunction)
    (MLIL_get_incoming_blocks :
       MediumLevelILFunction -> nat -> list MediumLevelILBasicBlock)
    (recursion_limit : nat) :
  let loop := fixed_point_loop finalize generate_ssa_form in
  let closing :=
    (run mlil_finalize finalize then mlil_generate_ssa_form generate_ssa_form) in
  (forall w,
     scan_count (snd (pass_clear_const_if finalize generate_ssa_form w))
     <= scan_count w + block_count w)
  /\ (forall w,
        scan_count (snd (pass_clear_goto finalize generate_ssa_form recursion_limit w))
        <= scan_count w + block_count w)
  /\ (forall w,
        scan_count (snd (pass_clear_if finalize generate_ssa_form recursion_limit w))
        <= scan_count w + block_count w)
  /\ (forall w,
        scan_count
          (snd (pass_merge_block finalize generate_ssa_form MLIL_get_incoming_blocks w))
        <= scan_count w + 2 * block_count w)
  /\ (forall scan n h h',
        scan (snd (tick_scan h)) = (Ok false, h') ->
        loop scan (S n) h = (Ok tt, h'))
  /\ (forall scan n h h',
        scan (snd (tick_scan h)) = (Ok true, h') ->
        loop scan (S n) h = loop scan n (rederived finalize generate_ssa_form h'))
  /\ (forall w m,
        mlil (analysis_context w) = Some m ->
        pass_clear_const_if finalize generate_ssa_form w
        = on_mlil m (run loop clear_const_if_scan (length (basic_blocks m))
                     then closing) w
        /\ pass_clear_goto finalize generate_ssa_form recursion_limit w
           = on_mlil m (run loop (clear_goto_scan recursion_limit)
                              (length (basic_blocks m))
                        then closing) w
        /\ pass_clear_if finalize generate_ssa_form recursion_limit w
           = on_mlil m (run loop (clear_if_scan recursion_limit)
                              (length (basic_blocks m))
                        then closing) w
        /\ pass_merge_block finalize generate_ssa_form MLIL_get_incoming_blocks w
           = on_mlil m (run loop (merge_scan MLIL_get_incoming_blocks)
                              (length (basic_blocks m) * 2)
                        then closing) w).
Proof.
  intros loop closing.
  assert (Hbody : forall scan (cap : MediumLevelILFunction -> nat) w m,
             keeps_scans scan ->
             mlil (analysis_context w) = Some m ->
             scan_count
               (snd (on_mlil m
                       (let* m0 := get_il in
                        run loop scan (cap m0) then closing) w))
             <= scan_count w + cap m).
  { intros scan cap w m Hs Hm. rewrite on_mlil_scans.
    unfold bind at 1, get_il. simpl.
    apply (pass_body_scans finalize generate_ssa_form scan _
             {| il := m; log := messages w; scans := scan_count w |} Hs). }
  repeat split.
  - intros w. unfold pass_clear_const_if, block_count.
    destruct (mlil (analysis_context w)) as [m|] eqn:Hm; [|simpl; lia].
    exact (Hbody clear_const_if_scan (fun m0 => length (basic_blocks m0)) w m
             keeps_scans_clear_const_if_scan Hm).
  - intros w. unfold pass_clear_goto, block_count.
    destruct (mlil (analysis_context w)) as [m|] eqn:Hm; [|simpl; lia].
    exact (Hbody (clear_goto_scan recursion_limit)
             (fun m0 => length (basic_blocks m0)) w m
             (keeps_scans_clear_goto_scan recursion_limit) Hm).
  - intros w. unfold pass_clear_if, block_count.
    destruct (mlil (analysis_context w)) as [m|] eqn:Hm; [|simpl; lia].
    exact (Hbody (clear_if_scan recursion_limit)
             (fun m0 => length (basic_blocks m0)) w m
             (keeps_scans_clear_if_scan recursion_limit) Hm).
  - intros w. unfold pass_merge_block, block_count.
    destruct (mlil (analysis_context w)) as [m|] eqn:Hm; [|simpl; lia].
    replace (2 * length (basic_blocks m)) with (length (basic_blocks m) * 2) by lia.
    exact (Hbody (merge_scan MLIL_get_incoming_blocks)
             (fun m0 => length (basic_blocks m0) * 2) w m
             (keeps_scans_merge_scan MLIL_get_incoming_blocks) Hm).
  - intros scan n h h' E. unfold loop. simpl.
    unfold bind at 1. simpl. unfold bind at 1. simpl in E. now rewrite E.
  - intros scan n h h' E. unfold loop. simpl.
    unfold bind at 1. simpl. unfold bind at 1. simpl in E. rewrite E.
    reflexivity.
  - unfold pass_clear_const_if. now rewrite H.
  - unfold pass_clear_goto. now rewrite H.
  - unfold pass_clear_if. now rewrite H.
  - unfold pass_merge_block. now rewrite H.
Qed.

(** ** A context without an IL function (C10) *)

(** C10: when the context has no IL function, [pass_merge_block] and
    [pass_swap_if] return at once, without an exception and with the world as
    it was; the three other passes have no such test and end in the
    [AttributeError] of [mlil.basic_blocks] on [None]. *)
Theorem C10_absent_mlil
    (finalize generate_ssa_form : MediumLevelILFunction -> MediumLevelILFunction)
    (MLIL_get_incoming_blocks :
       MediumLevelILFunction -> nat -> list MediumLevelILBasicBlock)
    (recursion_limit : nat) (f : Function) (lg : list LogEntry) (n : nat) :
  let w := {| analysis_context := {| mlil := None; function := f |};
              messages := lg; scan_count := n |} in
  let w' := {| analysis_context :=
                 {| mlil := None; function := {| function_mlil := None |} |};
               messages := lg; scan_count := n |} in
  pass_merge_block finalize generate_ssa_form MLIL_get_incoming_blocks w = (Ok tt, w)
  /\ pass_swap_if w' = (Ok tt, w')
  /\ pass_clear_const_if finalize generate_ssa_form w = (Raise AttributeError, w)
  /\ pass_clear_goto finalize generate_ssa_form recursion_limit w
     = (Raise AttributeError, w)
  /\ pass_clear_if finalize generate_ssa_form recursion_limit w
     = (Raise AttributeError, w).
Proof.
  intros w w'. repeat split.
Qed.

(** ** What a rewrite does to the store *)

(** The heap [h] with another expression store. *)
Definition with_exprs (h : Heap) (ex : list Node) : Heap :=
  {| il := {| exprs := ex; instrs := instrs (il h);
              basic_blocks := basic_blocks (il h) |};
     log := log h;
     scans := scans h |}.

(** The heap [h] with more log entries. *)
Definition with_log (h : Heap) (entries : list LogEntry) : Heap :=
  {| il := il h; log := log h ++ entries; scans := scans h |}.

Lemma with_log_nil h : with_log h [] = h.
Proof. unfold with_log. rewrite app_nil_r. apply heap_eta. Qed.

Lemma with_log_app h l1 l2 : with_log (with_log h l1) l2 = with_log h (l1 ++ l2).
Proof. unfold with_log. simpl. now rewrite <- app_assoc. Qed.

Lemma add_expr_eq n h :
  add_expr n h = (Ok (length (exprs (il h))), with_exprs h (exprs (il h) ++ [n])).
Proof. reflexivity. Qed.

Lemma replace_expr_eq old new n h :
  exprs (il h) !! new = Some n ->
  replace_expr old new h = (Ok tt, with_exprs h (<[old := n]> (exprs (il h)))).
Proof.
  intros E. unfold replace_expr. unfold bind at 1. rewrite expr_at_eq, E.
  reflexivity.
Qed.

Lemma lookup_instr_Some m i x :
  lookup_instr m i = Some x ->
  instr_index x = i
  /\ instrs m !! i = Some (expr_index x)
  /\ exprs m !! expr_index x = Some (node x).
Proof.
  unfold lookup_instr. intros H.
  destruct (instrs m !! i) as [e|]; [|discriminate].
  destruct (exprs m !! e) as [n|] eqn:En; [|discriminate].
  injection H as <-. simpl. auto.
Qed.

Lemma bb_last_Ok bb h x h' :
  bb_last bb h = (Ok x, h') ->
  h' = h /\ start bb < end_ bb /\ lookup_instr (il h) (end_ bb - 1) = Some x.
Proof.
  unfold bb_last. destruct (start bb <? end_ bb) eqn:Hlt; [|discriminate].
  rewrite getitem_eq.
  destruct (lookup_instr (il h) (end_ bb - 1)); [|discriminate].
  intros H. injection H as <- <-. apply Nat.ltb_lt in Hlt. auto.
Qed.

(** After the node of the block's last instruction [x] has been overwritten
    with [n], the block ends in [n]. *)
Lemma bb_last_after_rewrite bb h x n extra :
  bb_last bb h = (Ok x, h) ->
  let h' := with_exprs h (<[expr_index x := n]> (exprs (il h) ++ extra)) in
  bb_last bb h'
  = (Ok {| instr_index := instr_index x; expr_index := expr_index x; node := n |}, h').
Proof.
  intros H h'. apply bb_last_Ok in H as (_ & Hlt & Hx).
  apply lookup_instr_Some in Hx as (Hi & He & Hn).
  unfold bb_last. apply Nat.ltb_lt in Hlt. rewrite Hlt.
  rewrite getitem_eq. unfold lookup_instr, h'. simpl. rewrite He.
  rewrite list_lookup_insert_eq.
  - now rewrite Hi.
  - rewrite length_app. apply lookup_lt_Some in Hn. lia.
Qed.

(** The nodes that were in the store, other than the one at [e], are as
    they were. *)
Lemma lookup_after_rewrite (ex extra : list Node) e n j :
  j < length ex -> j <> e ->
  <[e := n]> (ex ++ extra) !! j = ex !! j.
Proof.
  intros Hj Hne. rewrite list_lookup_insert_ne by auto.
  now rewrite lookup_app_l.
Qed.

(** ** Folding one constant branch *)

Lemma fold_const_if_eq x target h :
  fold_const_if x target h
  = (Ok true,
     with_exprs h (<[expr_index x := MLIL_GOTO target]>
                     (exprs (il h) ++ [MLIL_GOTO target]))).
Proof.
  unfold fold_const_if, goto. simpl.
  unfold bind at 1. rewrite add_expr_eq.
  unfold bind at 1. rewrite (replace_expr_eq _ _ (MLIL_GOTO target)).
  - reflexivity.
  - simpl. rewrite lookup_app_r by lia. now rewrite Nat.sub_diag.
Qed.

(** The block [bb] now ends in the jump [MLIL_GOTO target], which took the
    place of the node of [x]; the instruction list, the blocks, the log and
    every other node of the store are as in [h]. *)
Definition folded_to (bb : MediumLevelILBasicBlock) (h : Heap)
    (x : MediumLevelILInstruction) (target : nat) : Prop :=
  let h' := with_exprs h (<[expr_index x := MLIL_GOTO target]>
                            (exprs (il h) ++ [MLIL_GOTO target])) in
  clear_const_if_block bb h = (Ok true, h')
  /\ bb_last bb h'
     = (Ok {| instr_index := instr_index x; expr_index := expr_index x;
              node := MLIL_GOTO target |}, h')
  /\ forall j, j < length (exprs (il h)) -> j <> expr_index x ->
       exprs (il h') !! j = exprs (il h) !! j.

(** One step of the scan of [pass_clear_const_if], on a block that ends in
    [x].  When [x] is a branch whose condition is the literal 1, the block
    ends in a jump to the true arm afterwards; when it is the literal 0, in a
    jump to the false arm; for any other literal, for a condition that is
    not a literal, and for a last instruction that is not a branch, nothing
    changes and no rewrite is reported. *)
Lemma clear_const_if_block_spec bb h x :
  bb_last bb h = (Ok x, h) ->
  match node x with
  | MLIL_IF c t f =>
      forall n, exprs (il h) !! c = Some n ->
        match n with
        | MLIL_VALUE (MLIL_CONST k) =>
            (k = 1%Z -> folded_to bb h x t)
            /\ (k = 0%Z -> folded_to bb h x f)
            /\ (k <> 1%Z -> k <> 0%Z -> clear_const_if_block bb h = (Ok false, h))
        | _ => clear_const_if_block bb h = (Ok false, h)
        end
  | _ => clear_const_if_block bb h = (Ok false, h)
  end.
Proof.
  intros Hlast.
  destruct (node x) as [d|c t f|s|d s|e|] eqn:Hx;
    try (unfold clear_const_if_block; rewrite (bind_ok _ _ _ _ _ Hlast), Hx;
         reflexivity).
  intros n Hn.
  assert (Hcond : clear_const_if_block bb h =
                  match n with
                  | MLIL_VALUE (MLIL_CONST constant) =>
                      if (constant =? 1)%Z then fold_const_if x t h
                      else if (constant =? 0)%Z then fold_const_if x f h
                      else (Ok false, h)
                  | _ => (Ok false, h)
                  end).
  { unfold clear_const_if_block. rewrite (bind_ok _ _ _ _ _ Hlast), Hx.
    unfold condition_of. rewrite Hx. unfold bind at 1. unfold bind at 1.
    rewrite expr_at_eq, Hn. simpl.
    destruct n as [| | | |[k| | | | | |]|]; try reflexivity.
    destruct (k =? 1)%Z; [reflexivity|]. destruct (k =? 0)%Z; reflexivity. }
  assert (Hfold : forall target,
             clear_const_if_block bb h = fold_const_if x target h ->
             folded_to bb h x target).
  { intros target E. unfold folded_to. rewrite E, fold_const_if_eq.
    split; [reflexivity|]. split.
    - apply (bb_last_after_rewrite bb h x (MLIL_GOTO target) _ Hlast).
    - intros j Hj Hne. simpl. now apply lookup_after_rewrite. }
  destruct n as [| | | |[k| | | | | |]|]; try exact Hcond.
  split; [|split].
  - intros ->. apply Hfold. now rewrite Hcond.
  - intros ->. apply Hfold. now rewrite Hcond.
  - intros H1 H0. rewrite Hcond.
    apply Z.eqb_neq in H1, H0. now rewrite H1, H0.
Qed.

(** ** Jump chains *)

(** The instruction index reached from [d] after [k] unconditional jumps, if
    the first [k] instructions on the way are jumps. *)
Fixpoint follow (m : MediumLevelILFunction) (k d : nat) : option nat :=
  match k with
  | 0 => Some d
  | S k' =>
      match lookup_instr m d with
      | Some x =>
          match node x with
          | MLIL_GOTO d' => follow m k' d'
          | _ => None
          end
      | None => None
      end
  end.

(** The sink of a chain: an instruction that is not a jump. *)
Definition is_sink (m : MediumLevelILFunction) (s : nat) : Prop :=
  exists x, lookup_instr m s = Some x /\ isinstance_Goto x = false.

(** The chain of jumps that starts at [d] reaches its sink [s] after [k]
    jumps. *)
Definition resolves_to (m : MediumLevelILFunction) (d k s : nat) : Prop :=
  follow m k d = Some s /\ is_sink m s.

(** The chain that starts at [d] comes back to [d]. *)
Definition on_cycle (m : MediumLevelILFunction) (d : nat) : Prop :=
  exists k, 0 < k /\ follow m k d = Some d.

(** The chain that starts at [d] never leaves the jumps. *)
Definition endless (m : MediumLevelILFunction) (d : nat) : Prop :=
  forall k, follow m k d <> None.

Lemma follow_add m a b d :
  follow m (a + b) d =
  match follow m a d with
  | Some d' => follow m b d'
  | None => None
  end.
Proof.
  revert d. induction a as [|a IH]; intros d; simpl; [reflexivity|].
  destruct (lookup_instr m d) as [x|]; [|reflexivity].
  destruct (node x); auto.
Qed.

Lemma on_cycle_endless m d : on_cycle m d -> endless m d.
Proof.
  intros (n & Hn & Hc) k.
  induction k as [k IH] using lt_wf_ind.
  destruct (Nat.lt_ge_cases k n) as [Hlt|Hge].
  - intros Hk. replace n with (k + (n - k)) in Hc by lia.
    rewrite follow_add, Hk in Hc. discriminate.
  - replace k with (n + (k - n)) by lia. rewrite follow_add, Hc.
    apply IH. lia.
Qed.

Lemma endless_step m d :
  endless m d ->
  exists x d',
    lookup_instr m d = Some x /\ node x = MLIL_GOTO d' /\ endless m d'.
Proof.
  intros He. pose proof (He 1) as H1. simpl in H1.
  destruct (lookup_instr m d) as [x|] eqn:Hx; [|congruence].
  destruct (node x) as [d'| | | | |] eqn:Hn; try congruence.
  exists x, d'. repeat split; auto.
  intros k. specialize (He (S k)). simpl in He. now rewrite Hx, Hn in He.
Qed.

Lemma resolves_to_zero m d k s :
  resolves_to m d k s -> (s = d <-> k = 0).
Proof.
  intros [Hf (x & Hx & Hg)]. split.
  - intros ->. destruct k as [|k]; [reflexivity|]. simpl in Hf.
    rewrite Hx in Hf. unfold isinstance_Goto in Hg.
    destruct (node x); congruence.
  - intros ->. simpl in Hf. congruence.
Qed.

Lemma isinstance_Goto_node x d : node x = MLIL_GOTO d -> isinstance_Goto x = true.
Proof. unfold isinstance_Goto. now intros ->. Qed.

Lemma getitem_ok h i x : lookup_instr (il h) i = Some x -> getitem i h = (Ok x, h).
Proof. intros E. now rewrite getitem_eq, E. Qed.

(** [optimize_goto] on a chain with a sink: the sink is returned, one log line
    is written for every jump that was followed, the function is not
    touched. *)
Lemma optimize_goto_resolves k :
  forall depth g d s h,
    node g = MLIL_GOTO d ->
    resolves_to (il h) d k s ->
    k < depth ->
    exists xs lg,
      lookup_instr (il h) s = Some xs
      /\ length lg = k
      /\ optimize_goto depth g h = (Ok xs, with_log h lg).
Proof.
  induction k as [|k IH]; intros depth g d s h Hg [Hf Hs] Hk;
    destruct depth as [|depth]; try lia; simpl; rewrite Hg.
  - simpl in Hf. injection Hf as <-. destruct Hs as (xs & Hxs & Hng).
    exists xs, []. repeat split; auto.
    rewrite (bind_ok _ _ _ _ _ (getitem_ok h d xs Hxs)), Hng. simpl.
    now rewrite with_log_nil.
  - simpl in Hf.
    destruct (lookup_instr (il h) d) as [x|] eqn:Hx; [|discriminate].
    destruct (node x) as [d'| | | | |] eqn:Hn; try discriminate.
    destruct (IH depth x d' s h Hn (conj Hf Hs) ltac:(lia))
      as (xs & lg & Hxs & Hlen & Hrec).
    exists xs, (lg ++ [log_info_optimized_goto (instr_index g) (instr_index xs)]).
    repeat split; auto.
    + rewrite length_app. simpl. lia.
    + rewrite (bind_ok _ _ _ _ _ (getitem_ok h d x Hx)).
      rewrite (isinstance_Goto_node x d' Hn). simpl.
      rewrite (bind_ok _ _ _ _ _ Hrec).
      unfold bind, write_log, ret. simpl. now rewrite <- with_log_app.
Qed.

(** [get_final_target] on a chain with a sink. *)
Lemma get_final_target_resolves k :
  forall depth x d s h,
    lookup_instr (il h) d = Some x ->
    resolves_to (il h) d k s ->
    k < depth ->
    exists xs,
      lookup_instr (il h) s = Some xs
      /\ get_final_target depth x h = (Ok xs, h).
Proof.
  induction k as [|k IH]; intros depth x d s h Hx [Hf Hs] Hk;
    destruct depth as [|depth]; try lia; simpl.
  - simpl in Hf. injection Hf as <-. destruct Hs as (xs & Hxs & Hng).
    rewrite Hx in Hxs. injection Hxs as <-. exists x. split; auto.
    unfold isinstance_Goto in Hng. destruct (node x); try reflexivity.
    discriminate.
  - simpl in Hf. rewrite Hx in Hf.
    destruct (node x) as [d'| | | | |] eqn:Hn; try discriminate.
    assert (Hx' : exists x', lookup_instr (il h) d' = Some x').
    { destruct k; simpl in Hf.
      - injection Hf as ->. destruct Hs as (xs & Hxs & _). eauto.
      - destruct (lookup_instr (il h) d'); [eauto|discriminate]. }
    destruct Hx' as (x' & Hx').
    destruct (IH depth x' d' s h Hx' (conj Hf Hs) ltac:(lia)) as (xs & Hxs & Hrec).
    exists xs. split; auto.
    now rewrite (bind_ok _ _ _ _ _ (getitem_ok h d' x' Hx')).
Qed.

(** On a chain that never leaves the jumps both procedures use up any
    recursion depth; nothing is logged on the way down. *)
Lemma optimize_goto_endless depth :
  forall g d h,
    node g = MLIL_GOTO d ->
    endless (il h) d ->
    optimize_goto depth g h = (Raise RecursionError, h).
Proof.
  induction depth as [|depth IH]; intros g d h Hg He; simpl; [reflexivity|].
  rewrite Hg. destruct (endless_step _ _ He) as (x & d' & Hx & Hn & He').
  rewrite (bind_ok _ _ _ _ _ (getitem_ok h d x Hx)).
  rewrite (isinstance_Goto_node x d' Hn). simpl.
  now rewrite (bind_raise _ _ _ _ _ (IH x d' h Hn He')).
Qed.

Lemma get_final_target_endless depth :
  forall x d h,
    lookup_instr (il h) d = Some x ->
    endless (il h) d ->
    get_final_target depth x h = (Raise RecursionError, h).
Proof.
  induction depth as [|depth IH]; intros x d h Hx He; simpl; [reflexivity|].
  destruct (endless_step _ _ He) as (x0 & d' & Hx0 & Hn & He').
  rewrite Hx in Hx0. injection Hx0 as <-. rewrite Hn.
  destruct (endless_step _ _ He') as (x' & d'' & Hx' & _ & _).
  rewrite (bind_ok _ _ _ _ _ (getitem_ok h d' x' Hx')).
  now apply (IH x' d').
Qed.

Lemma resolves_to_lookup m d k s :
  resolves_to m d k s -> exists x, lookup_instr m d = Some x.
Proof.
  intros [Hf (xs & Hxs & _)]. destruct k as [|k]; simpl in Hf.
  - injection Hf as ->. eauto.
  - destruct (lookup_instr m d); [eauto|discriminate].
Qed.

Lemma bb_last_il bb h1 h2 x :
  il h1 = il h2 -> bb_last bb h1 = (Ok x, h1) -> bb_last bb h2 = (Ok x, h2).
Proof.
  intros Hil H. apply bb_last_Ok in H as (_ & Hlt & Hx).
  unfold bb_last. apply Nat.ltb_lt in Hlt. rewrite Hlt.
  rewrite getitem_eq, <- Hil, Hx. reflexivity.
Qed.

(** Building a node, moving it to [e] and reporting a rewrite. *)
Lemma build_replace_report e n h :
  (let* new := add_expr n in run replace_expr e new then ret true) h
  = (Ok true, with_exprs h (<[e := n]> (exprs (il h) ++ [n]))).
Proof.
  unfold bind at 1. rewrite add_expr_eq.
  unfold bind at 1. rewrite (replace_expr_eq _ _ n).
  - reflexivity.
  - simpl. rewrite lookup_app_r by lia. now rewrite Nat.sub_diag.
Qed.

(** A block whose jump runs into a cycle: the scan of [pass_clear_goto] ends
    there with [RecursionError]. *)
Lemma clear_goto_block_cycle limit bb h g d :
  bb_last bb h = (Ok g, h) ->
  node g = MLIL_GOTO d ->
  endless (il h) d ->
  clear_goto_block limit bb h = (Raise RecursionError, h).
Proof.
  intros Hlast Hg He. unfold clear_goto_block.
  rewrite (bind_ok _ _ _ _ _ Hlast), Hg.
  now rewrite (bind_raise _ _ _ _ _ (optimize_goto_endless limit g d h Hg He)).
Qed.

(** The same for a branch whose true arm runs into a cycle. *)
Lemma clear_if_block_cycle limit bb h b c t f :
  bb_last bb h = (Ok b, h) ->
  node b = MLIL_IF c t f ->
  endless (il h) t ->
  clear_if_block limit bb h = (Raise RecursionError, h).
Proof.
  intros Hlast Hb He. unfold clear_if_block.
  rewrite (bind_ok _ _ _ _ _ Hlast), Hb.
  destruct (endless_step _ _ He) as (x & d' & Hx & _ & _).
  rewrite (bind_ok _ _ _ _ _ (getitem_ok h t x Hx)).
  now rewrite (bind_raise _ _ _ _ _ (get_final_target_endless limit x t h Hx He)).
Qed.

(** ** Cyclic jump chains (C1) *)

(** Two jumps that target each other, a branch into them, and a return. *)
Definition cyclic_il : MediumLevelILFunction :=
  finalize_blocks
    {| exprs := [MLIL_GOTO 1; MLIL_GOTO 0; MLIL_IF 4 0 3; MLIL_RET [];
                 MLIL_VALUE (MLIL_VAR 0)];
       instrs := [0; 1; 2; 3];
       basic_blocks := [] |}.

Definition cyclic_heap : Heap := {| il := cyclic_il; log := []; scans := 0 |}.

Definition cyclic_world (n : nat) : World :=
  {| analysis_context :=
       {| mlil := Some cyclic_il; function := {| function_mlil := None |} |};
     messages := [];
     scan_count := n |}.

Lemma cyclic_il_on_cycle : on_cycle cyclic_il 1.
Proof. exists 2. split; [lia|reflexivity]. Qed.

(** C1, as the code has it: a chain of jumps that reaches a non-jump
    instruction in fewer jumps than the recursion limit is resolved to that
    instruction by both chain-following procedures.  A chain that comes back
    to its start is not detected: there is no visited set, both procedures go
    down until the recursion limit is used up, whatever the limit, and end in
    [RecursionError]; the scan of the block ends with that exception, the log
    and the function being as before. *)
Theorem C1_chain_resolution limit h d x :
  lookup_instr (il h) d = Some x ->
  (forall k s,
     resolves_to (il h) d k s -> k < limit ->
     exists xs,
       lookup_instr (il h) s = Some xs
       /\ get_final_target limit x h = (Ok xs, h)
       /\ forall g, node g = MLIL_GOTO d ->
            exists lg, optimize_goto limit g h = (Ok xs, with_log h lg))
  /\ (on_cycle (il h) d ->
      get_final_target limit x h = (Raise RecursionError, h)
      /\ (forall g, node g = MLIL_GOTO d ->
            optimize_goto limit g h = (Raise RecursionError, h))
      /\ (forall bb g,
            bb_last bb h = (Ok g, h) -> node g = MLIL_GOTO d ->
            clear_goto_block limit bb h = (Raise RecursionError, h))
      /\ (forall bb b c f,
            bb_last bb h = (Ok b, h) -> node b = MLIL_IF c d f ->
            clear_if_block limit bb h = (Raise RecursionError, h))).
Proof.
  intros Hx. split.
  - intros k s Hr Hk.
    destruct (get_final_target_resolves k limit x d s h Hx Hr Hk) as (xs & Hxs & Hf).
    exists xs. repeat split; auto.
    intros g Hg.
    destruct (optimize_goto_resolves k limit g d s h Hg Hr Hk)
      as (xs' & lg & Hxs' & _ & Ho).
    exists lg. congruence.
  - intros Hc. apply on_cycle_endless in Hc. repeat split.
    + now apply (get_final_target_endless limit x d).
    + intros g Hg. now apply (optimize_goto_endless limit g d).
    + intros bb g Hlast Hg. now apply (clear_goto_block_cycle limit bb h g d).
    + intros bb b c f Hlast Hb. now apply (clear_if_block_cycle limit bb h b c d f).
Qed.

(** On [cyclic_il] the jump of the first block is never resolved: with any
    recursion limit [optimize_goto] ends in [RecursionError] with an empty
    log, and so do the scans of both passes and [pass_clear_goto] itself. *)
Lemma C1_cycle_not_detected :
  (forall limit,
     optimize_goto limit
       {| instr_index := 0; expr_index := 0; node := MLIL_GOTO 1 |} cyclic_heap
     = (Raise RecursionError, cyclic_heap))
  /\ (forall limit,
        clear_goto_block limit {| start := 0; end_ := 1 |} cyclic_heap
        = (Raise RecursionError, cyclic_heap))
  /\ (forall limit,
        clear_if_block limit {| start := 2; end_ := 3 |} cyclic_heap
        = (Raise RecursionError, cyclic_heap))
  /\ (forall limit,
        pass_clear_goto finalize_blocks regenerate_metadata limit (cyclic_world 0)
        = (Raise RecursionError, cyclic_world 1)).
Proof.
  pose proof (on_cycle_endless _ _ cyclic_il_on_cycle) as He1.
  assert (He0 : endless cyclic_il 0).
  { apply on_cycle_endless. exists 2. split; [lia|reflexivity]. }
  repeat split; intros limit.
  - now apply (optimize_goto_endless limit _ 1).
  - now apply (clear_goto_block_cycle limit _ cyclic_heap
                 {| instr_index := 0; expr_index := 0; node := MLIL_GOTO 1 |} 1).
  - now apply (clear_if_block_cycle limit _ cyclic_heap
                 {| instr_index := 2; expr_index := 2; node := MLIL_IF 4 0 3 |} 4 0 3).
  - unfold pass_clear_goto. simpl. unfold on_mlil, clear_goto_body.
    unfold bind at 1. simpl. unfold bind at 1. unfold bind at 1. simpl.
    unfold bind at 1. unfold clear_goto_scan. unfold bind at 1. simpl.
    unfold bind at 1.
    rewrite (clear_goto_block_cycle limit {| start := 0; end_ := 1 |}
               {| il := cyclic_il; log := []; scans := 1 |}
               {| instr_index := 0; expr_index := 0; node := MLIL_GOTO 1 |} 1
               eq_refl eq_refl He1).
    reflexivity.
Qed.

(** ** Compressing one jump chain *)

(** One step of the scan of [pass_clear_goto], on a block that ends in the
    jump [g] to [d], where the chain of jumps from [d] reaches its sink [s]
    (within the recursion limit).  When [s] is
    [d] itself the block is left as it is and no rewrite is reported.
    Otherwise a rewrite is reported and the block ends in a jump to [s]
    afterwards; the other nodes of the store, the instruction list and the
    blocks are unchanged, and the log has grown by the lines of
    [optimize_goto]. *)
Lemma clear_goto_block_spec limit bb h g d k s :
  bb_last bb h = (Ok g, h) ->
  node g = MLIL_GOTO d ->
  resolves_to (il h) d k s ->
  k < limit ->
  (s = d -> clear_goto_block limit bb h = (Ok false, h))
  /\ (s <> d ->
      exists lg,
        let h' := with_exprs (with_log h lg)
                    (<[expr_index g := MLIL_GOTO s]>
                       (exprs (il h) ++ [MLIL_GOTO s])) in
        clear_goto_block limit bb h = (Ok true, h')
        /\ bb_last bb h'
           = (Ok {| instr_index := instr_index g; expr_index := expr_index g;
                    node := MLIL_GOTO s |}, h')
        /\ forall j, j < length (exprs (il h)) -> j <> expr_index g ->
             exprs (il h') !! j = exprs (il h) !! j).
Proof.
  intros Hlast Hg Hr Hk.
  destruct (optimize_goto_resolves k limit g d s h Hg Hr Hk)
    as (xs & lg & Hxs & Hlen & Ho).
  apply lookup_instr_Some in Hxs as (Hi & _ & _).
  assert (Hblock : clear_goto_block limit bb h =
                   if s =? d then (Ok false, with_log h lg)
                   else (Ok true,
                         with_exprs (with_log h lg)
                           (<[expr_index g := MLIL_GOTO s]>
                              (exprs (il h) ++ [MLIL_GOTO s])))).
  { unfold clear_goto_block.
    rewrite (bind_ok _ _ _ _ _ Hlast), Hg, (bind_ok _ _ _ _ _ Ho), Hi.
    destruct (s =? d); [reflexivity|].
    unfold goto. simpl. rewrite build_replace_report. reflexivity. }
  split.
  - intros Hsd. rewrite Hblock. apply Nat.eqb_eq in Hsd as Hb. rewrite Hb.
    apply (resolves_to_zero _ _ _ _ Hr) in Hsd. subst k.
    destruct lg; [|discriminate]. now rewrite with_log_nil.
  - intros Hsd. exists lg. simpl. rewrite Hblock.
    apply Nat.eqb_neq in Hsd. rewrite Hsd.
    split; [reflexivity|]. split.
    + apply (bb_last_after_rewrite bb (with_log h lg) g (MLIL_GOTO s)).
      now apply (bb_last_il bb h).
    + intros j Hj Hne. now apply lookup_after_rewrite.
Qed.

(** ** Redirecting the arms of one branch *)

(** One step of the scan of [pass_clear_if], on a block that ends in the
    branch [x] on the condition stored at [c], where the chains from the two
    arms [t] and [f] reach their sinks [st] and
    [sf] (within the recursion limit).  When both sinks are the arms
    themselves nothing changes and no rewrite is reported.  When one of them
    differs, a rewrite is reported; the block then ends in a branch to [st]
    and [sf] whose condition is a new node, a copy of the node at [c]; the
    node at [c] itself and every other node that was in the store are
    unchanged. *)
Lemma clear_if_block_spec limit bb h x c t f cn kt st kf sf :
  bb_last bb h = (Ok x, h) ->
  node x = MLIL_IF c t f ->
  exprs (il h) !! c = Some (MLIL_VALUE cn) ->
  resolves_to (il h) t kt st -> kt < limit ->
  resolves_to (il h) f kf sf -> kf < limit ->
  (st = t /\ sf = f -> clear_if_block limit bb h = (Ok false, h))
  /\ (st <> t \/ sf <> f ->
      let c' := length (exprs (il h)) in
      let new_if := MLIL_IF c' st sf in
      let h' := with_exprs h
                  (<[expr_index x := new_if]>
                     (exprs (il h) ++ [MLIL_VALUE cn; new_if])) in
      clear_if_block limit bb h = (Ok true, h')
      /\ bb_last bb h'
         = (Ok {| instr_index := instr_index x; expr_index := expr_index x;
                  node := new_if |}, h')
      /\ exprs (il h') !! c' = Some (MLIL_VALUE cn)
      /\ exprs (il h') !! c = Some (MLIL_VALUE cn)
      /\ forall j, j < length (exprs (il h)) -> j <> expr_index x ->
           exprs (il h') !! j = exprs (il h) !! j).
Proof.
  intros Hlast Hx Hc Hrt Hkt Hrf Hkf.
  destruct (resolves_to_lookup _ _ _ _ Hrt) as (xt & Hxt).
  destruct (resolves_to_lookup _ _ _ _ Hrf) as (xf & Hxf).
  destruct (get_final_target_resolves kt limit xt t st h Hxt Hrt Hkt)
    as (xst & Hxst & Ht).
  destruct (get_final_target_resolves kf limit xf f sf h Hxf Hrf Hkf)
    as (xsf & Hxsf & Hf).
  apply lookup_instr_Some in Hxst as (Hit & _ & _).
  apply lookup_instr_Some in Hxsf as (Hif & _ & _).
  pose proof Hlast as Hl. apply bb_last_Ok in Hl as (_ & _ & Hlx).
  apply lookup_instr_Some in Hlx as (_ & _ & Hxn).
  assert (Hlen : expr_index x < length (exprs (il h))).
  { now apply lookup_lt_Some in Hxn. }
  assert (Hcx : c <> expr_index x).
  { intros ->. rewrite Hc, Hx in Hxn. discriminate. }
  assert (Hclen : c < length (exprs (il h))).
  { now apply lookup_lt_Some in Hc. }
  set (new_if := MLIL_IF (length (exprs (il h))) st sf).
  assert (Hblock : clear_if_block limit bb h =
                   if negb (st =? t) || negb (sf =? f) then
                     (Ok true,
                      with_exprs h
                        (<[expr_index x := new_if]>
                           (exprs (il h) ++ [MLIL_VALUE cn; new_if])))
                   else (Ok false, h)).
  { unfold clear_if_block.
    rewrite (bind_ok _ _ _ _ _ Hlast), Hx.
    rewrite (bind_ok _ _ _ _ _ (getitem_ok h t xt Hxt)).
    rewrite (bind_ok _ _ _ _ _ Ht).
    rewrite (bind_ok _ _ _ _ _ (getitem_ok h f xf Hxf)).
    rewrite (bind_ok _ _ _ _ _ Hf), Hit, Hif.
    destruct (negb (st =? t) || negb (sf =? f)); [|reflexivity].
    unfold condition_of. rewrite Hx.
    unfold bind at 1. unfold bind at 1. rewrite expr_at_eq, Hc. simpl.
    unfold copy_expr. simpl. unfold bind at 1. rewrite add_expr_eq.
    unfold if_expr. simpl.
    rewrite build_replace_report. simpl.
    rewrite <- app_assoc. reflexivity. }
  split.
  - intros [-> ->]. rewrite Hblock, !Nat.eqb_refl. reflexivity.
  - intros Hne. simpl. rewrite Hblock.
    assert (Hb : negb (st =? t) || negb (sf =? f) = true).
    { destruct Hne as [H|H]; apply Nat.eqb_neq in H; rewrite H; simpl;
        [reflexivity|apply orb_true_r]. }
    rewrite Hb. split; [reflexivity|]. split; [|split; [|split]].
    + apply (bb_last_after_rewrite bb h x new_if _ Hlast).
    + rewrite list_lookup_insert_ne by lia.
      rewrite lookup_app_r by lia. now rewrite Nat.sub_diag.
    + rewrite lookup_after_rewrite; auto.
    + intros j Hj Hjx. now apply lookup_after_rewrite.
Qed.

(** ** Computations that only read *)

Definition read_only {A} (c : IL A) : Prop :=
  forall h, snd (c h) = h.

Lemma bind_read_only_inv {A B} (c : IL A) (k : A -> IL B) h r h' :
  read_only c ->
  bind c k h = (r, h') ->
  (exists a, c h = (Ok a, h) /\ k a h = (r, h'))
  \/ (exists e, r = Raise e /\ h' = h).
Proof.
  intros Hc. unfold bind. specialize (Hc h).
  destruct (c h) as [[a|e] h1]; simpl in Hc; subst h1; intros E.
  - left. eauto.
  - right. exists e. now injection E as <- <-.
Qed.

Lemma read_only_bb_last bb : read_only (bb_last bb).
Proof. intros h. apply bb_last_heap. Qed.

Lemma read_only_getitem i : read_only (getitem i).
Proof. intros h. now rewrite getitem_eq. Qed.

Lemma read_only_get_il : read_only get_il.
Proof. now intros h. Qed.

Lemma read_only_get_basic_block_at i : read_only (get_basic_block_at i).
Proof. now intros h. Qed.

Lemma read_only_map_bb_last l : read_only (map_il bb_last l).
Proof. intros h. apply map_il_bb_last_heap. Qed.

Lemma read_only_bb_init bb : read_only (bb_init bb).
Proof. intros h. apply map_il_getitem_heap. Qed.

Lemma read_only_bb_all bb : read_only (bb_all bb).
Proof. intros h. apply map_il_getitem_heap. Qed.

Lemma read_only_condition_of x : read_only (condition_of x).
Proof.
  intros h. unfold condition_of. destruct (node x); try reflexivity.
  unfold bind. rewrite expr_at_eq.
  destruct (exprs (il h) !! condition); reflexivity.
Qed.

Lemma read_only_get_final_target depth x : read_only (get_final_target depth x).
Proof.
  revert x. induction depth as [|depth IH]; intros x h; simpl; [reflexivity|].
  destruct (node x); try reflexivity.
  unfold bind. rewrite getitem_eq.
  destruct (lookup_instr (il h) dest); [apply IH|reflexivity].
Qed.

(** In [H : bind c k h = (Ok v, h')] with [c] read-only, goes on to the
    continuation. *)
Ltac read_step H lem :=
  apply bind_read_only_inv in H; [|apply lem];
  let a := fresh "a" in
  let E := fresh "E" in
  let e := fresh "e" in
  let Hr := fresh "Hr" in
  destruct H as [(a & E & H)|(e & Hr & _)]; [|discriminate Hr].

(** ** Merging blocks *)

Section Merge.

Variable finalize : MediumLevelILFunction -> MediumLevelILFunction.
Variable generate_ssa_form : MediumLevelILFunction -> MediumLevelILFunction.
Variable MLIL_get_incoming_blocks :
  MediumLevelILFunction -> nat -> list MediumLevelILBasicBlock.

(** Some predecessor ends in an instruction that is neither a jump nor a
    branch. *)
Definition has_foreign_terminator (pre_instrs : list MediumLevelILInstruction) : Prop :=
  exists p, In p pre_instrs /\ isinstance_Goto p = false /\ isinstance_If p = false.

Lemma has_foreign_terminator_forallb pre_instrs :
  has_foreign_terminator pre_instrs ->
  forallb (fun instr => isinstance_Goto instr || isinstance_If instr) pre_instrs
  = false.
Proof.
  intros (p & Hin & Hg & Hi).
  destruct (forallb _ pre_instrs) eqn:E; [|reflexivity].
  rewrite forallb_forall in E. specialize (E p Hin). now rewrite Hg, Hi in E.
Qed.

(** With such a predecessor [merge_block] writes its error line and returns
    [False]; the function is not touched. *)
Lemma merge_block_foreign instrs pre_instrs h :
  has_foreign_terminator pre_instrs ->
  merge_block instrs pre_instrs h
  = (Ok false, with_log h [log_error_eeeee pre_instrs]).
Proof.
  intros H. unfold merge_block.
  now rewrite (has_foreign_terminator_forallb _ H).
Qed.

(** [merge_block] returns [False] only from its two early returns, before
    anything is marked, appended or replaced. *)
Lemma merge_block_false instrs pre_instrs h h' :
  merge_block instrs pre_instrs h = (Ok false, h') -> il h' = il h.
Proof.
  unfold merge_block.
  destruct (negb (forallb _ pre_instrs)).
  - intros E. now injection E as <-.
  - destruct (length instrs =? 0).
    + intros E. now injection E as <-.
    + unfold bind at 1. simpl. unfold bind at 1.
      destruct (for_each _ instrs h) as [[[]|e] h1]; [|discriminate].
      unfold bind at 1.
      destruct (for_each _ pre_instrs h1) as [[[]|e] h2]; discriminate.
Qed.

Lemma merge_candidate_inv block h v h' :
  merge_candidate MLIL_get_incoming_blocks block h = (Ok v, h') ->
  (v = false /\ h' = h)
  \/ exists instrs pre_instrs, merge_block instrs pre_instrs h = (Ok v, h').
Proof.
  unfold merge_candidate. intros H.
  read_step H read_only_bb_last.
  destruct (node a); try (left; now injection H as <- <-).
  read_step H read_only_get_basic_block_at.
  destruct a0 as [next_block|]; [|discriminate].
  read_step H read_only_get_il.
  destruct (length _ =? 1); [|left; now injection H as <- <-].
  read_step H read_only_bb_last.
  destruct (isinstance_Goto a1 || isinstance_Ret a1);
    [|left; now injection H as <- <-].
  read_step H read_only_map_bb_last.
  read_step H read_only_bb_init.
  read_step H read_only_bb_all.
  right. eauto.
Qed.

Lemma merge_candidate_false block h h' :
  merge_candidate MLIL_get_incoming_blocks block h = (Ok false, h') ->
  il h' = il h.
Proof.
  intros H. apply merge_candidate_inv in H as [[_ ->]|(i & p & H)]; [reflexivity|].
  now apply merge_block_false in H.
Qed.

(** The scan of [pass_merge_block]: either no block was merged and the
    function is as it was, or exactly one call of [merge_block] succeeded, on
    the function as it was when the scan began, and the scan ended there. *)
Lemma merge_scan_blocks_inv blocks :
  forall h v h',
    merge_scan_blocks MLIL_get_incoming_blocks blocks h = (Ok v, h') ->
    (v = false /\ il h' = il h)
    \/ (v = true
        /\ exists before block after h0 instrs pre_instrs,
             blocks = before ++ block :: after
             /\ il h0 = il h
             /\ merge_candidate MLIL_get_incoming_blocks block h0 = (Ok true, h')
             /\ merge_block instrs pre_instrs h0 = (Ok true, h')).
Proof.
  induction blocks as [|block blocks IH]; intros h v h' H; simpl in H.
  - left. now injection H as <- <-.
  - unfold bind in H.
    destruct (merge_candidate _ block h) as [[[|]|e] h1] eqn:E; [| |discriminate].
    + injection H as <- <-. right. split; [reflexivity|].
      destruct (merge_candidate_inv _ _ _ _ E) as [[? _]|(i & p & Hm)];
        [discriminate|].
      exists [], block, blocks, h, i, p. auto.
    + apply merge_candidate_false in E.
      destruct (IH _ _ _ H) as [[-> Hil]|(-> & b & blk & a & h0 & i & p & Hb & Hil & Hc & Hm)].
      * left. split; [reflexivity|congruence].
      * right. split; [reflexivity|].
        exists (block :: b), blk, a, h0, i, p. rewrite Hb.
        repeat split; auto. congruence.
Qed.

End Merge.

(** ** A predecessor that is neither a jump nor a branch (C3) *)

(** [block] and [next_block] are a pair that [pass_merge_block] tries to
    merge on the heap [h]: [block] ends in a jump into [next_block], which
    has one incoming block and ends in a jump or a return; [pre_instrs] are
    the last instructions of the blocks that come into [block], and [instrs]
    is the body of [block] followed by all of [next_block]. *)
Definition is_merge_candidate
    (incoming : MediumLevelILFunction -> nat -> list MediumLevelILBasicBlock)
    (h : Heap) (block next_block : MediumLevelILBasicBlock)
    (instrs pre_instrs : list MediumLevelILInstruction) : Prop :=
  exists last_instr dest next_last body next_body,
    bb_last block h = (Ok last_instr, h)
    /\ node last_instr = MLIL_GOTO dest
    /\ get_basic_block_at dest h = (Ok (Some next_block), h)
    /\ length (incoming (il h) (start next_block)) = 1
    /\ bb_last next_block h = (Ok next_last, h)
    /\ isinstance_Goto next_last || isinstance_Ret next_last = true
    /\ map_il bb_last (incoming (il h) (start block)) h = (Ok pre_instrs, h)
    /\ bb_init block h = (Ok body, h)
    /\ bb_all next_block h = (Ok next_body, h)
    /\ instrs = body ++ next_body.

Lemma merge_candidate_reaches incoming h block next_block instrs pre_instrs :
  is_merge_candidate incoming h block next_block instrs pre_instrs ->
  merge_candidate incoming block h = merge_block instrs pre_instrs h.
Proof.
  intros (last_instr & dest & next_last & body & next_body
          & Hl & Hn & Hb & Hlen & Hnl & Hk & Hp & Hi & Ha & ->).
  unfold merge_candidate.
  rewrite (bind_ok _ _ _ _ _ Hl), Hn, (bind_ok _ _ _ _ _ Hb).
  unfold bind at 1. simpl. rewrite Hlen. simpl.
  rewrite (bind_ok _ _ _ _ _ Hnl), Hk.
  rewrite (bind_ok _ _ _ _ _ Hp), (bind_ok _ _ _ _ _ Hi), (bind_ok _ _ _ _ _ Ha).
  reflexivity.
Qed.

(** C3: when a block that comes into [block] ends in an instruction that is
    neither a jump nor a branch, the merge of the pair is given up: the error
    line is logged, [merge_block] returns [False] with the function as it was
    (nothing marked, appended or replaced), and the scan goes on with the
    blocks that follow. *)
Theorem C3_foreign_predecessor_abandons_merge
    (incoming : MediumLevelILFunction -> nat -> list MediumLevelILBasicBlock)
    h block next_block instrs pre_instrs rest :
  is_merge_candidate incoming h block next_block instrs pre_instrs ->
  has_foreign_terminator pre_instrs ->
  let h' := with_log h [log_error_eeeee pre_instrs] in
  merge_block instrs pre_instrs h = (Ok false, h')
  /\ il h' = il h
  /\ merge_candidate incoming block h = (Ok false, h')
  /\ merge_scan_blocks incoming (block :: rest) h
     = merge_scan_blocks incoming rest h'.
Proof.
  intros Hc Hf h'.
  pose proof (merge_block_foreign instrs pre_instrs h Hf) as Hm.
  pose proof (merge_candidate_reaches _ _ _ _ _ _ Hc) as Hr.
  rewrite Hm in Hr.
  split; [exact Hm|]. split; [reflexivity|]. split; [exact Hr|].
  simpl. now rewrite (bind_ok _ _ _ _ _ Hr).
Qed.

(** ** One merge per scan (C7) *)

(** C7: a scan of [pass_merge_block] that reports no merge leaves the
    function as it was; a scan that reports one has had exactly one
    successful call of [merge_block], made on the function as it was when the
    scan began, at some block of the list, the blocks after it not being
    looked at.  A successful merge ends the scan at once, and the next scan
    starts only after [finalize] and [generate_ssa_form]. *)
Theorem C7_one_merge_per_scan
    (finalize generate_ssa_form : MediumLevelILFunction -> MediumLevelILFunction)
    (incoming : MediumLevelILFunction -> nat -> list MediumLevelILBasicBlock)
    (blocks : list MediumLevelILBasicBlock) (h : Heap) :
  (forall v h',
     merge_scan_blocks incoming blocks h = (Ok v, h') ->
     (v = false /\ il h' = il h)
     \/ (v = true
         /\ exists before block after h0 instrs pre_instrs,
              blocks = before ++ block :: after
              /\ il h0 = il h
              /\ merge_candidate incoming block h0 = (Ok true, h')
              /\ merge_block instrs pre_instrs h0 = (Ok true, h')))
  /\ (forall block rest h',
        merge_candidate incoming block h = (Ok true, h') ->
        merge_scan_blocks incoming (block :: rest) h = (Ok true, h'))
  /\ (forall n h',
        merge_scan incoming (snd (tick_scan h)) = (Ok true, h') ->
        fixed_point_loop finalize generate_ssa_form (merge_scan incoming) (S n) h
        = fixed_point_loop finalize generate_ssa_form (merge_scan incoming) n
            (rederived finalize generate_ssa_form h')).
Proof.
  split; [|split].
  - intros v h' H. exact (merge_scan_blocks_inv incoming blocks h v h' H).
  - intros block rest h' H. simpl. now rewrite (bind_ok _ _ _ _ _ H).
  - intros n h' H. simpl.
    unfold bind at 1. simpl. unfold bind at 1. simpl in H. now rewrite H.
Qed.

(** ** When the redirection ends in the fatal error *)

(** Every branch in the store has its condition in the store. *)
Definition store_closed (ex : list Node) : Prop :=
  forall e c t f, ex !! e = Some (MLIL_IF c t f) -> c < length ex.

(** If [x] is a branch, its condition is among the first [n] nodes. *)
Definition condition_below (n : nat) (x : MediumLevelILInstruction) : Prop :=
  forall c t f, node x = MLIL_IF c t f -> c < n.

(** The branch [p] has neither arm at [entry]. *)
Definition misses (entry : nat) (p : MediumLevelILInstruction) : bool :=
  match node p with
  | MLIL_IF _ t f => negb (t =? entry) && negb (f =? entry)
  | _ => false
  end.

(** The store of [h'] extends that of [h] in length and is closed. *)
Definition grown (h h' : Heap) : Prop :=
  length (exprs (il h)) <= length (exprs (il h'))
  /\ store_closed (exprs (il h')).

Lemma store_closed_app ex n :
  store_closed ex ->
  (forall c t f, n = MLIL_IF c t f -> c <= length ex) ->
  store_closed (ex ++ [n]).
Proof.
  intros Hc Hn e c t f He. rewrite length_app. simpl.
  destruct (Nat.lt_ge_cases e (length ex)) as [Hlt|Hge].
  - rewrite lookup_app_l in He by assumption. apply Hc in He. lia.
  - rewrite lookup_app_r in He by assumption.
    destruct (e - length ex) as [|k]; simpl in He; [|discriminate].
    injection He as He. apply Hn in He. lia.
Qed.

Lemma store_closed_insert ex e n :
  store_closed ex ->
  (forall c t f, n = MLIL_IF c t f -> c < length ex) ->
  store_closed (<[e := n]> ex).
Proof.
  intros Hc Hn e' c t f He. rewrite length_insert.
  destruct (decide (e = e')) as [<-|Hne].
  - destruct (Nat.lt_ge_cases e (length ex)) as [Hlt|Hge].
    + rewrite list_lookup_insert_eq in He by assumption.
      injection He as He. now apply Hn in He.
    + rewrite list_insert_ge in He by assumption. now apply Hc in He.
  - rewrite list_lookup_insert_ne in He by assumption. now apply Hc in He.
Qed.

Lemma grown_refl h : store_closed (exprs (il h)) -> grown h h.
Proof. intros H. split; [lia|assumption]. Qed.

Lemma grown_trans h1 h2 h3 : grown h1 h2 -> grown h2 h3 -> grown h1 h3.
Proof. intros [H1 _] [H2 H3]. split; [lia|assumption]. Qed.

Lemma add_expr_grown n h :
  store_closed (exprs (il h)) ->
  (forall c t f, n = MLIL_IF c t f -> c <= length (exprs (il h))) ->
  exists h',
    add_expr n h = (Ok (length (exprs (il h))), h')
    /\ grown h h'
    /\ length (exprs (il h)) < length (exprs (il h'))
    /\ exprs (il h') !! length (exprs (il h)) = Some n.
Proof.
  intros Hc Hn. eexists. split; [apply add_expr_eq|]. simpl.
  split; [split|split]; simpl.
  - rewrite length_app. lia.
  - now apply store_closed_app.
  - rewrite length_app. simpl. lia.
  - rewrite lookup_app_r by lia. now rewrite Nat.sub_diag.
Qed.

Lemma copy_expr_grown x h :
  store_closed (exprs (il h)) ->
  condition_below (length (exprs (il h))) x ->
  exists e h',
    copy_expr x h = (Ok e, h')
    /\ grown h h'
    /\ e < length (exprs (il h')).
Proof.
  intros Hc Hx. unfold copy_expr.
  destruct (node x) as [d|c t f|s|d s|v|] eqn:Hn.
  2: {
    specialize (Hx c t f Hn).
    destruct (lookup_lt_is_Some_2 _ _ Hx) as (n & Hcn).
    unfold bind at 1. rewrite expr_at_eq, Hcn.
    destruct (add_expr_grown n h Hc) as (h1 & E1 & G1 & L1 & _).
    { intros c2 t2 f2 ->. apply Hc in Hcn. lia. }
    unfold bind at 1. rewrite E1.
    destruct (add_expr_grown (MLIL_IF (length (exprs (il h))) t f) h1 (proj2 G1))
      as (h2 & E2 & G2 & L2 & _).
    { intros c2 t2 f2 E. injection E as <- _ _. lia. }
    exists (length (exprs (il h1))), h2. split; [exact E2|].
    split; [exact (grown_trans _ _ _ G1 G2)|exact L2]. }
  all: match goal with
       | Hc' : store_closed (exprs (il ?h0)) |- context [add_expr ?n ?h0] =>
           destruct (add_expr_grown n h0 Hc') as (h1 & E1 & G1 & L1 & _);
             [discriminate|];
             exists (length (exprs (il h0))), h1; auto
       end.
Qed.

Lemma replace_expr_grown old new h :
  store_closed (exprs (il h)) ->
  new < length (exprs (il h)) ->
  exists h', replace_expr old new h = (Ok tt, h') /\ grown h h'.
Proof.
  intros Hc Hnew. destruct (lookup_lt_is_Some_2 _ _ Hnew) as (n & Hn).
  eexists. split; [apply (replace_expr_eq old new n h Hn)|].
  split; simpl; [now rewrite length_insert|].
  apply store_closed_insert; [assumption|].
  intros c t f ->. now apply Hc in Hn.
Qed.

Lemma append_grown e h :
  store_closed (exprs (il h)) ->
  exists h', append e h = (Ok tt, h') /\ grown h h'.
Proof.
  intros Hc. eexists. split; [reflexivity|]. split; simpl; [lia|assumption].
Qed.

Lemma condition_below_le n n' x :
  n <= n' -> condition_below n x -> condition_below n' x.
Proof. intros Hle Hx c t f E. apply Hx in E. lia. Qed.

(** The loop that copies and appends [instrs] ends normally. *)
Lemma copy_and_append_grown xs :
  forall h,
    store_closed (exprs (il h)) ->
    Forall (condition_below (length (exprs (il h)))) xs ->
    exists h',
      for_each (fun x => let* e := copy_expr x in append e) xs h = (Ok tt, h')
      /\ grown h h'.
Proof.
  induction xs as [|x xs IH]; intros h Hc Hxs; simpl.
  - exists h. split; [reflexivity|now apply grown_refl].
  - inversion Hxs as [|? ? Hx Hrest]; subst.
    destruct (copy_expr_grown x h Hc Hx) as (e & h1 & E1 & G1 & _).
    destruct (append_grown e h1 (proj2 G1)) as (h2 & E2 & G2).
    destruct (IH h2 (proj2 G2)) as (h3 & E3 & G3).
    { eapply Forall_impl; [exact Hrest|].
      intros y. apply condition_below_le.
      destruct G1, G2. lia. }
    exists h3. split.
    + unfold bind at 1. unfold bind at 1. rewrite E1, E2. exact E3.
    + exact (grown_trans _ _ _ (grown_trans _ _ _ G1 G2) G3).
Qed.

(** A predecessor that is a jump or a branch: the redirection ends in the
    fatal error when it is a branch with neither arm at the index of [first],
    and normally otherwise. *)
Lemma redirect_pre_instr_outcome first rest label s p h :
  store_closed (exprs (il h)) ->
  condition_below (length (exprs (il h))) p ->
  isinstance_Goto p || isinstance_If p = true ->
  if misses (instr_index first) p then
    redirect_pre_instr (first :: rest) label s p h
    = (Raise (Exception "Invalid if condition"), h)
  else
    exists h',
      redirect_pre_instr (first :: rest) label s p h = (Ok tt, h')
      /\ grown h h'.
Proof.
  intros Hc Hp Hk. unfold misses, redirect_pre_instr.
  unfold isinstance_Goto, isinstance_If in Hk.
  destruct (node p) as [d|c t f| | | |] eqn:Hn; try discriminate.
  - unfold goto.
    destruct (add_expr_grown (MLIL_GOTO (operand label)) h Hc) as (h1 & E1 & G1 & L1 & _);
      [discriminate|].
    destruct (replace_expr_grown (expr_index p) _ h1 (proj2 G1) L1) as (h2 & E2 & G2).
    exists h2. split; [|exact (grown_trans _ _ _ G1 G2)].
    unfold bind. now rewrite E1.
  - assert (Hredirect : forall tl fl,
               exists h',
                 (let* condition := condition_of p in
                  let* cond := copy_expr condition in
                  let* new_if := if_expr cond tl fl in
                  replace_expr (expr_index p) new_if) h = (Ok tt, h')
                 /\ grown h h').
    { intros tl fl. specialize (Hp c t f Hn).
      destruct (lookup_lt_is_Some_2 _ _ Hp) as (n & Hcn).
      unfold condition_of. rewrite Hn.
      unfold bind at 1. unfold bind at 1. rewrite expr_at_eq, Hcn. simpl.
      destruct (copy_expr_grown
                  {| instr_index := instr_index p; expr_index := c; node := n |} h Hc)
        as (c' & h1 & E1 & G1 & L1).
      { intros c2 t2 f2 E. simpl in E. rewrite E in Hcn. now apply Hc in Hcn. }
      unfold bind at 1. rewrite E1. unfold if_expr.
      destruct (add_expr_grown (MLIL_IF c' (operand tl) (operand fl)) h1 (proj2 G1))
        as (h2 & E2 & G2 & L2 & _).
      { intros c2 t2 f2 E. injection E as <- _ _. lia. }
      unfold bind at 1. rewrite E2.
      destruct (replace_expr_grown (expr_index p) _ h2 (proj2 G2) L2) as (h3 & E3 & G3).
      exists h3. split; [exact E3|].
      exact (grown_trans _ _ _ (grown_trans _ _ _ G1 G2) G3). }
    destruct (t =? instr_index first); simpl; [apply Hredirect|].
    destruct (f =? instr_index first); simpl; [apply Hredirect|reflexivity].
Qed.

(** The loop over the predecessors ends in the fatal error exactly when one
    of them is a branch with neither arm at the index of [first]. *)
Lemma redirect_all_outcome first rest label s pre_instrs :
  forall h,
    store_closed (exprs (il h)) ->
    Forall (condition_below (length (exprs (il h)))) pre_instrs ->
    forallb (fun instr => isinstance_Goto instr || isinstance_If instr) pre_instrs
    = true ->
    fst (for_each (redirect_pre_instr (first :: rest) label s) pre_instrs h)
    = if existsb (misses (instr_index first)) pre_instrs
      then Raise (Exception "Invalid if condition")
      else Ok tt.
Proof.
  induction pre_instrs as [|p pre_instrs IH]; intros h Hc Hps Hk; simpl;
    [reflexivity|].
  inversion Hps as [|? ? Hp Hrest]; subst.
  simpl in Hk. apply andb_true_iff in Hk as [Hkp Hk].
  pose proof (redirect_pre_instr_outcome first rest label s p h Hc Hp Hkp) as Ho.
  destruct (misses (instr_index first) p); simpl.
  - unfold bind. now rewrite Ho.
  - destruct Ho as (h1 & E1 & G1). unfold bind. rewrite E1.
    apply IH; [exact (proj2 G1)| |exact Hk].
    eapply Forall_impl; [exact Hrest|].
    intros y. apply condition_below_le. destruct G1. lia.
Qed.

(** [merge_block] on predecessors that are all jumps or branches, over a
    closed store: the fatal error is raised exactly when some predecessor is
    a branch with neither arm at the index of the first instruction of
    [instrs]; otherwise the merge succeeds. *)
Lemma merge_block_fatal_iff first rest pre_instrs h :
  store_closed (exprs (il h)) ->
  Forall (condition_below (length (exprs (il h)))) (first :: rest) ->
  Forall (condition_below (length (exprs (il h)))) pre_instrs ->
  forallb (fun instr => isinstance_Goto instr || isinstance_If instr) pre_instrs
  = true ->
  fst (merge_block (first :: rest) pre_instrs h)
  = if existsb (misses (instr_index first)) pre_instrs
    then Raise (Exception "Invalid if condition")
    else Ok true.
Proof.
  intros Hc Hxs Hps Hk. unfold merge_block. rewrite Hk.
  change (negb true) with false.
  change (length (first :: rest) =? 0) with false. cbv iota.
  unfold bind at 1. unfold mark_label at 1, bind at 1, get_il, ret. cbv iota beta.
  destruct (copy_and_append_grown (first :: rest) h Hc Hxs) as (h1 & E1 & G1).
  unfold bind at 1. rewrite E1.
  pose proof (redirect_all_outcome first rest
                {| operand := length (instrs (il h)) |} (length (instrs (il h)))
                pre_instrs h1 (proj2 G1)) as Ho.
  assert (Hps1 : Forall (condition_below (length (exprs (il h1)))) pre_instrs).
  { eapply Forall_impl; [exact Hps|].
    intros y. apply condition_below_le. destruct G1. lia. }
  specialize (Ho Hps1 Hk). cbn [operand].
  unfold bind at 1.
  destruct (for_each _ pre_instrs h1) as [[[]|e] h2]; simpl in *;
    destruct (existsb _ pre_instrs); congruence.
Qed.

(** The first instruction of a block that has a body is at the block's
    entry. *)
Lemma bb_init_first block h first rest :
  bb_init block h = (Ok (first :: rest), h) -> instr_index first = start block.
Proof.
  unfold bb_init. destruct (end_ block - start block - 1) as [|n]; simpl.
  - discriminate.
  - unfold bind at 1. rewrite getitem_eq.
    destruct (lookup_instr (il h) (start block)) as [x|] eqn:Hx; [|discriminate].
    unfold bind.
    destruct (map_il getitem (seq (S (start block)) n) h) as [[ys|e] h1];
      [|discriminate].
    intros E. injection E as <- _ _.
    now apply lookup_instr_Some in Hx as (Hi & _).
Qed.

(** So for a block with a body the fatal error is raised exactly when some
    predecessor is a branch with neither arm at the entry of the block. *)
Lemma merge_block_fatal_with_body block h first body next_body pre_instrs :
  bb_init block h = (Ok (first :: body), h) ->
  store_closed (exprs (il h)) ->
  Forall (condition_below (length (exprs (il h)))) ((first :: body) ++ next_body) ->
  Forall (condition_below (length (exprs (il h)))) pre_instrs ->
  forallb (fun instr => isinstance_Goto instr || isinstance_If instr) pre_instrs
  = true ->
  fst (merge_block ((first :: body) ++ next_body) pre_instrs h)
  = if existsb (misses (start block)) pre_instrs
    then Raise (Exception "Invalid if condition")
    else Ok true.
Proof.
  intros Hb Hc Hxs Hps Hk. rewrite <- (bb_init_first block h first body Hb).
  now apply (merge_block_fatal_iff first (body ++ next_body) pre_instrs h).
Qed.

(** ** The fatal error of the redirection (C2) *)

(** A branch at 0 into the block at 1, which is the single jump [goto 3];
    the block at 3 is a return with that one predecessor. *)
Definition single_jump_il : MediumLevelILFunction :=
  finalize_blocks
    {| exprs := [MLIL_IF 4 1 2; MLIL_GOTO 3; MLIL_RET []; MLIL_RET [];
                 MLIL_VALUE (MLIL_VAR 0)];
       instrs := [0; 1; 2; 3];
       basic_blocks := [] |}.

(** The same with an assignment in front of the jump. *)
Definition assign_jump_il : MediumLevelILFunction :=
  finalize_blocks
    {| exprs := [MLIL_IF 5 1 3; MLIL_SET_VAR 0 (MLIL_CONST 1); MLIL_GOTO 4;
                 MLIL_RET []; MLIL_RET []; MLIL_VALUE (MLIL_VAR 0)];
       instrs := [0; 1; 2; 3; 4];
       basic_blocks := [] |}.

Definition fresh_heap (m : MediumLevelILFunction) : Heap :=
  {| il := m; log := []; scans := 0 |}.

Definition fresh_world (m : MediumLevelILFunction) : World :=
  {| analysis_context :=
       {| mlil := Some m; function := {| function_mlil := None |} |};
     messages := [];
     scan_count := 0 |}.

(** C2, where the code departs from it: [merge_block] compares the arms of a
    branch with the index of the first instruction of [instrs]
    ([merge_block_fatal_iff]), which is the entry of the merged block when
    the block has a body ([merge_block_fatal_with_body]).  For a block that
    is a single jump the body is empty, [instrs] starts with the first
    instruction of the next block, and a branch whose true arm is the entry
    of the merged block ends the merge in [Exception("Invalid if
    condition")].  With an instruction in front of the jump the same branch
    is redirected and the merge succeeds. *)
Theorem C2_single_jump_block_fatal :
  let B := {| start := 1; end_ := 2 |} in
  let P := {| start := 0; end_ := 1 |} in
  incoming_blocks single_jump_il (start B) = [P]
  /\ bb_last P (fresh_heap single_jump_il)
     = (Ok {| instr_index := 0; expr_index := 0; node := MLIL_IF 4 (start B) 2 |},
        fresh_heap single_jump_il)
  /\ fst (merge_candidate incoming_blocks B (fresh_heap single_jump_il))
     = Raise (Exception "Invalid if condition")
  /\ fst (pass_merge_block finalize_blocks regenerate_metadata incoming_blocks
            (fresh_world single_jump_il))
     = Raise (Exception "Invalid if condition")
  /\ fst (merge_candidate incoming_blocks {| start := 1; end_ := 3 |}
            (fresh_heap assign_jump_il))
     = Ok true.
Proof.
  intros B P. repeat split.
Qed.

(** ** Scans that find nothing *)

(** A block step that reports no rewrite has made none. *)
Lemma clear_const_if_block_false bb h h' :
  clear_const_if_block bb h = (Ok false, h') -> il h' = il h.
Proof.
  unfold clear_const_if_block. intros H.
  read_step H read_only_bb_last.
  destruct (node a); try (now injection H as <-).
  read_step H read_only_condition_of.
  destruct (node a0) as [| | | |[k| | | | | |]|]; try (now injection H as <-).
  destruct (k =? 1)%Z; [rewrite fold_const_if_eq in H; discriminate|].
  destruct (k =? 0)%Z; [rewrite fold_const_if_eq in H; discriminate|].
  now injection H as <-.
Qed.

Lemma optimize_goto_il depth :
  forall g h, il (snd (optimize_goto depth g h)) = il h.
Proof.
  induction depth as [|depth IH]; intros g h; simpl; [reflexivity|].
  destruct (node g); try reflexivity.
  unfold bind at 1. rewrite getitem_eq.
  destruct (lookup_instr (il h) dest) as [x|]; [|reflexivity].
  destruct (negb (isinstance_Goto x)); [reflexivity|].
  unfold bind at 1. specialize (IH x h).
  destruct (optimize_goto depth x h) as [[y|e] h1]; simpl in *; assumption.
Qed.

Lemma clear_goto_block_false limit bb h h' :
  clear_goto_block limit bb h = (Ok false, h') -> il h' = il h.
Proof.
  unfold clear_goto_block. intros H.
  read_step H read_only_bb_last.
  destruct (node a); try (now injection H as <-).
  unfold bind at 1 in H. pose proof (optimize_goto_il limit a h) as Hil.
  destruct (optimize_goto limit a h) as [[y|e] h1]; [|discriminate].
  simpl in Hil. destruct (instr_index y =? dest).
  - now injection H as <-.
  - unfold goto in H. simpl in H. rewrite build_replace_report in H. discriminate.
Qed.

Lemma clear_if_block_false limit bb h h' :
  clear_if_block limit bb h = (Ok false, h') -> il h' = il h.
Proof.
  unfold clear_if_block. intros H.
  read_step H read_only_bb_last.
  destruct (node a); try (now injection H as <-).
  read_step H read_only_getitem.
  read_step H read_only_get_final_target.
  read_step H read_only_getitem.
  read_step H read_only_get_final_target.
  destruct (negb _ || negb _); [|now injection H as <-].
  read_step H read_only_condition_of.
  unfold bind at 1 in H.
  destruct (copy_expr a4 h) as [[c0|e] h1]; [|discriminate].
  unfold if_expr in H. simpl in H. rewrite build_replace_report in H.
  discriminate.
Qed.

Lemma scan_blocks_false body bbs :
  (forall bb h h', body bb h = (Ok false, h') -> il h' = il h) ->
  forall updated h h',
    scan_blocks body bbs updated h = (Ok false, h') ->
    updated = false /\ il h' = il h.
Proof.
  intros Hbody. induction bbs as [|bb bbs IH]; intros updated h h' H; simpl in H.
  - injection H as -> <-. auto.
  - unfold bind in H. destruct (body bb h) as [[u|e] h1] eqn:E; [|discriminate].
    apply IH in H as [Hu Hil]. apply orb_false_iff in Hu as [-> ->].
    apply Hbody in E. split; [reflexivity|congruence].
Qed.

(** A full scan of [m] applies no rewrite, whatever the log holds. *)
Definition quiescent (scan : IL bool) (m : MediumLevelILFunction) : Prop :=
  forall lg n, exists h', scan {| il := m; log := lg; scans := n |} = (Ok false, h').

Section FixedPoint.

Variable incoming : MediumLevelILFunction -> nat -> list MediumLevelILBasicBlock.
Variable recursion_limit : nat.

Lemma clear_const_if_scan_false h1 h2 :
  clear_const_if_scan h1 = (Ok false, h2) -> il h2 = il h1.
Proof.
  unfold clear_const_if_scan, bind, get_il. intros H.
  now apply (scan_blocks_false _ _ clear_const_if_block_false) in H.
Qed.

Lemma clear_goto_scan_false h1 h2 :
  clear_goto_scan recursion_limit h1 = (Ok false, h2) -> il h2 = il h1.
Proof.
  unfold clear_goto_scan, bind, get_il. intros H.
  now apply (scan_blocks_false _ _ (clear_goto_block_false recursion_limit)) in H.
Qed.

Lemma clear_if_scan_false h1 h2 :
  clear_if_scan recursion_limit h1 = (Ok false, h2) -> il h2 = il h1.
Proof.
  unfold clear_if_scan, bind, get_il. intros H.
  now apply (scan_blocks_false _ _ (clear_if_block_false recursion_limit)) in H.
Qed.

Lemma merge_scan_false h1 h2 :
  merge_scan incoming h1 = (Ok false, h2) -> il h2 = il h1.
Proof.
  unfold merge_scan, bind, get_il. intros H.
  apply merge_scan_blocks_inv in H as [[_ H]|[H _]]; [assumption|discriminate].
Qed.

End FixedPoint.

(** The entry block is the single jump [goto 1]; the block at 1 is a return
    with that one predecessor. *)
Definition entry_jump_il : MediumLevelILFunction :=
  finalize_blocks
    {| exprs := [MLIL_GOTO 1; MLIL_RET []];
       instrs := [0; 1];
       basic_blocks := [] |}.

(** Three blocks in a row: [goto 1], [goto 2], and a return. *)
Definition jump_chain_il : MediumLevelILFunction :=
  finalize_blocks
    {| exprs := [MLIL_GOTO 1; MLIL_GOTO 2; MLIL_RET []];
       instrs := [0; 1; 2];
       basic_blocks := [] |}.

(** The number of instructions of the context's function. *)
Definition instr_count (w : World) : nat :=
  match mlil (analysis_context w) with
  | Some m => length (instrs m)
  | None => 0
  end.

(** On [entry_jump_il] the cycle does not come to rest: the entry block has
    no predecessor to redirect, so every scan of [pass_merge_block] merges it
    again and appends another copy.  The first run ends with 6 instructions,
    the second run on its result with 18. *)
Lemma C9_second_run_appends :
  let cycle := pass_clear finalize_blocks regenerate_metadata incoming_blocks 1000 in
  let r1 := cycle (fresh_world entry_jump_il) in
  let r2 := cycle (snd r1) in
  fst r1 = Ok tt
  /\ fst r2 = Ok tt
  /\ instr_count (snd r1) = 6
  /\ instr_count (snd r2) = 18
  /\ mlil (analysis_context (snd r2)) <> mlil (analysis_context (snd r1)).
Proof.
  vm_compute. repeat split. discriminate.
Qed.

(** ** The theorems at work on small functions *)

(** A block that ends in [if (1) then 1 else 2]. *)
Definition const_branch_il : MediumLevelILFunction :=
  finalize_blocks
    {| exprs := [MLIL_IF 3 1 2; MLIL_RET []; MLIL_RET [];
                 MLIL_VALUE (MLIL_CONST 1)];
       instrs := [0; 1; 2];
       basic_blocks := [] |}.

(** The block at 1 has two predecessors: the block at 0, which ends in a
    [MLIL_NOP] and falls through, and the jump at 3. *)
Definition fall_through_il : MediumLevelILFunction :=
  finalize_blocks
    {| exprs := [MLIL_NOP; MLIL_SET_VAR 0 (MLIL_CONST 1); MLIL_GOTO 4;
                 MLIL_GOTO 1; MLIL_RET []];
       instrs := [0; 1; 2; 3; 4];
       basic_blocks := [] |}.

Lemma C1_witness :
  let x := {| instr_index := 1; expr_index := 1; node := MLIL_GOTO 0 |} in
  let y := {| instr_index := 1; expr_index := 1; node := MLIL_GOTO 2 |} in
  (lookup_instr cyclic_il 1 = Some x
   /\ on_cycle cyclic_il 1
   /\ get_final_target 1000 x cyclic_heap = (Raise RecursionError, cyclic_heap))
  /\ (lookup_instr jump_chain_il 1 = Some y
      /\ resolves_to jump_chain_il 1 1 2
      /\ exists xs,
           lookup_instr jump_chain_il 2 = Some xs
           /\ get_final_target 1000 y (fresh_heap jump_chain_il)
              = (Ok xs, fresh_heap jump_chain_il)).
Proof.
  intros x y. split.
  - split; [reflexivity|]. split; [exact cyclic_il_on_cycle|].
    exact (proj1 (proj2 (C1_chain_resolution 1000 cyclic_heap 1 x eq_refl)
                    cyclic_il_on_cycle)).
  - assert (Hr : resolves_to jump_chain_il 1 1 2).
    { split; [reflexivity|].
      exists {| instr_index := 2; expr_index := 2; node := MLIL_RET [] |}.
      split; reflexivity. }
    split; [reflexivity|]. split; [exact Hr|].
    destruct (proj1 (C1_chain_resolution 1000 (fresh_heap jump_chain_il) 1 y eq_refl)
                1 2 Hr ltac:(lia)) as (xs & Hxs & Hf & _).
    exists xs. split; assumption.
Defined.

Lemma C3_witness :
  let h := fresh_heap fall_through_il in
  let B := {| start := 1; end_ := 3 |} in
  let C := {| start := 4; end_ := 5 |} in
  let rest := [{| start := 3; end_ := 4 |}; C] in
  let pre_instrs :=
    [{| instr_index := 0; expr_index := 0; node := MLIL_NOP |};
     {| instr_index := 3; expr_index := 3; node := MLIL_GOTO 1 |}] in
  let instrs :=
    [{| instr_index := 1; expr_index := 1; node := MLIL_SET_VAR 0 (MLIL_CONST 1) |};
     {| instr_index := 4; expr_index := 4; node := MLIL_RET [] |}] in
  is_merge_candidate incoming_blocks h B C instrs pre_instrs
  /\ has_foreign_terminator pre_instrs
  /\ merge_block instrs pre_instrs h
     = (Ok false, with_log h [log_error_eeeee pre_instrs])
  /\ merge_scan_blocks incoming_blocks (B :: rest) h
     = merge_scan_blocks incoming_blocks rest
         (with_log h [log_error_eeeee pre_instrs]).
Proof.
  intros h B C rest pre_instrs instrs.
  assert (Hc : is_merge_candidate incoming_blocks h B C instrs pre_instrs).
  { exists {| instr_index := 2; expr_index := 2; node := MLIL_GOTO 4 |}, 4,
           {| instr_index := 4; expr_index := 4; node := MLIL_RET [] |},
           [{| instr_index := 1; expr_index := 1;
               node := MLIL_SET_VAR 0 (MLIL_CONST 1) |}],
           [{| instr_index := 4; expr_index := 4; node := MLIL_RET [] |}].
    repeat split. }
  assert (Hf : has_foreign_terminator pre_instrs).
  { exists {| instr_index := 0; expr_index := 0; node := MLIL_NOP |}.
    split; [left; reflexivity|]. split; reflexivity. }
  pose proof (C3_foreign_predecessor_abandons_merge incoming_blocks h B C instrs
                pre_instrs rest Hc Hf) as (Hm & _ & _ & Hs).
  split; [exact Hc|]. split; [exact Hf|]. split; [exact Hm|exact Hs].
Defined.


(** * Further properties of the passes *)

(** ** Whatever the chain-following procedures return is a sink *)

(** [optimize_goto] returning normally: its argument is a jump, what it
    returns is the sink of the chain from the jump's target, reached in
    fewer jumps than the depth allowed; the function is untouched and one
    line is logged for every jump followed. *)
Lemma optimize_goto_sound depth :
  forall g h xs h',
    optimize_goto depth g h = (Ok xs, h') ->
    exists d k lg,
      node g = MLIL_GOTO d
      /\ resolves_to (il h) d k (instr_index xs)
      /\ lookup_instr (il h) (instr_index xs) = Some xs
      /\ k < depth
      /\ h' = with_log h lg
      /\ length lg = k.
Proof.
  induction depth as [|depth IH]; intros g h xs h' H; simpl in H; [discriminate|].
  destruct (node g) as [d| | | | |] eqn:Hg; try discriminate.
  unfold bind at 1 in H. rewrite getitem_eq in H.
  destruct (lookup_instr (il h) d) as [x|] eqn:Hx; [|discriminate].
  pose proof (lookup_instr_Some _ _ _ Hx) as (Hi & _ & _).
  destruct (isinstance_Goto x) eqn:Hk; simpl in H.
  - unfold bind at 1 in H.
    destruct (optimize_goto depth x h) as [[y|e] h1] eqn:E; [|discriminate].
    destruct (IH _ _ _ _ E) as (d' & k & lg & Hn & [Hf Hs] & Hy & Hlt & -> & Hlen).
    unfold bind, write_log, ret in H. simpl in H. injection H as <- <-.
    exists d, (S k), (lg ++ [log_info_optimized_goto (instr_index g) (instr_index y)]).
    repeat split; auto.
    + simpl. now rewrite Hx, Hn.
    + lia.
    + now rewrite <- with_log_app.
    + rewrite length_app. simpl. lia.
  - injection H as <- <-. exists d, 0, []. rewrite Hi.
    repeat split; auto.
    + exists x. split; assumption.
    + lia.
    + now rewrite with_log_nil.
Qed.

(** [get_final_target] returning normally on the instruction at [d]. *)
Lemma get_final_target_sound depth :
  forall x d h xs h',
    lookup_instr (il h) d = Some x ->
    get_final_target depth x h = (Ok xs, h') ->
    exists k,
      resolves_to (il h) d k (instr_index xs)
      /\ lookup_instr (il h) (instr_index xs) = Some xs
      /\ k < depth
      /\ h' = h.
Proof.
  induction depth as [|depth IH]; intros x d h xs h' Hx H; simpl in H;
    [discriminate|].
  pose proof (lookup_instr_Some _ _ _ Hx) as (Hi & _ & _).
  destruct (node x) as [d'| | | | |] eqn:Hn;
    try (injection H as <- <-; exists 0; rewrite Hi;
         repeat split; auto; [exists x; split; [assumption|];
                              unfold isinstance_Goto; now rewrite Hn | lia]).
  unfold bind at 1 in H. rewrite getitem_eq in H.
  destruct (lookup_instr (il h) d') as [x'|] eqn:Hx'; [|discriminate].
  destruct (IH _ _ _ _ _ Hx' H) as (k & [Hf Hs] & Hy & Hlt & ->).
  exists (S k). repeat split; auto.
  - simpl. now rewrite Hx, Hn.
  - lia.
Qed.

(** X1: whenever [optimize_goto] or [get_final_target] returns, the
    instruction returned is an instruction of the function that is not a
    jump, reached from the start of the chain by following jumps only, in
    fewer jumps than the recursion depth allowed; the function is left as it
    was, [get_final_target] leaves the whole heap as it was, and
    [optimize_goto] logs one line for every jump it followed. *)
Theorem X1_chain_result_is_sink depth h :
  (forall g xs h',
     optimize_goto depth g h = (Ok xs, h') ->
     exists d k lg,
       node g = MLIL_GOTO d
       /\ resolves_to (il h) d k (instr_index xs)
       /\ lookup_instr (il h) (instr_index xs) = Some xs
       /\ k < depth
       /\ h' = with_log h lg
       /\ length lg = k)
  /\ (forall x d xs h',
        lookup_instr (il h) d = Some x ->
        get_final_target depth x h = (Ok xs, h') ->
        exists k,
          resolves_to (il h) d k (instr_index xs)
          /\ lookup_instr (il h) (instr_index xs) = Some xs
          /\ k < depth
          /\ h' = h).
Proof.
  split.
  - intros g xs h' H. exact (optimize_goto_sound depth g h xs h' H).
  - intros x d xs h' Hx H. exact (get_final_target_sound depth x d h xs h' Hx H).
Qed.

(** ** The state of the blocks after a scan *)

(** [read_step] with names for the value read and for its equation. *)
Ltac read_step_as H lem a E :=
  apply bind_read_only_inv in H; [|apply lem];
  let e := fresh "e" in
  let Hr := fresh "Hr" in
  destruct H as [(a & E & H)|(e & Hr & _)]; [|discriminate Hr].

(** The last instruction of a block, if the block has one. *)
Definition terminator (m : MediumLevelILFunction) (bb : MediumLevelILBasicBlock)
    : option MediumLevelILInstruction :=
  if start bb <? end_ bb then lookup_instr m (end_ bb - 1) else None.

Lemma bb_last_terminator bb h :
  bb_last bb h
  = (match terminator (il h) bb with
     | Some x => Ok x
     | None => Raise IndexError
     end, h).
Proof.
  unfold bb_last, terminator. destruct (start bb <? end_ bb); [|reflexivity].
  apply getitem_eq.
Qed.

(** [m'] is [m] with the node at [e] overwritten by [n], after some nodes
    were added at the end of the store; instructions and blocks are the
    same. *)
Definition overwrites (m m' : MediumLevelILFunction) (e : nat) (n : Node)
    (extra : list Node) : Prop :=
  exprs m' = <[e := n]> (exprs m ++ extra)
  /\ instrs m' = instrs m
  /\ basic_blocks m' = basic_blocks m
  /\ e < length (exprs m).

(** An instruction of [m] is an instruction of [m'], with the new node when
    its expression is the one at [e]. *)
Lemma lookup_instr_overwrites m m' e n extra j x :
  overwrites m m' e n extra ->
  lookup_instr m j = Some x ->
  lookup_instr m' j
  = Some {| instr_index := instr_index x; expr_index := expr_index x;
            node := if decide (expr_index x = e) then n else node x |}.
Proof.
  intros (Hex & Hin & _ & He) Hx.
  apply lookup_instr_Some in Hx as (Hi & Hj & Hn).
  unfold lookup_instr. rewrite Hin, Hj, Hex.
  pose proof (lookup_lt_Some _ _ _ Hn) as Hlt.
  destruct (decide (expr_index x = e)) as [->|Hne].
  - rewrite list_lookup_insert_eq by (rewrite length_app; lia). now rewrite Hi.
  - rewrite list_lookup_insert_ne by auto.
    rewrite lookup_app_l by assumption. now rewrite Hn, Hi.
Qed.

Lemma terminator_overwrites m m' e n extra bb x :
  overwrites m m' e n extra ->
  terminator m bb = Some x ->
  terminator m' bb
  = Some {| instr_index := instr_index x; expr_index := expr_index x;
            node := if decide (expr_index x = e) then n else node x |}.
Proof.
  unfold terminator. intros Ho. destruct (start bb <? end_ bb); [|discriminate].
  now apply (lookup_instr_overwrites m m' e n extra).
Qed.

Definition is_goto_node (n : Node) : bool :=
  match n with MLIL_GOTO _ => true | _ => false end.

(** Overwriting a node with one of the same kind (a jump with a jump, another
    node with one that is no jump) keeps the sinks. *)
Lemma is_sink_overwrites m m' e old n extra s :
  overwrites m m' e n extra ->
  exprs m !! e = Some old ->
  is_goto_node old = is_goto_node n ->
  is_sink m s -> is_sink m' s.
Proof.
  intros Ho Hold Hkind (x & Hx & Hng).
  pose proof (lookup_instr_Some _ _ _ Hx) as (_ & _ & Hn).
  eexists. split; [exact (lookup_instr_overwrites _ _ _ _ _ _ _ Ho Hx)|].
  unfold isinstance_Goto in *. simpl.
  destruct (decide (expr_index x = e)) as [He|_]; [|assumption].
  rewrite He, Hold in Hn. injection Hn as Hn. rewrite <- Hn in Hng.
  unfold is_goto_node in Hkind. destruct old, n; congruence.
Qed.

(** A property of blocks that every step of a scan keeps for all blocks and
    brings about for its own block holds of all blocks after the scan. *)
Lemma scan_blocks_establishes
    (Post : MediumLevelILFunction -> MediumLevelILBasicBlock -> Prop)
    (body : MediumLevelILBasicBlock -> IL bool) :
  (forall bb h u h1,
     body bb h = (Ok u, h1) ->
     Post (il h1) bb /\ forall bb0, Post (il h) bb0 -> Post (il h1) bb0) ->
  forall bbs updated h v h',
    scan_blocks body bbs updated h = (Ok v, h') ->
    (forall bb0, Post (il h) bb0 -> Post (il h') bb0)
    /\ forall bb, In bb bbs -> Post (il h') bb.
Proof.
  intros Hbody. induction bbs as [|bb bbs IH]; intros updated h v h' H; simpl in H.
  - injection H as _ <-. split; [auto|]. intros bb [].
  - unfold bind in H. destruct (body bb h) as [[u|e] h1] eqn:E; [|discriminate].
    destruct (Hbody _ _ _ _ E) as [Hown Hkeep].
    destruct (IH _ _ _ _ H) as [Hkeep' Hrest].
    split; [auto|].
    intros bb0 [<-|Hin]; auto.
Qed.

(** *** After a scan of [pass_clear_const_if] *)

(** The block has a last instruction, and if that is a branch, its condition
    is a node of the store other than the literals 1 and 0. *)
Definition no_constant_branch (m : MediumLevelILFunction)
    (bb : MediumLevelILBasicBlock) : Prop :=
  exists x,
    terminator m bb = Some x
    /\ forall c t f,
         node x = MLIL_IF c t f ->
         exists cn,
           exprs m !! c = Some cn
           /\ cn <> MLIL_VALUE (MLIL_CONST 1)
           /\ cn <> MLIL_VALUE (MLIL_CONST 0).

Lemma no_constant_branch_overwrites m m' e target extra bb :
  overwrites m m' e (MLIL_GOTO target) extra ->
  no_constant_branch m bb -> no_constant_branch m' bb.
Proof.
  intros Ho (x & Hx & Hc).
  eexists. split; [exact (terminator_overwrites _ _ _ _ _ _ _ Ho Hx)|].
  simpl. intros c t f Hn.
  destruct (decide (expr_index x = e)) as [_|Hne]; [discriminate|].
  destruct (Hc c t f Hn) as (cn & Hcn & H1 & H0).
  destruct Ho as (Hex & _ & _ & He). rewrite Hex.
  pose proof (lookup_lt_Some _ _ _ Hcn) as Hlt.
  destruct (decide (c = e)) as [->|Hce].
  - rewrite list_lookup_insert_eq by (rewrite length_app; lia).
    eexists. split; [reflexivity|]. split; discriminate.
  - rewrite list_lookup_insert_ne by auto.
    rewrite lookup_app_l by assumption. eauto.
Qed.

Lemma overwrites_with_exprs h e n extra :
  e < length (exprs (il h)) ->
  overwrites (il h) (il (with_exprs h (<[e := n]> (exprs (il h) ++ extra)))) e n extra.
Proof. intros He. repeat split. exact He. Qed.

Lemma terminator_expr_lt m bb x :
  terminator m bb = Some x -> expr_index x < length (exprs m).
Proof.
  unfold terminator. destruct (start bb <? end_ bb); [|discriminate].
  intros H. apply lookup_instr_Some in H as (_ & _ & Hn).
  now apply lookup_lt_Some in Hn.
Qed.

Lemma bb_last_inv bb h r h1 :
  bb_last bb h = (r, h1) ->
  h1 = h
  /\ (r = Raise IndexError /\ terminator (il h) bb = None
      \/ exists x, r = Ok x /\ terminator (il h) bb = Some x).
Proof.
  rewrite bb_last_terminator.
  destruct (terminator (il h) bb) as [x|]; intros E; injection E as <- <-;
    split; eauto.
Qed.

(** What one step of the scan of [pass_clear_const_if] does. *)
Lemma clear_const_if_block_step bb h u h1 :
  clear_const_if_block bb h = (Ok u, h1) ->
  no_constant_branch (il h1) bb
  /\ forall bb0, no_constant_branch (il h) bb0 -> no_constant_branch (il h1) bb0.
Proof.
  unfold clear_const_if_block. intros H.
  read_step_as H read_only_bb_last a Ha.
  apply bb_last_inv in Ha as (_ & [[? _]|(x & Hx & Hterm)]); [discriminate|].
  injection Hx as <-.
  destruct (node a) as [d|c t f|s|d s|v|] eqn:Hn;
    try (injection H as _ <-; split; [|auto];
         exists a; split; [assumption|]; intros ? ? ? E0; rewrite Hn in E0;
         discriminate).
  read_step_as H read_only_condition_of cond Hcond.
  unfold condition_of in Hcond. rewrite Hn in Hcond. unfold bind in Hcond.
  rewrite expr_at_eq in Hcond.
  destruct (exprs (il h) !! c) as [cn|] eqn:Hc; [|discriminate].
  injection Hcond as <-. simpl in H.
  assert (Hfold : forall target,
             fold_const_if a target h = (Ok u, h1) ->
             no_constant_branch (il h1) bb
             /\ forall bb0, no_constant_branch (il h) bb0 ->
                            no_constant_branch (il h1) bb0).
  { intros target Hf. rewrite fold_const_if_eq in Hf. injection Hf as _ <-.
    pose proof (overwrites_with_exprs h (expr_index a) (MLIL_GOTO target)
                  [MLIL_GOTO target] (terminator_expr_lt _ _ _ Hterm)) as Ho.
    split.
    - eexists. split; [exact (terminator_overwrites _ _ _ _ _ _ _ Ho Hterm)|].
      simpl. destruct (decide (expr_index a = expr_index a)); [|congruence].
      discriminate.
    - intros bb0. exact (no_constant_branch_overwrites _ _ _ _ _ bb0 Ho). }
  assert (Hkeep : cn <> MLIL_VALUE (MLIL_CONST 1) ->
                  cn <> MLIL_VALUE (MLIL_CONST 0) ->
                  (Ok false, h) = (Ok u, h1) ->
                  no_constant_branch (il h1) bb
                  /\ forall bb0, no_constant_branch (il h) bb0 ->
                                 no_constant_branch (il h1) bb0).
  { intros N1 N0 E. injection E as _ <-. split; [|auto].
    exists a. split; [assumption|]. intros c0 t0 f0 E0. rewrite Hn in E0.
    injection E0 as <- _ _. exists cn. auto. }
  destruct cn as [| | | |[k| | | | | |]|];
    try (apply Hkeep; [discriminate|discriminate|exact H]).
  destruct (k =? 1)%Z eqn:K1; [now apply (Hfold t)|].
  destruct (k =? 0)%Z eqn:K0; [now apply (Hfold f)|].
  apply Z.eqb_neq in K1, K0. apply Hkeep; [congruence|congruence|exact H].
Qed.

(** X2: after a scan of [pass_clear_const_if] that ended normally, every
    block of the function has a last instruction, and no block ends in a
    branch whose condition is the literal 1 or the literal 0 (the condition
    of every such branch is a node of the store). *)
Theorem X2_no_constant_branch_after_scan h u h' :
  clear_const_if_scan h = (Ok u, h') ->
  forall bb, In bb (basic_blocks (il h)) -> no_constant_branch (il h') bb.
Proof.
  unfold clear_const_if_scan. unfold bind at 1, get_il. intros H.
  now apply (scan_blocks_establishes no_constant_branch clear_const_if_block
               clear_const_if_block_step) in H as [_ H].
Qed.

(** *** After a scan of [pass_clear_goto] *)

(** The block has a last instruction, and if that is a jump, its target is
    not a jump. *)
Definition jumps_to_sink (m : MediumLevelILFunction)
    (bb : MediumLevelILBasicBlock) : Prop :=
  exists x,
    terminator m bb = Some x
    /\ forall d, node x = MLIL_GOTO d -> is_sink m d.

Lemma jumps_to_sink_overwrites m m' e d0 s extra bb :
  overwrites m m' e (MLIL_GOTO s) extra ->
  exprs m !! e = Some (MLIL_GOTO d0) ->
  is_sink m s ->
  jumps_to_sink m bb -> jumps_to_sink m' bb.
Proof.
  intros Ho Hold Hs (x & Hx & Hd).
  assert (Hkeep : forall s0, is_sink m s0 -> is_sink m' s0).
  { intros s0. now apply (is_sink_overwrites m m' e (MLIL_GOTO d0) (MLIL_GOTO s) extra). }
  eexists. split; [exact (terminator_overwrites _ _ _ _ _ _ _ Ho Hx)|].
  simpl. intros d Hn.
  destruct (decide (expr_index x = e)) as [_|_].
  - injection Hn as <-. auto.
  - auto.
Qed.

(** What one step of the scan of [pass_clear_goto] does. *)
Lemma clear_goto_block_step limit bb h u h1 :
  clear_goto_block limit bb h = (Ok u, h1) ->
  jumps_to_sink (il h1) bb
  /\ forall bb0, jumps_to_sink (il h) bb0 -> jumps_to_sink (il h1) bb0.
Proof.
  unfold clear_goto_block. intros H.
  read_step_as H read_only_bb_last a Ha.
  apply bb_last_inv in Ha as (_ & [[? _]|(x & Hx & Hterm)]); [discriminate|].
  injection Hx as <-.
  destruct (node a) as [d|c t f|s|d s|v|] eqn:Hn;
    try (injection H as _ <-; split; [|auto];
         exists a; split; [assumption|]; intros ? E0; rewrite Hn in E0;
         discriminate).
  unfold bind at 1 in H.
  destruct (optimize_goto limit a h) as [[y|e] h2] eqn:Eo; [|discriminate].
  destruct (optimize_goto_sound _ _ _ _ _ Eo)
    as (d' & k & lg & Hn' & [Hf Hs] & Hy & _ & -> & _).
  rewrite Hn in Hn'. injection Hn' as <-.
  destruct (instr_index y =? d) eqn:Hyd.
  - injection H as _ <-. simpl. split; [|auto].
    exists a. split; [assumption|]. intros d0 E0. rewrite Hn in E0.
    injection E0 as <-. apply Nat.eqb_eq in Hyd. now rewrite <- Hyd.
  - unfold goto in H. simpl in H. rewrite build_replace_report in H.
    injection H as _ <-. simpl.
    pose proof (overwrites_with_exprs h (expr_index a) (MLIL_GOTO (instr_index y))
                  [MLIL_GOTO (instr_index y)] (terminator_expr_lt _ _ _ Hterm)) as Ho.
    simpl in Ho.
    assert (Hold : exprs (il h) !! expr_index a = Some (MLIL_GOTO d)).
    { unfold terminator in Hterm. destruct (start bb <? end_ bb); [|discriminate].
      apply lookup_instr_Some in Hterm as (_ & _ & Hnode). now rewrite Hnode, Hn. }
    split.
    + eexists. split; [exact (terminator_overwrites _ _ _ _ _ _ _ Ho Hterm)|].
      simpl. destruct (decide (expr_index a = expr_index a)); [|congruence].
      intros d0 E0. injection E0 as <-.
      now apply (is_sink_overwrites _ _ _ _ _ _ _ Ho Hold).
    + intros bb0. now apply (jumps_to_sink_overwrites _ _ _ _ _ _ bb0 Ho Hold).
Qed.

(** X3: after a scan of [pass_clear_goto] that ended normally, every block of
    the function has a last instruction, and every block that ends in a jump
    jumps to an instruction that is not a jump: one scan leaves no chain of
    jumps at the end of a block. *)
Theorem X3_no_jump_chain_after_scan limit h u h' :
  clear_goto_scan limit h = (Ok u, h') ->
  forall bb, In bb (basic_blocks (il h)) -> jumps_to_sink (il h') bb.
Proof.
  unfold clear_goto_scan. unfold bind at 1, get_il. intros H.
  now apply (scan_blocks_establishes jumps_to_sink (clear_goto_block limit)
               (clear_goto_block_step limit)) in H as [_ H].
Qed.

(** *** After a scan of [pass_clear_if] *)

(** The block has a last instruction, and if that is a branch, neither arm
    is a jump. *)
Definition branches_to_sinks (m : MediumLevelILFunction)
    (bb : MediumLevelILBasicBlock) : Prop :=
  exists x,
    terminator m bb = Some x
    /\ forall c t f, node x = MLIL_IF c t f -> is_sink m t /\ is_sink m f.

Lemma branches_to_sinks_overwrites m m' e c0 t0 f0 c' st sf extra bb :
  overwrites m m' e (MLIL_IF c' st sf) extra ->
  exprs m !! e = Some (MLIL_IF c0 t0 f0) ->
  is_sink m st -> is_sink m sf ->
  branches_to_sinks m bb -> branches_to_sinks m' bb.
Proof.
  intros Ho Hold Hst Hsf (x & Hx & Hd).
  assert (Hkeep : forall s0, is_sink m s0 -> is_sink m' s0).
  { intros s0.
    now apply (is_sink_overwrites m m' e (MLIL_IF c0 t0 f0) (MLIL_IF c' st sf) extra). }
  eexists. split; [exact (terminator_overwrites _ _ _ _ _ _ _ Ho Hx)|].
  simpl. intros c t f Hn.
  destruct (decide (expr_index x = e)) as [_|_].
  - injection Hn as _ <- <-. auto.
  - destruct (Hd _ _ _ Hn). auto.
Qed.

(** [copy_expr] only adds nodes at the end of the store. *)
Lemma copy_expr_shape x h c' h1 :
  copy_expr x h = (Ok c', h1) ->
  exists extra, h1 = with_exprs h (exprs (il h) ++ extra).
Proof.
  unfold copy_expr.
  destruct (node x) as [d|c t f|s|d s|v|];
    try (rewrite add_expr_eq; intros E; injection E as _ <-; eauto).
  unfold bind at 1. rewrite expr_at_eq.
  destruct (exprs (il h) !! c) as [n|]; [|discriminate].
  unfold bind at 1. rewrite add_expr_eq. rewrite add_expr_eq. simpl.
  intros E. injection E as _ <-. exists [n; MLIL_IF (length (exprs (il h))) t f].
  unfold with_exprs. simpl. now rewrite <- app_assoc.
Qed.

(** What one step of the scan of [pass_clear_if] does. *)
Lemma clear_if_block_step limit bb h u h1 :
  clear_if_block limit bb h = (Ok u, h1) ->
  branches_to_sinks (il h1) bb
  /\ forall bb0, branches_to_sinks (il h) bb0 -> branches_to_sinks (il h1) bb0.
Proof.
  unfold clear_if_block. intros H.
  read_step_as H read_only_bb_last a Ha.
  apply bb_last_inv in Ha as (_ & [[? _]|(x & Hx & Hterm)]); [discriminate|].
  injection Hx as <-.
  destruct (node a) as [d|c t f|s|d s|v|] eqn:Hn;
    try (injection H as _ <-; split; [|auto];
         exists a; split; [assumption|]; intros ? ? ? E0; rewrite Hn in E0;
         discriminate).
  read_step_as H read_only_getitem xt Hxt.
  rewrite getitem_eq in Hxt.
  destruct (lookup_instr (il h) t) as [xt'|] eqn:Hlt; [|discriminate].
  injection Hxt as ->.
  read_step_as H read_only_get_final_target yt Hyt.
  destruct (get_final_target_sound _ _ _ _ _ _ Hlt Hyt) as (kt & [_ Hst] & _ & _ & _).
  read_step_as H read_only_getitem xf Hxf.
  rewrite getitem_eq in Hxf.
  destruct (lookup_instr (il h) f) as [xf'|] eqn:Hlf; [|discriminate].
  injection Hxf as ->.
  read_step_as H read_only_get_final_target yf Hyf.
  destruct (get_final_target_sound _ _ _ _ _ _ Hlf Hyf) as (kf & [_ Hsf] & _ & _ & _).
  destruct (negb (instr_index yt =? t) || negb (instr_index yf =? f)) eqn:Hb.
  - read_step_as H read_only_condition_of cond Hcond.
    unfold bind at 1 in H.
    destruct (copy_expr cond h) as [[c'|e] h2] eqn:Ec; [|discriminate].
    destruct (copy_expr_shape _ _ _ _ Ec) as (extra & ->).
    unfold if_expr in H. simpl in H. rewrite build_replace_report in H.
    injection H as _ <-. simpl. rewrite <- app_assoc.
    set (new_if := MLIL_IF c' (instr_index yt) (instr_index yf)).
    pose proof (overwrites_with_exprs h (expr_index a) new_if (extra ++ [new_if])
                  (terminator_expr_lt _ _ _ Hterm)) as Ho.
    simpl in Ho.
    assert (Hold : exprs (il h) !! expr_index a = Some (MLIL_IF c t f)).
    { unfold terminator in Hterm. destruct (start bb <? end_ bb); [|discriminate].
      apply lookup_instr_Some in Hterm as (_ & _ & Hnode). now rewrite Hnode, Hn. }
    split.
    + eexists. split; [exact (terminator_overwrites _ _ _ _ _ _ _ Ho Hterm)|].
      simpl. destruct (decide (expr_index a = expr_index a)); [|congruence].
      intros c0 t0 f0 Hq. injection Hq as _ <- <-.
      split; now apply (is_sink_overwrites _ _ _ _ _ _ _ Ho Hold).
    + intros bb0.
      now apply (branches_to_sinks_overwrites _ _ _ _ _ _ _ _ _ _ bb0 Ho Hold).
  - injection H as _ <-. split; [|auto].
    exists a. split; [assumption|]. intros c0 t0 f0 Hq. rewrite Hn in Hq.
    injection Hq as _ <- <-.
    apply orb_false_iff in Hb as [Ht Hf].
    apply negb_false_iff, Nat.eqb_eq in Ht, Hf.
    rewrite Ht in Hst. rewrite Hf in Hsf. auto.
Qed.

(** X4: after a scan of [pass_clear_if] that ended normally, every block of
    the function has a last instruction, and in every block that ends in a
    branch both arms are instructions that are not jumps. *)
Theorem X4_branch_arms_at_sinks_after_scan limit h u h' :
  clear_if_scan limit h = (Ok u, h') ->
  forall bb, In bb (basic_blocks (il h)) -> branches_to_sinks (il h') bb.
Proof.
  unfold clear_if_scan. unfold bind at 1, get_il. intros H.
  now apply (scan_blocks_establishes branches_to_sinks (clear_if_block limit)
               (clear_if_block_step limit)) in H as [_ H].
Qed.

(** *** A block that is already in order *)

Lemma scan_blocks_idle (body : MediumLevelILBasicBlock -> IL bool) bbs h :
  (forall bb, In bb bbs -> body bb h = (Ok false, h)) ->
  scan_blocks body bbs false h = (Ok false, h).
Proof.
  induction bbs as [|bb bbs IH]; intros Hb; simpl; [reflexivity|].
  rewrite (bind_ok _ _ _ _ _ (Hb bb (or_introl eq_refl))). simpl.
  apply IH. intros bb0 Hin. apply Hb. now right.
Qed.

Lemma bb_last_of_terminator bb h x :
  terminator (il h) bb = Some x -> bb_last bb h = (Ok x, h).
Proof. intros H. now rewrite bb_last_terminator, H. Qed.

Lemma clear_const_if_block_idle bb h :
  no_constant_branch (il h) bb -> clear_const_if_block bb h = (Ok false, h).
Proof.
  intros (x & Hx & Hc). unfold clear_const_if_block.
  rewrite (bind_ok _ _ _ _ _ (bb_last_of_terminator _ _ _ Hx)).
  destruct (node x) as [d|c t f|s|d s|v|] eqn:Hn; try reflexivity.
  destruct (Hc c t f eq_refl) as (cn & Hcn & H1 & H0).
  unfold condition_of. rewrite Hn.
  unfold bind at 1. unfold bind at 1. rewrite expr_at_eq, Hcn. simpl.
  destruct cn as [| | | |[k| | | | | |]|]; try reflexivity.
  destruct (k =? 1)%Z eqn:K1; [apply Z.eqb_eq in K1; congruence|].
  destruct (k =? 0)%Z eqn:K0; [apply Z.eqb_eq in K0; congruence|].
  reflexivity.
Qed.

Lemma is_sink_resolves m d : is_sink m d -> resolves_to m d 0 d.
Proof. intros H. split; [reflexivity|assumption]. Qed.

Lemma clear_goto_block_idle limit bb h :
  0 < limit ->
  jumps_to_sink (il h) bb -> clear_goto_block limit bb h = (Ok false, h).
Proof.
  intros Hl (x & Hx & Hd).
  pose proof (bb_last_of_terminator _ _ _ Hx) as Hlast.
  destruct (node x) as [d|c t f|s|d s|v|] eqn:Hn;
    try (unfold clear_goto_block; rewrite (bind_ok _ _ _ _ _ Hlast), Hn;
         reflexivity).
  pose proof (is_sink_resolves _ _ (Hd d eq_refl)) as Hr.
  destruct (optimize_goto_resolves 0 limit x d d h Hn Hr Hl)
    as (xs & lg & Hxs & Hlen & Ho).
  destruct lg; [|discriminate]. rewrite with_log_nil in Ho.
  apply lookup_instr_Some in Hxs as (Hi & _ & _).
  unfold clear_goto_block.
  rewrite (bind_ok _ _ _ _ _ Hlast), Hn, (bind_ok _ _ _ _ _ Ho), Hi.
  now rewrite Nat.eqb_refl.
Qed.

Lemma clear_if_block_idle limit bb h :
  0 < limit ->
  branches_to_sinks (il h) bb -> clear_if_block limit bb h = (Ok false, h).
Proof.
  intros Hl (x & Hx & Hd).
  pose proof (bb_last_of_terminator _ _ _ Hx) as Hlast.
  destruct (node x) as [d|c t f|s|d s|v|] eqn:Hn;
    try (unfold clear_if_block; rewrite (bind_ok _ _ _ _ _ Hlast), Hn;
         reflexivity).
  destruct (Hd c t f eq_refl) as [Ht Hf].
  pose proof (is_sink_resolves _ _ Ht) as Hrt.
  pose proof (is_sink_resolves _ _ Hf) as Hrf.
  destruct (resolves_to_lookup _ _ _ _ Hrt) as (xt & Hxt).
  destruct (resolves_to_lookup _ _ _ _ Hrf) as (xf & Hxf).
  destruct (get_final_target_resolves 0 limit xt t t h Hxt Hrt Hl) as (yt & Hyt & Et).
  destruct (get_final_target_resolves 0 limit xf f f h Hxf Hrf Hl) as (yf & Hyf & Ef).
  apply lookup_instr_Some in Hyt as (Hit & _ & _).
  apply lookup_instr_Some in Hyf as (Hif & _ & _).
  unfold clear_if_block.
  rewrite (bind_ok _ _ _ _ _ Hlast), Hn.
  rewrite (bind_ok _ _ _ _ _ (getitem_ok h t xt Hxt)), (bind_ok _ _ _ _ _ Et).
  rewrite (bind_ok _ _ _ _ _ (getitem_ok h f xf Hxf)), (bind_ok _ _ _ _ _ Ef).
  now rewrite Hit, Hif, !Nat.eqb_refl.
Qed.

(** ** What the scans of the first three passes keep *)

Section Preserves.

(** A relation between the heap before and the heap after, kept by the three
    operations through which these passes write: building a node,
    overwriting a node, and logging. *)
Variable R : Heap -> Heap -> Prop.
Hypothesis R_refl : forall h, R h h.
Hypothesis R_trans : forall h1 h2 h3, R h1 h2 -> R h2 h3 -> R h1 h3.

Definition preserves {A} (c : IL A) : Prop :=
  forall h, R h (snd (c h)).

Hypothesis R_add_expr : forall n, preserves (add_expr n).
Hypothesis R_replace_expr : forall old new, preserves (replace_expr old new).
Hypothesis R_write_log : forall e, preserves (write_log e).

Lemma preserves_read_only {A} (c : IL A) : read_only c -> preserves c.
Proof. intros Hc h. rewrite Hc. apply R_refl. Qed.

Lemma preserves_ret {A} (a : A) : preserves (ret a).
Proof. intros h. apply R_refl. Qed.

Lemma preserves_raise {A} e : preserves (@raise A e).
Proof. intros h. apply R_refl. Qed.

Lemma preserves_bind {A B} (c : IL A) (k : A -> IL B) :
  preserves c -> (forall a, preserves (k a)) -> preserves (bind c k).
Proof.
  intros Hc Hk h. unfold bind. specialize (Hc h).
  destruct (c h) as [[a|e] h1]; simpl in *; [|assumption].
  exact (R_trans _ _ _ Hc (Hk a h1)).
Qed.

Ltac preserves_step :=
  match goal with
  | |- preserves (bind _ _) => apply preserves_bind; [|intros ?]
  | |- preserves (ret _) => apply preserves_ret
  | |- preserves (raise _) => apply preserves_raise
  | |- preserves (bb_last _) => apply preserves_read_only, read_only_bb_last
  | |- preserves (getitem _) => apply preserves_read_only, read_only_getitem
  | |- preserves (condition_of _) =>
      apply preserves_read_only, read_only_condition_of
  | |- preserves (get_final_target _ _) =>
      apply preserves_read_only, read_only_get_final_target
  | |- preserves get_il => apply preserves_read_only, read_only_get_il
  | |- preserves (add_expr _) => apply R_add_expr
  | |- preserves (replace_expr _ _) => apply R_replace_expr
  | |- preserves (write_log _) => apply R_write_log
  | |- preserves (if ?b then _ else _) => destruct b
  | |- preserves (match ?x with _ => _ end) => destruct x
  end.

Lemma preserves_expr_at e : preserves (expr_at e).
Proof.
  apply preserves_read_only. intros h. now rewrite expr_at_eq.
Qed.

Lemma preserves_copy_expr x : preserves (copy_expr x).
Proof.
  unfold copy_expr.
  destruct (node x); repeat preserves_step; apply preserves_expr_at.
Qed.

Lemma preserves_clear_const_if_block bb : preserves (clear_const_if_block bb).
Proof.
  unfold clear_const_if_block, fold_const_if, goto. repeat preserves_step.
Qed.

Lemma preserves_optimize_goto depth x : preserves (optimize_goto depth x).
Proof.
  revert x. induction depth as [|depth IH]; intros x; simpl;
    repeat preserves_step; apply IH.
Qed.

Lemma preserves_clear_goto_block limit bb : preserves (clear_goto_block limit bb).
Proof.
  unfold clear_goto_block, goto. repeat preserves_step.
  apply preserves_optimize_goto.
Qed.

Lemma preserves_clear_if_block limit bb : preserves (clear_if_block limit bb).
Proof.
  unfold clear_if_block, if_expr. repeat preserves_step.
  apply preserves_copy_expr.
Qed.

Lemma preserves_scan_blocks body bbs updated :
  (forall bb, preserves (body bb)) -> preserves (scan_blocks body bbs updated).
Proof.
  intros Hb. revert updated.
  induction bbs as [|bb bbs IH]; intros updated; simpl; repeat preserves_step; auto.
Qed.

Lemma preserves_clear_const_if_scan : preserves clear_const_if_scan.
Proof.
  unfold clear_const_if_scan. repeat preserves_step.
  apply preserves_scan_blocks, preserves_clear_const_if_block.
Qed.

Lemma preserves_clear_goto_scan limit : preserves (clear_goto_scan limit).
Proof.
  unfold clear_goto_scan. repeat preserves_step.
  apply preserves_scan_blocks, preserves_clear_goto_block.
Qed.

Lemma preserves_clear_if_scan limit : preserves (clear_if_scan limit).
Proof.
  unfold clear_if_scan. repeat preserves_step.
  apply preserves_scan_blocks, preserves_clear_if_block.
Qed.

End Preserves.

(** The instruction list, the blocks and the ghost counter are the same, and
    the store has not lost a node. *)
Definition same_layout (h h' : Heap) : Prop :=
  instrs (il h') = instrs (il h)
  /\ basic_blocks (il h') = basic_blocks (il h)
  /\ length (exprs (il h)) <= length (exprs (il h'))
  /\ scans h' = scans h.

Lemma same_layout_refl h : same_layout h h.
Proof. repeat split. lia. Qed.

Lemma same_layout_trans h1 h2 h3 :
  same_layout h1 h2 -> same_layout h2 h3 -> same_layout h1 h3.
Proof.
  intros (A1 & B1 & C1 & D1) (A2 & B2 & C2 & D2).
  repeat split; try congruence. lia.
Qed.

Lemma same_layout_add_expr n : preserves same_layout (add_expr n).
Proof.
  intros h. rewrite add_expr_eq. repeat split. simpl. rewrite length_app. lia.
Qed.

Lemma same_layout_replace_expr old new : preserves same_layout (replace_expr old new).
Proof.
  intros h. unfold replace_expr, bind. rewrite expr_at_eq.
  destruct (exprs (il h) !! new); simpl; repeat split; try lia.
  simpl. now rewrite length_insert.
Qed.

Lemma same_layout_write_log e : preserves same_layout (write_log e).
Proof. intros h. repeat split. simpl. lia. Qed.

Lemma same_layout_clear_const_if_scan : preserves same_layout clear_const_if_scan.
Proof.
  apply (preserves_clear_const_if_scan same_layout same_layout_refl
           same_layout_trans same_layout_add_expr same_layout_replace_expr).
Qed.

Lemma same_layout_clear_goto_scan limit :
  preserves same_layout (clear_goto_scan limit).
Proof.
  apply (preserves_clear_goto_scan same_layout same_layout_refl
           same_layout_trans same_layout_add_expr same_layout_replace_expr
           same_layout_write_log).
Qed.

Lemma same_layout_clear_if_scan limit :
  preserves same_layout (clear_if_scan limit).
Proof.
  apply (preserves_clear_if_scan same_layout same_layout_refl
           same_layout_trans same_layout_add_expr same_layout_replace_expr).
Qed.

(** X5: a scan of [pass_clear_const_if], of [pass_clear_goto] or of
    [pass_clear_if] never adds, removes or reorders an instruction and never
    changes the blocks, whether it ends normally or in an exception; the
    expression store only grows. *)
Theorem X5_scans_keep_layout limit h :
  same_layout h (snd (clear_const_if_scan h))
  /\ same_layout h (snd (clear_goto_scan limit h))
  /\ same_layout h (snd (clear_if_scan limit h)).
Proof.
  split; [|split].
  - apply same_layout_clear_const_if_scan.
  - apply same_layout_clear_goto_scan.
  - apply same_layout_clear_if_scan.
Qed.

Definition same_log (h h' : Heap) : Prop := log h' = log h.

Lemma same_log_add_expr n : preserves same_log (add_expr n).
Proof. now intros h. Qed.

Lemma same_log_replace_expr old new : preserves same_log (replace_expr old new).
Proof.
  intros h. unfold replace_expr, bind. rewrite expr_at_eq.
  now destruct (exprs (il h) !! new).
Qed.

(** X6: the scans of [pass_clear_const_if] and of [pass_clear_if] never write
    to the log, whether they end normally or in an exception. *)
Theorem X6_silent_scans limit h :
  log (snd (clear_const_if_scan h)) = log h
  /\ log (snd (clear_if_scan limit h)) = log h.
Proof.
  assert (Hrefl : forall h0, same_log h0 h0) by reflexivity.
  assert (Htrans : forall h1 h2 h3, same_log h1 h2 -> same_log h2 h3 -> same_log h1 h3).
  { unfold same_log. intros. congruence. }
  split.
  - apply (preserves_clear_const_if_scan same_log Hrefl Htrans same_log_add_expr
             same_log_replace_expr).
  - apply (preserves_clear_if_scan same_log Hrefl Htrans same_log_add_expr
             same_log_replace_expr).
Qed.

(** ** A second scan finds nothing *)

(** X7: when a scan of one of the first three passes has ended normally, a
    second scan over the same blocks reports no rewrite and leaves the heap
    as it is (for the two passes that follow jumps, with a recursion limit
    that allows one call). *)
Theorem X7_second_scan_finds_nothing limit h u h' :
  0 < limit ->
  (clear_const_if_scan h = (Ok u, h') -> clear_const_if_scan h' = (Ok false, h'))
  /\ (clear_goto_scan limit h = (Ok u, h') ->
      clear_goto_scan limit h' = (Ok false, h'))
  /\ (clear_if_scan limit h = (Ok u, h') ->
      clear_if_scan limit h' = (Ok false, h')).
Proof.
  intros Hl. split; [|split]; intros H.
  - pose proof (same_layout_clear_const_if_scan h) as (_ & Hb & _).
    rewrite H in Hb. simpl in Hb.
    unfold clear_const_if_scan in *. unfold bind at 1, get_il in H.
    unfold bind at 1, get_il. rewrite Hb.
    apply (scan_blocks_establishes no_constant_branch clear_const_if_block
             clear_const_if_block_step) in H as [_ Hp].
    apply scan_blocks_idle. intros bb Hin.
    now apply clear_const_if_block_idle, Hp.
  - pose proof (same_layout_clear_goto_scan limit h) as (_ & Hb & _).
    rewrite H in Hb. simpl in Hb.
    unfold clear_goto_scan in *. unfold bind at 1, get_il in H.
    unfold bind at 1, get_il. rewrite Hb.
    apply (scan_blocks_establishes jumps_to_sink (clear_goto_block limit)
             (clear_goto_block_step limit)) in H as [_ Hp].
    apply scan_blocks_idle. intros bb Hin.
    now apply clear_goto_block_idle, Hp.
  - pose proof (same_layout_clear_if_scan limit h) as (_ & Hb & _).
    rewrite H in Hb. simpl in Hb.
    unfold clear_if_scan in *. unfold bind at 1, get_il in H.
    unfold bind at 1, get_il. rewrite Hb.
    apply (scan_blocks_establishes branches_to_sinks (clear_if_block limit)
             (clear_if_block_step limit)) in H as [_ Hp].
    apply scan_blocks_idle. intros bb Hin.
    now apply clear_if_block_idle, Hp.
Qed.

(** ** Scans that report no rewrite *)

(** X8: a scan that reports no rewrite has made none.  For
    [pass_clear_const_if] and [pass_clear_if] the whole heap is as before;
    for [pass_clear_goto] and [pass_merge_block] the function is as
    before. *)
Theorem X8_idle_scan_changes_nothing
    (incoming : MediumLevelILFunction -> nat -> list MediumLevelILBasicBlock)
    limit h h' :
  (clear_const_if_scan h = (Ok false, h') -> h' = h)
  /\ (clear_if_scan limit h = (Ok false, h') -> h' = h)
  /\ (clear_goto_scan limit h = (Ok false, h') -> il h' = il h)
  /\ (merge_scan incoming h = (Ok false, h') -> il h' = il h).
Proof.
  assert (Heq : forall h1 h2 : Heap,
             il h2 = il h1 -> log h2 = log h1 -> scans h2 = scans h1 -> h2 = h1).
  { intros [i1 l1 s1] [i2 l2 s2]. simpl. intros -> -> ->. reflexivity. }
  assert (Hrefl : forall h0, same_log h0 h0) by reflexivity.
  assert (Htrans : forall h1 h2 h3, same_log h1 h2 -> same_log h2 h3 -> same_log h1 h3).
  { unfold same_log. intros. congruence. }
  split; [|split; [|split]]; intros H.
  - apply Heq.
    + now apply clear_const_if_scan_false in H.
    + pose proof (preserves_clear_const_if_scan same_log Hrefl Htrans
                    same_log_add_expr same_log_replace_expr h) as Hl.
      now rewrite H in Hl.
    + pose proof (keeps_scans_clear_const_if_scan h) as Hs. now rewrite H in Hs.
  - apply Heq.
    + now apply clear_if_scan_false in H.
    + pose proof (preserves_clear_if_scan same_log Hrefl Htrans
                    same_log_add_expr same_log_replace_expr limit h) as Hl.
      now rewrite H in Hl.
    + pose proof (keeps_scans_clear_if_scan limit h) as Hs. now rewrite H in Hs.
  - now apply clear_goto_scan_false in H.
  - now apply merge_scan_false in H.
Qed.

(** ** Targets that do not exist *)

(** X9: a jump, or the true arm of a branch, whose target is not an
    instruction of the function ends the block step of [pass_clear_goto],
    respectively of [pass_clear_if], in [IndexError]; nothing is changed. *)
Theorem X9_missing_target_is_index_error limit bb h x :
  0 < limit ->
  bb_last bb h = (Ok x, h) ->
  (forall d, node x = MLIL_GOTO d -> lookup_instr (il h) d = None ->
     clear_goto_block limit bb h = (Raise IndexError, h))
  /\ (forall c t f, node x = MLIL_IF c t f -> lookup_instr (il h) t = None ->
        clear_if_block limit bb h = (Raise IndexError, h)).
Proof.
  intros Hl Hlast. split.
  - intros d Hn Hd. unfold clear_goto_block.
    rewrite (bind_ok _ _ _ _ _ Hlast), Hn.
    destruct limit as [|limit]; [lia|]. simpl. rewrite Hn.
    unfold bind at 1. unfold bind at 1. now rewrite getitem_eq, Hd.
  - intros c t f Hn Ht. unfold clear_if_block.
    rewrite (bind_ok _ _ _ _ _ Hlast), Hn.
    unfold bind at 1. now rewrite getitem_eq, Ht.
Qed.

Lemma find_none_all {A} (p : A -> bool) (l : list A) :
  (forall a, In a l -> p a = false) -> find p l = None.
Proof.
  induction l as [|a l IH]; intros H; simpl; [reflexivity|].
  rewrite (H a (or_introl eq_refl)). apply IH. intros b Hb. apply H. now right.
Qed.

(** X10: in [pass_merge_block] the test [next_block is not None] comes after
    [next_block.start] has been read: a block whose jump goes to an
    instruction index that lies in no basic block ends the scan in
    [AttributeError]; nothing is changed. *)
Theorem X10_jump_outside_blocks_is_attribute_error
    (incoming : MediumLevelILFunction -> nat -> list MediumLevelILBasicBlock)
    block rest h x dest :
  bb_last block h = (Ok x, h) ->
  node x = MLIL_GOTO dest ->
  (forall bb, In bb (basic_blocks (il h)) -> ~ (start bb <= dest < end_ bb)) ->
  merge_candidate incoming block h = (Raise AttributeError, h)
  /\ merge_scan_blocks incoming (block :: rest) h = (Raise AttributeError, h).
Proof.
  intros Hlast Hn Hout.
  assert (Hc : merge_candidate incoming block h = (Raise AttributeError, h)).
  { unfold merge_candidate. rewrite (bind_ok _ _ _ _ _ Hlast), Hn.
    unfold bind at 1, get_basic_block_at, bind at 1, get_il, ret.
    rewrite find_none_all; [reflexivity|].
    intros bb Hin. specialize (Hout bb Hin).
    destruct (start bb <=? dest) eqn:H1; [|reflexivity].
    destruct (dest <? end_ bb) eqn:H2; [|reflexivity].
    apply Nat.leb_le in H1. apply Nat.ltb_lt in H2. lia. }
  split; [exact Hc|]. simpl. now rewrite (bind_raise _ _ _ _ _ Hc).
Qed.

(** ** What [merge_block] leaves alone *)

(** X11: [merge_block] returns [False] only before it has marked, appended
    or replaced anything: the function is then as it was.  With no
    instruction to merge it always returns [False]. *)
Theorem X11_merge_block_false_is_untouched instrs pre_instrs h :
  (forall h', merge_block instrs pre_instrs h = (Ok false, h') ->
     il h' = il h /\ scans h' = scans h)
  /\ fst (merge_block [] pre_instrs h) = Ok false
  /\ il (snd (merge_block [] pre_instrs h)) = il h.
Proof.
  split; [|split].
  - intros h' H. split; [now apply merge_block_false in H|].
    pose proof (keeps_scans_merge_block instrs pre_instrs h) as Hs.
    now rewrite H in Hs.
  - unfold merge_block. now destruct (negb (forallb _ pre_instrs)).
  - unfold merge_block. now destruct (negb (forallb _ pre_instrs)).
Qed.

Lemma existsb_misses entry pre_instrs :
  existsb (misses entry) pre_instrs = true
  <-> exists p c t f,
        In p pre_instrs /\ node p = MLIL_IF c t f /\ t <> entry /\ f <> entry.
Proof.
  rewrite existsb_exists. unfold misses. split.
  - intros (p & Hin & Hm).
    destruct (node p) as [|c t f| | | |] eqn:Hn; try discriminate.
    apply andb_true_iff in Hm as [Ht Hf].
    apply negb_true_iff, Nat.eqb_neq in Ht, Hf.
    exists p, c, t, f. auto.
  - intros (p & c & t & f & Hin & Hn & Ht & Hf).
    exists p. split; [assumption|]. rewrite Hn.
    apply Nat.eqb_neq in Ht, Hf. now rewrite Ht, Hf.
Qed.

(** X12: [merge_block] on a closed store, with at least one instruction to
    merge and with predecessors that are all jumps or branches: it ends in
    [Exception("Invalid if condition")] exactly when some predecessor is a
    branch with neither arm at the index of the first instruction of
    [instrs]; in every other case it returns [True]. *)
Theorem X12_merge_block_fatal_exactly first rest pre_instrs h :
  store_closed (exprs (il h)) ->
  Forall (condition_below (length (exprs (il h)))) (first :: rest) ->
  Forall (condition_below (length (exprs (il h)))) pre_instrs ->
  forallb (fun instr => isinstance_Goto instr || isinstance_If instr) pre_instrs
  = true ->
  let fatal := exists p c t f,
                 In p pre_instrs /\ node p = MLIL_IF c t f
                 /\ t <> instr_index first /\ f <> instr_index first in
  (fatal <-> fst (merge_block (first :: rest) pre_instrs h)
             = Raise (Exception "Invalid if condition"))
  /\ (~ fatal <-> fst (merge_block (first :: rest) pre_instrs h) = Ok true).
Proof.
  intros Hc Hxs Hps Hk fatal.
  pose proof (merge_block_fatal_iff first rest pre_instrs h Hc Hxs Hps Hk) as H.
  pose proof (existsb_misses (instr_index first) pre_instrs) as Hm.
  fold fatal in Hm.
  destruct (existsb (misses (instr_index first)) pre_instrs); rewrite H.
  - split; split; intros H0.
    + reflexivity.
    + now apply Hm.
    + exfalso. apply H0. now apply Hm.
    + discriminate.
  - split; split; intros H0.
    + apply Hm in H0. discriminate.
    + discriminate.
    + reflexivity.
    + intros H1. apply Hm in H1. discriminate.
Qed.

(** ** When a merge takes place *)

(** X15: [pass_merge_block] merges a block only under the conditions it
    tests.  When a turn of its scan reports a merge, the block ends in a
    jump into a block that has exactly one incoming block and ends in a jump
    or a return, every incoming block of the merged block ends in a jump or
    a branch, there was at least one instruction to merge, and the heap is
    the one [merge_block] left. *)
Theorem X15_merge_only_for_candidates
    (incoming : MediumLevelILFunction -> nat -> list MediumLevelILBasicBlock)
    block h h' :
  merge_candidate incoming block h = (Ok true, h') ->
  exists next_block instrs pre_instrs,
    is_merge_candidate incoming h block next_block instrs pre_instrs
    /\ merge_block instrs pre_instrs h = (Ok true, h')
    /\ forallb (fun instr => isinstance_Goto instr || isinstance_If instr)
         pre_instrs = true
    /\ instrs <> [].
Proof.
  unfold merge_candidate. intros H.
  read_step_as H read_only_bb_last last_instr Hlast.
  apply bb_last_inv in Hlast as Hterm.
  destruct Hterm as (_ & [[? _]|(x & Hx & Hterm)]); [discriminate|].
  injection Hx as <-.
  destruct (node last_instr) as [dest| | | | |] eqn:Hn; try discriminate.
  read_step_as H read_only_get_basic_block_at nb Hnb.
  destruct nb as [next_block|]; [|discriminate].
  read_step_as H read_only_get_il m Hm. injection Hm as <-.
  destruct (length (incoming (il h) (start next_block)) =? 1) eqn:Hone;
    [|discriminate].
  read_step_as H read_only_bb_last next_last Hnl.
  destruct (isinstance_Goto next_last || isinstance_Ret next_last) eqn:Hk;
    [|discriminate].
  read_step_as H read_only_map_bb_last pre_instrs Hpre.
  read_step_as H read_only_bb_init body Hbody.
  read_step_as H read_only_bb_all next_body Hall.
  exists next_block, (body ++ next_body), pre_instrs.
  split; [|split; [exact H|]].
  - exists last_instr, dest, next_last, body, next_body.
    apply Nat.eqb_eq in Hone. repeat split; auto.
  - unfold merge_block in H.
    destruct (forallb _ pre_instrs); simpl in H; [|discriminate].
    split; [reflexivity|].
    intros Hnil. rewrite Hnil in H. discriminate.
Qed.

(** ** What [merge_block] does to the predecessors and to the function *)

Lemma add_expr_eq_bind e n h :
  (let* new := add_expr n in replace_expr e new) h
  = (Ok tt, with_exprs h (<[e := n]> (exprs (il h) ++ [n]))).
Proof.
  unfold bind at 1. rewrite add_expr_eq.
  rewrite (replace_expr_eq e _ n).
  - reflexivity.
  - simpl. rewrite lookup_app_r by lia. now rewrite Nat.sub_diag.
Qed.

(** X16: the redirection of one predecessor [pre_instr] in [merge_block].  A
    jump is overwritten with a jump to the label.  A branch whose true arm is
    at the index of the first instruction of [instrs] is overwritten with a
    branch on a copy of its condition, the true arm at the new entry and the
    false arm as it was, also when the false arm was at that index too;
    otherwise, when its false arm is there, the false arm goes to the new
    entry and the true arm stays; when neither arm is there the loop ends in
    the fatal error with the heap as it was.  Any other instruction is
    passed over. *)
Theorem X16_redirect_pre_instr first rest label s p h :
  let entry := instr_index first in
  let redirected := redirect_pre_instr (first :: rest) label s p h in
  match node p with
  | MLIL_GOTO _ =>
      redirected
      = (Ok tt,
         with_exprs h (<[expr_index p := MLIL_GOTO (operand label)]>
                         (exprs (il h) ++ [MLIL_GOTO (operand label)])))
  | MLIL_IF c t f =>
      forall v, exprs (il h) !! c = Some (MLIL_VALUE v) ->
        let rebuilt t' f' :=
          let new_if := MLIL_IF (length (exprs (il h))) t' f' in
          with_exprs h (<[expr_index p := new_if]>
                          (exprs (il h) ++ [MLIL_VALUE v; new_if])) in
        (t = entry -> redirected = (Ok tt, rebuilt s f))
        /\ (t <> entry -> f = entry -> redirected = (Ok tt, rebuilt t s))
        /\ (t <> entry -> f <> entry ->
            redirected = (Raise (Exception "Invalid if condition"), h))
  | _ => redirected = (Ok tt, h)
  end.
Proof.
  intros entry redirected. unfold redirected, redirect_pre_instr.
  destruct (node p) as [d|c t f| | | |] eqn:Hn; try reflexivity.
  - unfold goto. rewrite add_expr_eq_bind. reflexivity.
  - intros v Hc.
    assert (Hre : forall tl fl,
               (let* condition := condition_of p in
                let* cond := copy_expr condition in
                let* new_if := if_expr cond tl fl in
                replace_expr (expr_index p) new_if) h
               = (Ok tt,
                  with_exprs h
                    (<[expr_index p :=
                         MLIL_IF (length (exprs (il h))) (operand tl) (operand fl)]>
                       (exprs (il h)
                        ++ [MLIL_VALUE v;
                            MLIL_IF (length (exprs (il h))) (operand tl)
                              (operand fl)])))).
    { intros tl fl. unfold condition_of. rewrite Hn.
      unfold bind at 1. unfold bind at 1. rewrite expr_at_eq, Hc. simpl.
      unfold copy_expr. simpl. unfold bind at 1. rewrite add_expr_eq.
      unfold if_expr. rewrite add_expr_eq_bind. simpl.
      unfold with_exprs. simpl. now rewrite <- app_assoc. }
    fold entry. split; [|split].
    + intros Ht. apply Nat.eqb_eq in Ht. rewrite Ht. apply Hre.
    + intros Ht Hf. apply Nat.eqb_neq in Ht. apply Nat.eqb_eq in Hf.
      rewrite Ht, Hf. apply Hre.
    + intros Ht Hf. apply Nat.eqb_neq in Ht, Hf. now rewrite Ht, Hf.
Qed.

(** [n'] is [n], up to the index of the condition when [n] is a branch. *)
Definition same_shape (n n' : Node) : Prop :=
  match n with
  | MLIL_IF _ t f => exists c', n' = MLIL_IF c' t f
  | _ => n' = n
  end.

(** The instruction at index [i] of [m'] is a copy of [x]. *)
Definition copied_at (m' : MediumLevelILFunction) (x : MediumLevelILInstruction)
    (i : nat) : Prop :=
  exists y, lookup_instr m' i = Some y /\ same_shape (node x) (node y).

Lemma copy_expr_result x h e h1 :
  copy_expr x h = (Ok e, h1) ->
  exists extra n',
    h1 = with_exprs h (exprs (il h) ++ extra)
    /\ length (exprs (il h)) <= e
    /\ (exprs (il h) ++ extra) !! e = Some n'
    /\ same_shape (node x) n'.
Proof.
  unfold copy_expr.
  destruct (node x) as [d|c t f|s|d s|v|] eqn:Hn;
    try (rewrite add_expr_eq; intros E; injection E as <- <-;
         eexists [_], _; split; [reflexivity|]; split; [lia|];
         split; [rewrite lookup_app_r by lia; now rewrite Nat.sub_diag|];
         reflexivity).
  unfold bind at 1. rewrite expr_at_eq.
  destruct (exprs (il h) !! c) as [n|]; [|discriminate].
  unfold bind at 1. rewrite add_expr_eq. rewrite add_expr_eq. simpl.
  intros E. injection E as <- <-.
  exists [n; MLIL_IF (length (exprs (il h))) t f],
         (MLIL_IF (length (exprs (il h))) t f).
  split; [unfold with_exprs; simpl; now rewrite <- app_assoc|].
  rewrite length_app. simpl. split; [lia|]. split.
  - rewrite lookup_app_r by lia.
    replace (length (exprs (il h)) + 1 - length (exprs (il h))) with 1 by lia.
    reflexivity.
  - simpl. eauto.
Qed.

(** The first loop of [merge_block]: one copy per instruction, appended in
    order; the nodes that were in the store are not touched. *)
Lemma copy_and_append_result xs :
  forall h h1,
    for_each (fun x => let* e := copy_expr x in append e) xs h = (Ok tt, h1) ->
    exists extra es,
      exprs (il h1) = exprs (il h) ++ extra
      /\ instrs (il h1) = instrs (il h) ++ es
      /\ basic_blocks (il h1) = basic_blocks (il h)
      /\ log h1 = log h
      /\ Forall2 (fun x e =>
                    length (exprs (il h)) <= e
                    /\ exists n', exprs (il h1) !! e = Some n'
                                  /\ same_shape (node x) n') xs es.
Proof.
  induction xs as [|x xs IH]; intros h h1 H; simpl in H.
  - injection H as <-. exists [], []. rewrite !app_nil_r. repeat split. constructor.
  - unfold bind at 1 in H. unfold bind at 1 in H.
    destruct (copy_expr x h) as [[e|err] ha] eqn:Ec; [|discriminate].
    destruct (copy_expr_result _ _ _ _ Ec) as (extra & n' & -> & Hle & Hn' & Hsh).
    unfold append at 1, bind at 1, get_il, put_il in H. simpl in H.
    destruct (IH _ _ H) as (extra2 & es & Hex & Hin & Hbb & Hlog & Hall).
    simpl in *.
    exists (extra ++ extra2), (e :: es).
    split; [now rewrite Hex, <- app_assoc|].
    split; [now rewrite Hin, <- app_assoc|].
    split; [assumption|]. split; [assumption|].
    constructor.
    + split; [assumption|]. exists n'. split; [|assumption].
      rewrite Hex. rewrite lookup_app_l; [assumption|].
      now apply lookup_lt_Some in Hn'.
    + eapply Forall2_impl; [exact Hall|].
      intros y e0 (Hle0 & Hrest). split; [|assumption].
      rewrite length_app in Hle0. lia.
Qed.

(** The heap after redirecting one predecessor: the heap as it was, or the
    store with some nodes added and the node of the predecessor
    overwritten. *)
Lemma redirect_pre_instr_shape instrs label s p h r h' :
  redirect_pre_instr instrs label s p h = (r, h') ->
  h' = h
  \/ exists n extra,
       h' = with_exprs h (<[expr_index p := n]> (exprs (il h) ++ extra)).
Proof.
  unfold redirect_pre_instr.
  assert (Hre : forall tl fl r0 h0,
             (let* condition := condition_of p in
              let* cond := copy_expr condition in
              let* new_if := if_expr cond tl fl in
              replace_expr (expr_index p) new_if) h = (r0, h0) ->
             h0 = h
             \/ exists n extra,
                  h0 = with_exprs h (<[expr_index p := n]> (exprs (il h) ++ extra))).
  { intros tl fl r0 h0 H.
    apply bind_read_only_inv in H; [|apply read_only_condition_of].
    destruct H as [(cond & _ & H)|(e & _ & ->)]; [|now left].
    unfold bind at 1 in H.
    destruct (copy_expr cond h) as [[c'|e] h1] eqn:Ec.
    - destruct (copy_expr_shape _ _ _ _ Ec) as (extra & ->).
      unfold if_expr in H. rewrite add_expr_eq_bind in H. injection H as _ <-.
      right. eexists _, (extra ++ [_]). unfold with_exprs. simpl.
      now rewrite <- app_assoc.
    - unfold copy_expr in Ec.
      destruct (node cond) as [|c t f| | | |];
        try (rewrite add_expr_eq in Ec; discriminate).
      unfold bind at 1 in Ec. rewrite expr_at_eq in Ec.
      destruct (exprs (il h) !! c); [|injection Ec as _ <-; injection H as _ <-;
                                       now left].
      unfold bind at 1 in Ec. rewrite add_expr_eq in Ec.
      rewrite add_expr_eq in Ec. discriminate. }
  destruct (node p) as [d|c t f| | | |];
    try (intros E; injection E as _ <-; now left).
  - unfold goto. rewrite add_expr_eq_bind. intros E. injection E as _ <-.
    right. eauto.
  - destruct instrs as [|first rest]; [intros E; injection E as _ <-; now left|].
    destruct (t =? instr_index first); [apply Hre|].
    destruct (f =? instr_index first); [apply Hre|].
    intros E. injection E as _ <-. now left.
Qed.

(** The second loop of [merge_block] leaves the instruction list, the blocks
    and the log alone, and every node from index [bound] on, when the
    predecessors' own nodes are below [bound]. *)
Lemma redirect_all_frame xs label s bound pre_instrs :
  Forall (fun p => expr_index p < bound) pre_instrs ->
  forall h r h',
    for_each (redirect_pre_instr xs label s) pre_instrs h = (r, h') ->
    instrs (il h') = instrs (il h)
    /\ basic_blocks (il h') = basic_blocks (il h)
    /\ log h' = log h
    /\ length (exprs (il h)) <= length (exprs (il h'))
    /\ forall j, bound <= j -> j < length (exprs (il h)) ->
         exprs (il h') !! j = exprs (il h) !! j.
Proof.
  induction 1 as [|p pre_instrs Hp Hrest IH]; intros h r h' H; simpl in H.
  - injection H as _ <-. repeat split; auto.
  - unfold bind in H.
    destruct (redirect_pre_instr xs label s p h) as [[[]|e] h1] eqn:E.
    + destruct (IH _ _ _ H) as (A & B & C & D & F).
      destruct (redirect_pre_instr_shape _ _ _ _ _ _ _ E) as [->|(n & extra & ->)];
        [repeat split; auto|].
      simpl in *. rewrite length_insert, length_app in *.
      repeat split; auto; try lia.
      intros j Hj Hlt. rewrite F by lia.
      apply lookup_after_rewrite; lia.
    + injection H as _ <-.
      destruct (redirect_pre_instr_shape _ _ _ _ _ _ _ E) as [->|(n & extra & ->)];
        [repeat split; auto|].
      simpl. rewrite length_insert, length_app.
      repeat split; auto; try lia.
      intros j Hj Hlt. apply lookup_after_rewrite; lia.
Qed.

(** X17: a call of [merge_block] that returns [True], with predecessors
    whose nodes were in the store when it began: the function has one more
    instruction for every instruction of [instrs], appended in order at the
    end, each a copy of the one it comes from (the same node, with a new
    condition index for a branch); the instructions that were there keep
    their indices, and the blocks and the log are as before. *)
Theorem X17_merge_appends_copies xs pre_instrs h h' :
  merge_block xs pre_instrs h = (Ok true, h') ->
  Forall (fun p => expr_index p < length (exprs (il h))) pre_instrs ->
  length (instrs (il h')) = length (instrs (il h)) + length xs
  /\ (forall i, i < length (instrs (il h)) ->
        instrs (il h') !! i = instrs (il h) !! i)
  /\ (forall j x, xs !! j = Some x ->
        copied_at (il h') x (length (instrs (il h)) + j))
  /\ basic_blocks (il h') = basic_blocks (il h)
  /\ log h' = log h.
Proof.
  unfold merge_block. intros H Hpre.
  destruct (negb (forallb _ pre_instrs)); [discriminate|].
  destruct (length xs =? 0); [discriminate|].
  unfold bind at 1, mark_label at 1, bind at 1, get_il, ret in H.
  cbv iota beta in H. unfold bind at 1 in H.
  destruct (for_each _ xs h) as [[[]|e] h1] eqn:E1; [|discriminate].
  unfold bind at 1 in H.
  destruct (for_each _ pre_instrs h1) as [[[]|e] h2] eqn:E2; [|discriminate].
  injection H as <-.
  destruct (copy_and_append_result _ _ _ E1)
    as (extra & es & Hex & Hin & Hbb & Hlog & Hall).
  destruct (redirect_all_frame _ _ _ _ _ Hpre _ _ _ E2)
    as (Hin2 & Hbb2 & Hlog2 & _ & Hframe).
  pose proof (Forall2_length _ _ _ Hall) as Hlen.
  split; [|split; [|split; [|split]]].
  - rewrite Hin2, Hin, length_app. lia.
  - intros i Hi. rewrite Hin2, Hin. now apply lookup_app_l.
  - intros j x Hx.
    destruct (Forall2_lookup_l _ _ _ _ _ Hall Hx) as (e & He & Hle & n' & Hn' & Hsh).
    exists {| instr_index := length (instrs (il h)) + j; expr_index := e;
              node := n' |}.
    split; [|exact Hsh].
    unfold lookup_instr. rewrite Hin2, Hin.
    rewrite lookup_app_r by lia.
    replace (length (instrs (il h)) + j - length (instrs (il h))) with j by lia.
    rewrite He. rewrite Hframe; [now rewrite Hn'|exact Hle|].
    now apply lookup_lt_Some in Hn'.
  - congruence.
  - congruence.
Qed.

(** The node that takes the place of a predecessor's node [n]: a jump to
    [new_entry]; or a branch with the arm that was at [entry] (the true arm
    first) now at [new_entry]. *)
Definition redirected (entry new_entry : nat) (n n' : Node) : Prop :=
  match n with
  | MLIL_GOTO _ => n' = MLIL_GOTO new_entry
  | MLIL_IF _ t f =>
      exists c',
        n' = if t =? entry then MLIL_IF c' new_entry f
             else MLIL_IF c' t new_entry
  | _ => True
  end.

Lemma redirect_pre_instr_ok first rest label p h h1 :
  redirect_pre_instr (first :: rest) label (operand label) p h = (Ok tt, h1) ->
  isinstance_Goto p || isinstance_If p = true ->
  exists n extra,
    h1 = with_exprs h (<[expr_index p := n]> (exprs (il h) ++ extra))
    /\ redirected (instr_index first) (operand label) (node p) n.
Proof.
  unfold redirect_pre_instr, isinstance_Goto, isinstance_If, redirected.
  intros H Hk.
  assert (Hre : forall tl fl,
             (let* condition := condition_of p in
              let* cond := copy_expr condition in
              let* new_if := if_expr cond tl fl in
              replace_expr (expr_index p) new_if) h = (Ok tt, h1) ->
             exists c' extra,
               h1 = with_exprs h
                      (<[expr_index p := MLIL_IF c' (operand tl) (operand fl)]>
                         (exprs (il h) ++ extra))).
  { intros tl fl H0.
    apply bind_read_only_inv in H0; [|apply read_only_condition_of].
    destruct H0 as [(cond & _ & H0)|(e & Hr & _)]; [|discriminate].
    unfold bind at 1 in H0.
    destruct (copy_expr cond h) as [[c'|e] h2] eqn:Ec; [|discriminate].
    destruct (copy_expr_shape _ _ _ _ Ec) as (extra & ->).
    unfold if_expr in H0. rewrite add_expr_eq_bind in H0. injection H0 as <-.
    exists c', (extra ++ [MLIL_IF c' (operand tl) (operand fl)]).
    unfold with_exprs. simpl. now rewrite <- app_assoc. }
  destruct (node p) as [d|c t f| | | |]; try discriminate.
  - unfold goto in H. rewrite add_expr_eq_bind in H. injection H as <-. eauto.
  - destruct (t =? instr_index first).
    + destruct (Hre _ _ H) as (c' & extra & ->). simpl. eauto.
    + destruct (f =? instr_index first); [|discriminate].
      destruct (Hre _ _ H) as (c' & extra & ->). simpl. eauto.
Qed.

(** Through the rest of the loop a node stays redirected, when the
    predecessors that share its index have the same node. *)
Lemma redirect_all_keeps first rest label e (n : Node) pre_instrs :
  forallb (fun instr => isinstance_Goto instr || isinstance_If instr) pre_instrs
  = true ->
  (forall q, In q pre_instrs -> expr_index q = e -> node q = n) ->
  forall h h' n0,
    for_each (redirect_pre_instr (first :: rest) label (operand label))
      pre_instrs h = (Ok tt, h') ->
    exprs (il h) !! e = Some n0 ->
    redirected (instr_index first) (operand label) n n0 ->
    exists n',
      exprs (il h') !! e = Some n'
      /\ redirected (instr_index first) (operand label) n n'.
Proof.
  induction pre_instrs as [|q pre_instrs IH]; intros Hk Hsame h h' n0 H He Hn0;
    simpl in H.
  - injection H as <-. eauto.
  - simpl in Hk. apply andb_true_iff in Hk as [Hkq Hk].
    unfold bind in H.
    destruct (redirect_pre_instr _ _ _ q h) as [[[]|err] h1] eqn:E; [|discriminate].
    destruct (redirect_pre_instr_ok _ _ _ _ _ _ E Hkq) as (nq & extra & -> & Hq).
    pose proof (lookup_lt_Some _ _ _ He) as Hlt.
    assert (Hsame' : forall q0, In q0 pre_instrs -> expr_index q0 = e -> node q0 = n).
    { intros q0 Hin. apply Hsame. now right. }
    destruct (decide (expr_index q = e)) as [Heq|Hne].
    + rewrite (Hsame q (or_introl eq_refl) Heq) in Hq.
      apply (IH Hk Hsame' _ _ nq H); [|assumption].
      simpl. rewrite Heq.
      apply list_lookup_insert_eq. rewrite length_app. lia.
    + apply (IH Hk Hsame' _ _ n0 H); [|assumption].
      simpl. rewrite lookup_after_rewrite; auto.
Qed.

(** After the loop the node of every predecessor is redirected. *)
Lemma redirect_all_result first rest label pre_instrs :
  forallb (fun instr => isinstance_Goto instr || isinstance_If instr) pre_instrs
  = true ->
  forall h h' p,
    for_each (redirect_pre_instr (first :: rest) label (operand label))
      pre_instrs h = (Ok tt, h') ->
    In p pre_instrs ->
    expr_index p < length (exprs (il h)) ->
    (forall q, In q pre_instrs -> expr_index q = expr_index p -> node q = node p) ->
    exists n',
      exprs (il h') !! expr_index p = Some n'
      /\ redirected (instr_index first) (operand label) (node p) n'.
Proof.
  induction pre_instrs as [|q pre_instrs IH]; intros Hk h h' p H Hin Hlt Hsame;
    [destruct Hin|].
  simpl in Hk. apply andb_true_iff in Hk as [Hkq Hk].
  simpl in H. unfold bind in H.
  destruct (redirect_pre_instr _ _ _ q h) as [[[]|err] h1] eqn:E; [|discriminate].
  destruct (redirect_pre_instr_ok _ _ _ _ _ _ E Hkq) as (nq & extra & -> & Hq).
  assert (Hsame' : forall q0, In q0 pre_instrs -> expr_index q0 = expr_index p ->
                              node q0 = node p).
  { intros q0 Hin0. apply Hsame. now right. }
  destruct (decide (expr_index q = expr_index p)) as [Heq|Hne].
  - rewrite (Hsame q (or_introl eq_refl) Heq) in Hq.
    apply (redirect_all_keeps first rest label (expr_index p) (node p) pre_instrs
             Hk Hsame' _ _ nq H); [|assumption].
    simpl. rewrite Heq. apply list_lookup_insert_eq. rewrite length_app. lia.
  - destruct Hin as [->|Hin]; [congruence|].
    apply (IH Hk _ _ p H Hin); [|assumption].
    simpl. rewrite length_insert, length_app. lia.
Qed.

(** The index of the first instruction of [instrs], what [merge_block]
    compares the arms of a branch with. *)
Definition compared_entry (xs : list MediumLevelILInstruction) : nat :=
  match xs with
  | first :: _ => instr_index first
  | [] => 0
  end.

(** X18: after a call of [merge_block] that returned [True], the node of
    every predecessor is redirected to the merged copy, which starts at the
    index the function ended at: a jump has become a jump to it, and a
    branch has its true arm there when that arm was at the index of the
    first instruction of [instrs], and its false arm there otherwise, the
    other arm being as it was (for predecessors whose nodes were in the
    store, those sharing a node having been read alike). *)
Theorem X18_merge_redirects_predecessors xs pre_instrs h h' p :
  merge_block xs pre_instrs h = (Ok true, h') ->
  Forall (fun q => expr_index q < length (exprs (il h))) pre_instrs ->
  In p pre_instrs ->
  (forall q, In q pre_instrs -> expr_index q = expr_index p -> node q = node p) ->
  exists n',
    exprs (il h') !! expr_index p = Some n'
    /\ redirected (compared_entry xs) (length (instrs (il h))) (node p) n'
    /\ (isinstance_Goto p || isinstance_If p = true).
Proof.
  unfold merge_block. intros H Hpre Hin Hsame.
  destruct (forallb _ pre_instrs) eqn:Hk; simpl in H; [|discriminate].
  destruct xs as [|first rest]; [discriminate|].
  change (length (first :: rest) =? 0) with false in H. cbv iota in H.
  unfold bind at 1, mark_label at 1, bind at 1, get_il, ret in H.
  cbv iota beta in H. unfold bind at 1 in H.
  destruct (for_each _ (first :: rest) h) as [[[]|e] h1] eqn:E1; [|discriminate].
  unfold bind at 1 in H.
  destruct (for_each _ pre_instrs h1) as [[[]|e] h2] eqn:E2; [|discriminate].
  injection H as <-.
  destruct (copy_and_append_result _ _ _ E1) as (extra & es & Hex & _).
  rewrite Forall_forall in Hpre.
  specialize (Hpre p (proj2 (list_elem_of_In _ _) Hin)).
  destruct (redirect_all_result first rest {| operand := length (instrs (il h)) |}
              pre_instrs Hk h1 h2 p E2 Hin) as (n' & Hn' & Hr); auto.
  - rewrite Hex, length_app. lia.
  - exists n'. split; [assumption|]. split; [exact Hr|].
    rewrite forallb_forall in Hk. now apply Hk.
Qed.

(** ** Two scans are enough *)

Lemma fixed_point_loop_continue
    (finalize generate_ssa_form : MediumLevelILFunction -> MediumLevelILFunction)
    (scan : IL bool) n h h1 :
  scan (snd (tick_scan h)) = (Ok true, h1) ->
  fixed_point_loop finalize generate_ssa_form scan (S n) h
  = fixed_point_loop finalize generate_ssa_form scan n
      (rederived finalize generate_ssa_form h1).
Proof.
  intros E. simpl. unfold bind at 1. simpl. unfold bind at 1.
  simpl in E. rewrite E. reflexivity.
Qed.

Lemma fixed_point_loop_stop
    (finalize generate_ssa_form : MediumLevelILFunction -> MediumLevelILFunction)
    (scan : IL bool) n h h1 :
  scan (snd (tick_scan h)) = (Ok false, h1) ->
  fixed_point_loop finalize generate_ssa_form scan (S n) h = (Ok tt, h1).
Proof.
  intros E. simpl. unfold bind at 1. simpl. unfold bind at 1.
  simpl in E. now rewrite E.
Qed.

(** After a scan that reported a rewrite, when [finalize] and
    [generate_ssa_form] leave the function as the scan left it and a scan of
    that function finds nothing, the next scan ends the loop. *)
Lemma loop_ends_at_second_scan
    (finalize generate_ssa_form : MediumLevelILFunction -> MediumLevelILFunction)
    (scan : IL bool) n h h1 :
  (forall h2, il h2 = il h1 -> scan h2 = (Ok false, h2)) ->
  generate_ssa_form (finalize (il h1)) = il h1 ->
  scan (snd (tick_scan h)) = (Ok true, h1) ->
  fixed_point_loop finalize generate_ssa_form scan (S (S n)) h
  = (Ok tt, snd (tick_scan h1)).
Proof.
  intros Hidle Hfix H.
  rewrite (fixed_point_loop_continue _ _ _ _ _ _ H).
  assert (Hre : rederived finalize generate_ssa_form h1 = h1).
  { unfold rederived. rewrite Hfix. apply heap_eta. }
  rewrite Hre. apply fixed_point_loop_stop. now apply Hidle.
Qed.

Lemma scan_idle_on_same_il
    (Post : MediumLevelILFunction -> MediumLevelILBasicBlock -> Prop)
    (body : MediumLevelILBasicBlock -> IL bool) h u h1 :
  (forall bb h0 u0 h2,
     body bb h0 = (Ok u0, h2) ->
     Post (il h2) bb /\ forall bb0, Post (il h0) bb0 -> Post (il h2) bb0) ->
  (forall bb h0, Post (il h0) bb -> body bb h0 = (Ok false, h0)) ->
  basic_blocks (il h1) = basic_blocks (il h) ->
  scan_blocks body (basic_blocks (il h)) false h = (Ok u, h1) ->
  forall h2, il h2 = il h1 ->
    scan_blocks body (basic_blocks (il h2)) false h2 = (Ok false, h2).
Proof.
  intros Hstep Hidle Hbb H h2 Hil.
  apply (scan_blocks_establishes Post body Hstep) in H as [_ Hp].
  rewrite Hil, Hbb. apply scan_blocks_idle.
  intros bb Hin. apply Hidle. rewrite Hil. now apply Hp.
Qed.

(** X19: when a scan of one of the first three passes has reported a
    rewrite, and [finalize] and [generate_ssa_form] leave the function as
    that scan left it, the loop of the pass ends normally with its second
    scan, which changes nothing; the cap on the number of scans is not what
    ends it (for the two passes that follow jumps, with a recursion limit
    that allows one call). *)
Theorem X19_loop_ends_at_second_scan
    (finalize generate_ssa_form : MediumLevelILFunction -> MediumLevelILFunction)
    limit n h h1 :
  0 < limit ->
  generate_ssa_form (finalize (il h1)) = il h1 ->
  let loop := fixed_point_loop finalize generate_ssa_form in
  (clear_const_if_scan (snd (tick_scan h)) = (Ok true, h1) ->
   loop clear_const_if_scan (S (S n)) h = (Ok tt, snd (tick_scan h1)))
  /\ (clear_goto_scan limit (snd (tick_scan h)) = (Ok true, h1) ->
      loop (clear_goto_scan limit) (S (S n)) h = (Ok tt, snd (tick_scan h1)))
  /\ (clear_if_scan limit (snd (tick_scan h)) = (Ok true, h1) ->
      loop (clear_if_scan limit) (S (S n)) h = (Ok tt, snd (tick_scan h1))).
Proof.
  intros Hl Hfix loop. split; [|split]; intros H;
    apply loop_ends_at_second_scan; auto.
  - pose proof (same_layout_clear_const_if_scan (snd (tick_scan h))) as (_ & Hb & _).
    rewrite H in Hb.
    apply (scan_idle_on_same_il no_constant_branch clear_const_if_block
             (snd (tick_scan h)) true h1 clear_const_if_block_step
             clear_const_if_block_idle Hb H).
  - pose proof (same_layout_clear_goto_scan limit (snd (tick_scan h))) as (_ & Hb & _).
    rewrite H in Hb.
    apply (scan_idle_on_same_il jumps_to_sink (clear_goto_block limit)
             (snd (tick_scan h)) true h1 (clear_goto_block_step limit)
             (fun bb h0 => clear_goto_block_idle limit bb h0 Hl) Hb H).
  - pose proof (same_layout_clear_if_scan limit (snd (tick_scan h))) as (_ & Hb & _).
    rewrite H in Hb.
    apply (scan_idle_on_same_il branches_to_sinks (clear_if_block limit)
             (snd (tick_scan h)) true h1 (clear_if_block_step limit)
             (fun bb h0 => clear_if_block_idle limit bb h0 Hl) Hb H).
Qed.

(** ** A function without blocks *)

(** X20: on a function that has no basic blocks every pass starts no scan;
    it runs [finalize] and [generate_ssa_form] once, logs nothing and ends
    normally. *)
Theorem X20_no_blocks_no_scan
    (finalize generate_ssa_form : MediumLevelILFunction -> MediumLevelILFunction)
    (incoming : MediumLevelILFunction -> nat -> list MediumLevelILBasicBlock)
    (limit : nat) (w : World) (m : MediumLevelILFunction) :
  mlil (analysis_context w) = Some m ->
  basic_blocks m = [] ->
  let w' := {| analysis_context :=
                 {| mlil := Some (generate_ssa_form (finalize m));
                    function := function (analysis_context w) |};
               messages := messages w;
               scan_count := scan_count w |} in
  pass_clear_const_if finalize generate_ssa_form w = (Ok tt, w')
  /\ pass_clear_goto finalize generate_ssa_form limit w = (Ok tt, w')
  /\ pass_clear_if finalize generate_ssa_form limit w = (Ok tt, w')
  /\ pass_merge_block finalize generate_ssa_form incoming w = (Ok tt, w').
Proof.
  intros Hm Hb w'.
  unfold pass_clear_const_if, pass_clear_goto, pass_clear_if, pass_merge_block.
  rewrite Hm.
  unfold on_mlil, clear_const_if_body, clear_goto_body, clear_if_body,
    merge_block_body.
  unfold bind at 1, get_il. simpl il. rewrite Hb.
  unfold bind at 3, get_il. simpl il. rewrite Hb.
  unfold bind at 5, get_il. simpl il. rewrite Hb.
  unfold bind at 7, get_il. simpl il. rewrite Hb.
  repeat split.
Qed.

(** ** The further properties at work on small functions *)

(** A single block whose jump goes to an index the function does not have. *)
Definition dangling_il : MediumLevelILFunction :=
  {| exprs := [MLIL_GOTO 5];
     instrs := [0];
     basic_blocks := [{| start := 0; end_ := 1 |}] |}.

Lemma X2_witness :
  let h := fresh_heap const_branch_il in
  fst (clear_const_if_scan h) = Ok true
  /\ no_constant_branch (il (snd (clear_const_if_scan h))) {| start := 0; end_ := 1 |}.
Proof.
  intros h. split; [reflexivity|].
  exact (X2_no_constant_branch_after_scan h true (snd (clear_const_if_scan h))
           eq_refl {| start := 0; end_ := 1 |} (or_introl eq_refl)).
Defined.

Lemma X3_witness :
  let h := fresh_heap jump_chain_il in
  fst (clear_goto_scan 1000 h) = Ok true
  /\ jumps_to_sink (il (snd (clear_goto_scan 1000 h))) {| start := 0; end_ := 1 |}.
Proof.
  intros h. split; [reflexivity|].
  exact (X3_no_jump_chain_after_scan 1000 h true (snd (clear_goto_scan 1000 h))
           eq_refl {| start := 0; end_ := 1 |} (or_introl eq_refl)).
Defined.

Lemma X4_witness :
  let h := fresh_heap single_jump_il in
  fst (clear_if_scan 1000 h) = Ok true
  /\ branches_to_sinks (il (snd (clear_if_scan 1000 h))) {| start := 0; end_ := 1 |}.
Proof.
  intros h. split; [reflexivity|].
  exact (X4_branch_arms_at_sinks_after_scan 1000 h true
           (snd (clear_if_scan 1000 h)) eq_refl {| start := 0; end_ := 1 |}
           (or_introl eq_refl)).
Defined.

Lemma X7_witness :
  let h := fresh_heap jump_chain_il in
  let h' := snd (clear_goto_scan 1000 h) in
  clear_goto_scan 1000 h = (Ok true, h')
  /\ clear_goto_scan 1000 h' = (Ok false, h').
Proof.
  intros h h'. split; [reflexivity|].
  exact (proj1 (proj2 (X7_second_scan_finds_nothing 1000 h true h' ltac:(lia)))
           eq_refl).
Defined.

Lemma X9_witness :
  let h := fresh_heap dangling_il in
  let bb := {| start := 0; end_ := 1 |} in
  lookup_instr dangling_il 5 = None
  /\ clear_goto_block 1000 bb h = (Raise IndexError, h).
Proof.
  intros h bb. split; [reflexivity|].
  exact (proj1 (X9_missing_target_is_index_error 1000 bb h
                  {| instr_index := 0; expr_index := 0; node := MLIL_GOTO 5 |}
                  ltac:(lia) eq_refl) 5 eq_refl eq_refl).
Defined.

Lemma X10_witness :
  let h := fresh_heap dangling_il in
  let bb := {| start := 0; end_ := 1 |} in
  merge_candidate incoming_blocks bb h = (Raise AttributeError, h)
  /\ merge_scan_blocks incoming_blocks [bb] h = (Raise AttributeError, h).
Proof.
  intros h bb.
  apply (X10_jump_outside_blocks_is_attribute_error incoming_blocks bb [] h
           {| instr_index := 0; expr_index := 0; node := MLIL_GOTO 5 |} 5
           eq_refl eq_refl).
  intros b [<-|[]]. simpl. lia.
Defined.

Lemma single_jump_il_closed : store_closed (exprs single_jump_il).
Proof.
  intros e c t f H.
  destruct e as [|[|[|[|[|e]]]]]; simpl in H; try discriminate.
  injection H as <- _ _. simpl. lia.
Qed.

Lemma X12_witness :
  let h := fresh_heap single_jump_il in
  let first := {| instr_index := 3; expr_index := 3; node := MLIL_RET [] |} in
  let p := {| instr_index := 0; expr_index := 0; node := MLIL_IF 4 1 2 |} in
  fst (merge_block [first] [p] h) = Raise (Exception "Invalid if condition").
Proof.
  intros h first p.
  assert (Hxs : Forall (condition_below (length (exprs (il h)))) [first]).
  { constructor; [|constructor]. intros c0 t0 f0 E. discriminate. }
  assert (Hps : Forall (condition_below (length (exprs (il h)))) [p]).
  { constructor; [|constructor].
    intros c0 t0 f0 E. injection E as <- _ _. simpl. lia. }
  apply (proj1 (X12_merge_block_fatal_exactly first [] [p] h
                  single_jump_il_closed Hxs Hps eq_refl)).
  exists p, 4, 1, 2.
  split; [now left|]. split; [reflexivity|]. split; simpl; lia.
Defined.

Lemma X15_witness :
  let h := fresh_heap assign_jump_il in
  let block := {| start := 1; end_ := 3 |} in
  fst (merge_candidate incoming_blocks block h) = Ok true
  /\ exists next_block instrs pre_instrs,
       is_merge_candidate incoming_blocks h block next_block instrs pre_instrs
       /\ merge_block instrs pre_instrs h
          = (Ok true, snd (merge_candidate incoming_blocks block h)).
Proof.
  intros h block. split; [reflexivity|].
  destruct (X15_merge_only_for_candidates incoming_blocks block h
              (snd (merge_candidate incoming_blocks block h)) eq_refl)
    as (nb & xs & ps & Hc & Hm & _).
  exists nb, xs, ps. split; assumption.
Defined.

Lemma X17_witness :
  let h := fresh_heap assign_jump_il in
  let xs := [{| instr_index := 1; expr_index := 1;
                node := MLIL_SET_VAR 0 (MLIL_CONST 1) |};
             {| instr_index := 4; expr_index := 4; node := MLIL_RET [] |}] in
  let pre := [{| instr_index := 0; expr_index := 0; node := MLIL_IF 5 1 3 |}] in
  let h' := snd (merge_block xs pre h) in
  merge_block xs pre h = (Ok true, h')
  /\ length (instrs (il h')) = 7
  /\ copied_at (il h') {| instr_index := 4; expr_index := 4; node := MLIL_RET [] |} 6.
Proof.
  intros h xs pre h'.
  assert (Hm : merge_block xs pre h = (Ok true, h')) by reflexivity.
  assert (Hp : Forall (fun p => expr_index p < length (exprs (il h))) pre).
  { constructor; [simpl; lia|constructor]. }
  destruct (X17_merge_appends_copies xs pre h h' Hm Hp) as (Hlen & _ & Hcopy & _).
  split; [exact Hm|]. split; [exact Hlen|].
  exact (Hcopy 1 _ eq_refl).
Defined.

Lemma X18_witness :
  let h := fresh_heap assign_jump_il in
  let xs := [{| instr_index := 1; expr_index := 1;
                node := MLIL_SET_VAR 0 (MLIL_CONST 1) |};
             {| instr_index := 4; expr_index := 4; node := MLIL_RET [] |}] in
  let p := {| instr_index := 0; expr_index := 0; node := MLIL_IF 5 1 3 |} in
  let h' := snd (merge_block xs [p] h) in
  merge_block xs [p] h = (Ok true, h')
  /\ exists n',
       exprs (il h') !! 0 = Some n'
       /\ redirected 1 5 (MLIL_IF 5 1 3) n'.
Proof.
  intros h xs p h'.
  assert (Hm : merge_block xs [p] h = (Ok true, h')) by reflexivity.
  split; [exact Hm|].
  destruct (X18_merge_redirects_predecessors xs [p] h h' p Hm)
    as (n' & Hn' & Hr & _).
  - constructor; [simpl; lia|constructor].
  - now left.
  - intros q [<-|[]] _. reflexivity.
  - exists n'. split; assumption.
Defined.

Lemma X19_witness :
  let h := fresh_heap jump_chain_il in
  let h1 := snd (clear_goto_scan 1000 (snd (tick_scan h))) in
  clear_goto_scan 1000 (snd (tick_scan h)) = (Ok true, h1)
  /\ regenerate_metadata (finalize_blocks (il h1)) = il h1
  /\ fixed_point_loop finalize_blocks regenerate_metadata (clear_goto_scan 1000) 3 h
     = (Ok tt, snd (tick_scan h1)).
Proof.
  intros h h1. split; [reflexivity|]. split; [reflexivity|].
  exact (proj1 (proj2 (X19_loop_ends_at_second_scan finalize_blocks
                         regenerate_metadata 1000 1 h h1 ltac:(lia) eq_refl))
           eq_refl).
Defined.

Lemma X20_witness :
  let m := {| exprs := []; instrs := []; basic_blocks := [] |} in
  pass_clear_goto finalize_blocks regenerate_metadata 1000 (fresh_world m)
  = (Ok tt, fresh_world m).
Proof.
  intros m.
  exact (proj1 (proj2 (X20_no_blocks_no_scan finalize_blocks regenerate_metadata
                         incoming_blocks 1000 (fresh_world m) m eq_refl eq_refl))).
Defined.


(** * The passes on whole functions *)

(** ** From the context to the heap and back *)

(** The heap a pass starts on, and the world it leaves. *)
Definition pass_heap (w : World) (m : MediumLevelILFunction) : Heap :=
  {| il := m; log := messages w; scans := scan_count w |}.

Definition to_world (w : World) (h : Heap) : World :=
  {| analysis_context :=
       {| mlil := Some (il h); function := function (analysis_context w) |};
     messages := log h;
     scan_count := scans h |}.

Lemma on_mlil_eq m body w :
  on_mlil m body w
  = (fst (body (pass_heap w m)), to_world w (snd (body (pass_heap w m)))).
Proof.
  unfold on_mlil, pass_heap, to_world.
  now destruct (body {| il := m; log := messages w; scans := scan_count w |}).
Qed.

(** The body of a pass around the scan [scan], with the number of scans
    allowed for a function. *)
Definition pass_body
    (finalize generate_ssa_form : MediumLevelILFunction -> MediumLevelILFunction)
    (scan : IL bool) (cap : MediumLevelILFunction -> nat) : IL unit :=
  let* m := get_il in
  run fixed_point_loop finalize generate_ssa_form scan (cap m) then
  run mlil_finalize finalize then
  mlil_generate_ssa_form generate_ssa_form.

Lemma closing_eq
    (finalize generate_ssa_form : MediumLevelILFunction -> MediumLevelILFunction) h :
  (run mlil_finalize finalize then mlil_generate_ssa_form generate_ssa_form) h
  = (Ok tt, rederived finalize generate_ssa_form h).
Proof. reflexivity. Qed.

(** When the first scan has ended normally, [finalize] and
    [generate_ssa_form] leave the function as that scan left it, and a scan
    of that function finds nothing, the pass ends with that function. *)
Lemma pass_body_settles
    (finalize generate_ssa_form : MediumLevelILFunction -> MediumLevelILFunction)
    (scan : IL bool) (cap : MediumLevelILFunction -> nat) h u h1 :
  (forall h2, il h2 = il h1 -> scan h2 = (Ok false, h2)) ->
  generate_ssa_form (finalize (il h1)) = il h1 ->
  scan (snd (tick_scan h)) = (Ok u, h1) ->
  (cap (il h) = 0 -> il h1 = il h /\ log h1 = log h) ->
  exists h',
    pass_body finalize generate_ssa_form scan cap h = (Ok tt, h')
    /\ il h' = il h1 /\ log h' = log h1.
Proof.
  intros Hidle Hfix Hscan Hzero. unfold pass_body.
  unfold bind at 1, get_il.
  assert (Hre : forall h0, il h0 = il h1 ->
                  rederived finalize generate_ssa_form h0 = h0).
  { intros h0 E. unfold rederived. rewrite E, Hfix, <- E. apply heap_eta. }
  destruct (cap (il h)) as [|[|n]] eqn:Hcap.
  - destruct (Hzero eq_refl) as [Hil Hlog].
    simpl. unfold bind at 1. simpl. rewrite closing_eq.
    eexists. split; [reflexivity|]. unfold rederived. simpl.
    now rewrite <- Hil, Hfix, Hlog.
  - destruct u.
    + rewrite (bind_ok _ _ _ _ _
                 (eq_trans (fixed_point_loop_continue _ _ _ 0 _ _ Hscan) eq_refl)).
      rewrite closing_eq, !(Hre h1 eq_refl). eauto.
    + rewrite (bind_ok _ _ _ _ _ (fixed_point_loop_stop _ _ _ 0 _ _ Hscan)).
      rewrite closing_eq, (Hre h1 eq_refl). eauto.
  - destruct u.
    + rewrite (bind_ok _ _ _ _ _
                 (loop_ends_at_second_scan _ _ _ n _ _ Hidle Hfix Hscan)).
      rewrite closing_eq, Hre by reflexivity. eauto.
    + rewrite (bind_ok _ _ _ _ _ (fixed_point_loop_stop _ _ _ (S n) _ _ Hscan)).
      rewrite closing_eq, (Hre h1 eq_refl). eauto.
Qed.

(** An exception of the first scan leaves the pass at once: [finalize] and
    [generate_ssa_form] are not run. *)
Lemma pass_body_raises
    (finalize generate_ssa_form : MediumLevelILFunction -> MediumLevelILFunction)
    (scan : IL bool) (cap : MediumLevelILFunction -> nat) h e h1 :
  cap (il h) <> 0 ->
  scan (snd (tick_scan h)) = (Raise e, h1) ->
  pass_body finalize generate_ssa_form scan cap h = (Raise e, h1).
Proof.
  intros Hcap Hscan. unfold pass_body. unfold bind at 1, get_il.
  destruct (cap (il h)) as [|n]; [congruence|].
  unfold bind at 1. simpl. unfold bind at 1. simpl. unfold bind at 1.
  simpl in Hscan. now rewrite Hscan.
Qed.

(** ** Blocks, their last instructions and the store *)

(** The instruction [x] with another node. *)
Definition with_node (x : MediumLevelILInstruction) (n : Node)
    : MediumLevelILInstruction :=
  {| instr_index := instr_index x; expr_index := expr_index x; node := n |}.

Lemma with_node_same x : with_node x (node x) = x.
Proof. now destruct x. Qed.

(** The expression at [e] is the last instruction of one of the blocks
    [bbs]. *)
Definition ends_block_in (bbs : list MediumLevelILBasicBlock)
    (m : MediumLevelILFunction) (e : nat) : Prop :=
  exists bb x, In bb bbs /\ terminator m bb = Some x /\ expr_index x = e.

Lemma ends_block_in_snoc done bb m e :
  ends_block_in (done ++ [bb]) m e ->
  ends_block_in done m e \/ exists x, terminator m bb = Some x /\ expr_index x = e.
Proof.
  intros (bb0 & x & Hin & Hx & He). apply in_app_or in Hin as [Hin|[<-|[]]].
  - left. exists bb0, x. auto.
  - right. eauto.
Qed.

Lemma ends_block_in_mono done bb m e :
  ends_block_in done m e -> ends_block_in (done ++ [bb]) m e.
Proof.
  intros (bb0 & x & Hin & Hx & He). exists bb0, x. split; [|auto].
  apply in_or_app. now left.
Qed.

Lemma ends_block_in_last done bb m x :
  terminator m bb = Some x -> ends_block_in (done ++ [bb]) m (expr_index x).
Proof.
  intros Hx. exists bb, x. split; [|auto]. apply in_or_app. right. now left.
Qed.

Lemma terminator_node m bb x :
  terminator m bb = Some x -> exprs m !! expr_index x = Some (node x).
Proof.
  unfold terminator. destruct (start bb <? end_ bb); [|discriminate].
  intros H. now apply lookup_instr_Some in H.
Qed.

(** A block that had a last instruction still has it when the instruction
    list is the same and its expression is still in the store. *)
Lemma terminator_with_node m m' bb x n' :
  instrs m' = instrs m ->
  terminator m bb = Some x ->
  exprs m' !! expr_index x = Some n' ->
  terminator m' bb = Some (with_node x n').
Proof.
  unfold terminator. intros Hin. destruct (start bb <? end_ bb); [|discriminate].
  intros H Hn'. apply lookup_instr_Some in H as (Hi & He & _).
  unfold lookup_instr. rewrite Hin, He, Hn'. unfold with_node. now rewrite Hi.
Qed.

Lemma overwrites_at m1 m2 e n extra :
  overwrites m1 m2 e n extra -> exprs m2 !! e = Some n.
Proof.
  intros (Hex & _ & _ & He). rewrite Hex.
  apply list_lookup_insert_eq. rewrite length_app. lia.
Qed.

Lemma overwrites_other m1 m2 e n extra j :
  overwrites m1 m2 e n extra ->
  j <> e -> j < length (exprs m1) -> exprs m2 !! j = exprs m1 !! j.
Proof.
  intros (Hex & _ & _ & He) Hne Hj. rewrite Hex.
  now apply lookup_after_rewrite.
Qed.

Lemma overwrites_length m1 m2 e n extra :
  overwrites m1 m2 e n extra -> length (exprs m1) <= length (exprs m2).
Proof.
  intros (Hex & _ & _ & _). rewrite Hex, length_insert, length_app. lia.
Qed.

(** What the steps of a scan made so far keep of the function [m] it began
    with: the instruction list, the blocks, and every node of the store that
    is not the last instruction of one of the blocks [done]. *)
Definition framed (done : list MediumLevelILBasicBlock)
    (m m' : MediumLevelILFunction) : Prop :=
  instrs m' = instrs m
  /\ basic_blocks m' = basic_blocks m
  /\ length (exprs m) <= length (exprs m')
  /\ forall e, e < length (exprs m) -> ~ ends_block_in done m e ->
       exprs m' !! e = exprs m !! e.

Lemma framed_refl m : framed [] m m.
Proof. repeat split; auto. Qed.

Lemma framed_skip done bb m m' : framed done m m' -> framed (done ++ [bb]) m m'.
Proof.
  intros (Hi & Hb & Hl & Hf). repeat split; auto.
  intros e He Hn. apply Hf; [assumption|].
  intros H. apply Hn. now apply ends_block_in_mono.
Qed.

Lemma framed_overwrites done bb m m1 m2 x n extra :
  framed done m m1 ->
  terminator m bb = Some x ->
  overwrites m1 m2 (expr_index x) n extra ->
  framed (done ++ [bb]) m m2.
Proof.
  intros (Hi & Hb & Hl & Hf) Hx Ho.
  pose proof (overwrites_length _ _ _ _ _ Ho) as Hlen.
  pose proof Ho as (_ & Hi2 & Hb2 & _).
  repeat split; try congruence; try lia.
  intros e He Hn.
  rewrite (overwrites_other _ _ _ _ _ e Ho); [|
    intros ->; apply Hn; now apply ends_block_in_last | lia ].
  apply Hf; [assumption|]. intros H. apply Hn. now apply ends_block_in_mono.
Qed.

Lemma terminator_functional m bb x y :
  terminator m bb = Some x -> terminator m bb = Some y -> x = y.
Proof. congruence. Qed.

(** ** Scans that go through *)

(** A scan in which every step, from a state that satisfies [Inv] for the
    blocks dealt with so far, ends normally in a state that satisfies [Inv]
    with its own block added. *)
Lemma scan_blocks_simulates
    (Inv : list MediumLevelILBasicBlock -> Heap -> Prop)
    (Good : MediumLevelILBasicBlock -> Prop)
    (body : MediumLevelILBasicBlock -> IL bool) :
  (forall done bb h,
     Inv done h -> Good bb ->
     exists u h1, body bb h = (Ok u, h1) /\ Inv (done ++ [bb]) h1) ->
  forall bbs done updated h,
    Inv done h ->
    (forall bb, In bb bbs -> Good bb) ->
    exists v h', scan_blocks body bbs updated h = (Ok v, h')
                 /\ Inv (done ++ bbs) h'.
Proof.
  intros Hstep. induction bbs as [|bb bbs IH]; intros done updated h Hinv Hgood.
  - exists updated, h. rewrite app_nil_r. split; [reflexivity|assumption].
  - destruct (Hstep done bb h Hinv (Hgood bb (or_introl eq_refl)))
      as (u & h1 & E & Hinv1).
    destruct (IH (done ++ [bb]) (updated || u) h1 Hinv1
                (fun b Hb => Hgood b (or_intror Hb))) as (v & h' & E' & Hinv').
    exists v, h'. rewrite <- app_assoc in Hinv'. split; [|exact Hinv'].
    simpl. now rewrite (bind_ok _ _ _ _ _ E).
Qed.

Lemma scan_blocks_app (body : MediumLevelILBasicBlock -> IL bool) pre post :
  forall updated h,
    scan_blocks body (pre ++ post) updated h
    = match scan_blocks body pre updated h with
      | (Ok u, h1) => scan_blocks body post u h1
      | (Raise e, h1) => (Raise e, h1)
      end.
Proof.
  induction pre as [|bb pre IH]; intros updated h; simpl; [reflexivity|].
  unfold bind. destruct (body bb h) as [[u|e] h1]; [|reflexivity].
  apply IH.
Qed.

(** ** [pass_clear_const_if] on a whole function (C4) *)

(** The block has a last instruction; when that is a branch, its condition
    is a node of the store. *)
Definition ends_well (m : MediumLevelILFunction) (bb : MediumLevelILBasicBlock)
    : Prop :=
  exists x,
    terminator m bb = Some x
    /\ forall c t f, node x = MLIL_IF c t f -> c < length (exprs m).

(** What folding makes of a node of [m]: a branch on the literal 1 becomes a
    jump to its true arm, a branch on the literal 0 a jump to its false arm,
    any other node stays. *)
Definition fold_node (m : MediumLevelILFunction) (n : Node) : Node :=
  match n with
  | MLIL_IF c t f =>
      match exprs m !! c with
      | Some (MLIL_VALUE (MLIL_CONST k)) =>
          if (k =? 1)%Z then MLIL_GOTO t
          else if (k =? 0)%Z then MLIL_GOTO f
          else n
      | _ => n
      end
  | _ => n
  end.

Lemma fold_node_cases m n :
  fold_node m n = n \/ exists target, fold_node m n = MLIL_GOTO target.
Proof.
  destruct n as [d|c t f|s|d s|v|]; simpl; auto.
  destruct (exprs m !! c) as [[| | | |[k| | | | | |]|]|]; auto.
  destruct (k =? 1)%Z; [eauto|]. destruct (k =? 0)%Z; eauto.
Qed.

(** The store of [m'] after the blocks [done] of [m] have been dealt with:
    the last instruction of each of them is folded, a node that is the last
    instruction of none of them is as it was, and every node is either as it
    was or folded. *)
Definition folded_store (m : MediumLevelILFunction)
    (done : list MediumLevelILBasicBlock) (m' : MediumLevelILFunction) : Prop :=
  framed done m m'
  /\ (forall e n, exprs m !! e = Some n ->
        exprs m' !! e = Some n \/ exprs m' !! e = Some (fold_node m n))
  /\ (forall bb x, In bb done -> terminator m bb = Some x ->
        exprs m' !! expr_index x = Some (fold_node m (node x))).

Lemma folded_store_start m : folded_store m [] m.
Proof.
  split; [apply framed_refl|]. split; [auto|]. intros bb x [].
Qed.

(** A node is the literal [k] in the current store exactly when it was in
    [m]. *)
Lemma folded_condition m done m' c nc :
  folded_store m done m' ->
  exprs m !! c = Some nc ->
  exists nc',
    exprs m' !! c = Some nc'
    /\ forall k, nc' = MLIL_VALUE (MLIL_CONST k) <-> nc = MLIL_VALUE (MLIL_CONST k).
Proof.
  intros (_ & Hall & _) Hc. destruct (Hall c nc Hc) as [E|E].
  - exists nc. split; [assumption|]. tauto.
  - exists (fold_node m nc). split; [assumption|]. intros k.
    destruct (fold_node_cases m nc) as [->|(target & Ht)]; [tauto|].
    rewrite Ht. split; [discriminate|]. intros ->. discriminate.
Qed.

Lemma folded_store_skip m done bb m' x :
  folded_store m done m' ->
  terminator m bb = Some x ->
  exprs m' !! expr_index x = Some (fold_node m (node x)) ->
  folded_store m (done ++ [bb]) m'.
Proof.
  intros (Hfr & Hall & Hdone) Hx Hcur.
  split; [now apply framed_skip|]. split; [exact Hall|].
  intros bb0 x0 Hin Hx0. apply in_app_or in Hin as [Hin|[<-|[]]].
  - exact (Hdone _ _ Hin Hx0).
  - rewrite (terminator_functional _ _ _ _ Hx0 Hx). exact Hcur.
Qed.

Lemma folded_store_overwrites m done bb m1 m2 x extra :
  folded_store m done m1 ->
  terminator m bb = Some x ->
  overwrites m1 m2 (expr_index x) (fold_node m (node x)) extra ->
  folded_store m (done ++ [bb]) m2.
Proof.
  intros (Hfr & Hall & Hdone) Hx Ho.
  pose proof Hfr as (_ & _ & Hl & _).
  pose proof (terminator_node _ _ _ Hx) as Hnx.
  split; [exact (framed_overwrites done bb m m1 m2 x _ extra Hfr Hx Ho)|]. split.
  - intros e n He. destruct (decide (e = expr_index x)) as [->|Hne].
    + rewrite Hnx in He. injection He as <-. right.
      exact (overwrites_at _ _ _ _ _ Ho).
    + rewrite (overwrites_other _ _ _ _ _ e Ho Hne); [now apply Hall|].
      apply lookup_lt_Some in He. lia.
  - intros bb0 x0 Hin Hx0.
    pose proof (terminator_node _ _ _ Hx0) as Hnx0.
    destruct (decide (expr_index x0 = expr_index x)) as [E|Hne].
    + rewrite E in Hnx0 |- *. rewrite Hnx in Hnx0. injection Hnx0 as <-.
      exact (overwrites_at _ _ _ _ _ Ho).
    + rewrite (overwrites_other _ _ _ _ _ _ Ho Hne);
        [|apply lookup_lt_Some in Hnx0; lia].
      apply in_app_or in Hin as [Hin|[<-|[]]]; [exact (Hdone _ _ Hin Hx0)|].
      rewrite (terminator_functional _ _ _ _ Hx0 Hx) in Hne. congruence.
Qed.

(** One step of the scan, from a store that is folded for the blocks dealt
    with so far. *)
Lemma clear_const_if_block_folds m done bb h :
  folded_store m done (il h) ->
  ends_well m bb ->
  exists u h1,
    clear_const_if_block bb h = (Ok u, h1)
    /\ folded_store m (done ++ [bb]) (il h1)
    /\ log h1 = log h /\ scans h1 = scans h.
Proof.
  intros Hst (x & Hx & Hc).
  pose proof Hst as (Hfr & Hall & Hdone).
  pose proof Hfr as (Hi & _ & _ & _).
  pose proof (terminator_node _ _ _ Hx) as Hnx.
  assert (Hidle : exprs (il h) !! expr_index x = Some (fold_node m (node x)) ->
                  clear_const_if_block bb h = (Ok false, h) ->
                  exists u h1,
                    clear_const_if_block bb h = (Ok u, h1)
                    /\ folded_store m (done ++ [bb]) (il h1)
                    /\ log h1 = log h /\ scans h1 = scans h).
  { intros Hcur E. exists false, h. split; [exact E|]. split; [|auto].
    now apply (folded_store_skip m done bb (il h) x). }
  assert (Hfold : forall target,
             fold_node m (node x) = MLIL_GOTO target ->
             folded_to bb h x target ->
             exists u h1,
               clear_const_if_block bb h = (Ok u, h1)
               /\ folded_store m (done ++ [bb]) (il h1)
               /\ log h1 = log h /\ scans h1 = scans h).
  { intros target Hf (E & _ & _). eexists _, _. split; [exact E|].
    split; [|split; reflexivity].
    apply (folded_store_overwrites m done bb (il h) _ x [MLIL_GOTO target] Hst Hx).
    rewrite Hf. apply overwrites_with_exprs.
    pose proof (terminator_expr_lt _ _ _ Hx). destruct Hfr as (_ & _ & Hl & _). lia. }
  assert (Hcases : exprs (il h) !! expr_index x = Some (node x)
                   \/ exists target,
                        exprs (il h) !! expr_index x = Some (MLIL_GOTO target)
                        /\ fold_node m (node x) = MLIL_GOTO target).
  { destruct (Hall _ _ Hnx) as [E|E]; [now left|].
    destruct (fold_node_cases m (node x)) as [Hs|(target & Ht)].
    - left. now rewrite <- Hs.
    - right. exists target. now rewrite <- Ht. }
  destruct Hcases as [Hcur|(target & Hcur & Hf)].
  - pose proof (terminator_with_node _ _ _ _ _ Hi Hx Hcur) as Hterm.
    rewrite with_node_same in Hterm.
    pose proof (clear_const_if_block_spec bb h x (bb_last_of_terminator _ _ _ Hterm))
      as Hspec.
    destruct (node x) as [d|c t f|s|d s|v|] eqn:Hn;
      try (apply Hidle; [rewrite Hcur; reflexivity|exact Hspec]).
    destruct (lookup_lt_is_Some_2 _ _ (Hc c t f eq_refl)) as (nc & Hnc).
    destruct (folded_condition m done (il h) c nc Hst Hnc) as (nc' & Hnc' & Hk).
    specialize (Hspec nc' Hnc').
    assert (Hother : (forall k, nc <> MLIL_VALUE (MLIL_CONST k)) ->
                     fold_node m (MLIL_IF c t f) = MLIL_IF c t f).
    { intros Hno. simpl. rewrite Hnc.
      destruct nc as [| | | |[k| | | | | |]|]; try reflexivity.
      now destruct (Hno k). }
    destruct nc' as [| | | |[k| | | | | |]|];
      try (apply Hidle; [|exact Hspec]; rewrite Hcur, Hother; [reflexivity|];
           intros k Hk'; apply Hk in Hk'; discriminate).
    pose proof (proj1 (Hk k) eq_refl) as Hnck.
    destruct Hspec as (H1 & H0 & Hno).
    assert (Hfn : fold_node m (MLIL_IF c t f)
                  = if (k =? 1)%Z then MLIL_GOTO t
                    else if (k =? 0)%Z then MLIL_GOTO f else MLIL_IF c t f).
    { simpl. now rewrite Hnc, Hnck. }
    destruct (k =? 1)%Z eqn:K1.
    + apply Z.eqb_eq in K1. apply (Hfold t Hfn). now apply H1.
    + destruct (k =? 0)%Z eqn:K0.
      * apply Z.eqb_eq in K0. apply (Hfold f Hfn). now apply H0.
      * apply Z.eqb_neq in K1, K0.
        apply Hidle; [rewrite Hcur, Hfn; reflexivity|now apply Hno].
  - pose proof (terminator_with_node _ _ _ _ _ Hi Hx Hcur) as Hterm.
    pose proof (clear_const_if_block_spec bb h _ (bb_last_of_terminator _ _ _ Hterm))
      as Hspec.
    simpl in Hspec. apply Hidle; [|exact Hspec]. now rewrite Hf.
Qed.

(** The whole scan. *)
Lemma clear_const_if_scan_folds h :
  (forall bb, In bb (basic_blocks (il h)) -> ends_well (il h) bb) ->
  exists u h1,
    clear_const_if_scan h = (Ok u, h1)
    /\ folded_store (il h) (basic_blocks (il h)) (il h1)
    /\ log h1 = log h /\ scans h1 = scans h.
Proof.
  intros Hgood. unfold clear_const_if_scan. unfold bind at 1, get_il.
  destruct (scan_blocks_simulates
              (fun done h' => folded_store (il h) done (il h')
                              /\ log h' = log h /\ scans h' = scans h)
              (ends_well (il h)) clear_const_if_block) with
    (bbs := basic_blocks (il h)) (done := @nil MediumLevelILBasicBlock)
    (updated := false) (h := h) as (v & h' & E & Hinv); auto.
  - intros done bb h0 (Hst & Hlog & Hsc) Hg.
    destruct (clear_const_if_block_folds _ _ _ _ Hst Hg)
      as (u & h1 & E & Hst1 & Hlog1 & Hsc1).
    exists u, h1. split; [exact E|]. split; [exact Hst1|]. split; congruence.
  - split; [apply folded_store_start|auto].
  - exists v, h'. split; [exact E|exact Hinv].
Qed.

(** The state of a block [bb] of [m] in the function [m'] that the pass
    leaves, [x] being the last instruction of [bb] in [m]. *)
Definition constant_branch_folded (m m' : MediumLevelILFunction)
    (bb : MediumLevelILBasicBlock) : Prop :=
  forall x,
    terminator m bb = Some x ->
    (forall c t f k,
       node x = MLIL_IF c t f ->
       exprs m !! c = Some (MLIL_VALUE (MLIL_CONST k)) ->
       (k = 1%Z -> terminator m' bb = Some (with_node x (MLIL_GOTO t)))
       /\ (k = 0%Z -> terminator m' bb = Some (with_node x (MLIL_GOTO f)))
       /\ (k <> 1%Z -> k <> 0%Z -> terminator m' bb = Some x))
    /\ (forall c t f n,
          node x = MLIL_IF c t f ->
          exprs m !! c = Some n ->
          (forall k, n <> MLIL_VALUE (MLIL_CONST k)) ->
          terminator m' bb = Some x)
    /\ (isinstance_If x = false -> terminator m' bb = Some x).

Lemma folded_store_block m m' bb :
  folded_store m (basic_blocks m) m' ->
  In bb (basic_blocks m) ->
  constant_branch_folded m m' bb.
Proof.
  intros (Hfr & _ & Hdone) Hin x Hx.
  destruct Hfr as (Hi & _).
  pose proof (terminator_with_node _ _ _ _ _ Hi Hx (Hdone bb x Hin Hx)) as Ht.
  split; [|split].
  - intros c t f k Hn Hc. rewrite Hn in Ht. simpl in Ht. rewrite Hc in Ht.
    split; [|split].
    + intros ->. exact Ht.
    + intros ->. exact Ht.
    + intros K1 K0. apply Z.eqb_neq in K1, K0. rewrite K1, K0, <- Hn in Ht.
      now rewrite with_node_same in Ht.
  - intros c t f n Hn Hc Hno. rewrite Hn in Ht. simpl in Ht. rewrite Hc in Ht.
    assert (E : match n with
                | MLIL_VALUE (MLIL_CONST k) =>
                    if (k =? 1)%Z then MLIL_GOTO t
                    else if (k =? 0)%Z then MLIL_GOTO f else MLIL_IF c t f
                | _ => MLIL_IF c t f
                end = MLIL_IF c t f).
    { destruct n as [| | | |[k| | | | | |]|]; try reflexivity. now destruct (Hno k). }
    rewrite E, <- Hn in Ht. now rewrite with_node_same in Ht.
  - intros Hno. unfold isinstance_If in Hno.
    destruct (node x) eqn:Hn; try discriminate; simpl in Ht;
      rewrite <- Hn in Ht; now rewrite with_node_same in Ht.
Qed.

Lemma clear_const_if_body_eq
    (finalize generate_ssa_form : MediumLevelILFunction -> MediumLevelILFunction) :
  clear_const_if_body finalize generate_ssa_form
  = pass_body finalize generate_ssa_form clear_const_if_scan
      (fun m => length (basic_blocks m)).
Proof. reflexivity. Qed.

Lemma settled_world w h' m1 lg :
  il h' = m1 -> log h' = lg ->
  mlil (analysis_context (to_world w h')) = Some m1
  /\ function (analysis_context (to_world w h')) = function (analysis_context w)
  /\ messages (to_world w h') = lg.
Proof. intros <- <-. repeat split. Qed.

(** C4: [pass_clear_const_if] on a function [m] in which every block has a
    last instruction and every branch that ends a block has its condition in
    the store.  The first scan of the pass ends normally, and in the function
    it leaves, for every block of [m]: a last instruction that is a branch on
    the literal 1 has become a jump to the true arm, a branch on the literal
    0 a jump to the false arm, and a branch on any other literal, a branch
    whose condition is not a literal, and a last instruction that is not a
    branch are as they were.  Every node that is not the last instruction of
    a block is as it was, as are the instruction list, the blocks and the
    log.  When [finalize] and [generate_ssa_form] leave that function as it
    is, it is the function the pass ends with. *)
Theorem C4_constant_branch_folding
    (finalize generate_ssa_form : MediumLevelILFunction -> MediumLevelILFunction)
    (w : World) (m : MediumLevelILFunction) :
  mlil (analysis_context w) = Some m ->
  (forall bb, In bb (basic_blocks m) -> ends_well m bb) ->
  exists u h1,
    clear_const_if_scan (snd (tick_scan (pass_heap w m))) = (Ok u, h1)
    /\ (forall bb, In bb (basic_blocks m) -> constant_branch_folded m (il h1) bb)
    /\ (forall e, e < length (exprs m) -> ~ ends_block_in (basic_blocks m) m e ->
          exprs (il h1) !! e = exprs m !! e)
    /\ instrs (il h1) = instrs m
    /\ basic_blocks (il h1) = basic_blocks m
    /\ log h1 = messages w
    /\ (generate_ssa_form (finalize (il h1)) = il h1 ->
        exists w',
          pass_clear_const_if finalize generate_ssa_form w = (Ok tt, w')
          /\ mlil (analysis_context w') = Some (il h1)
          /\ function (analysis_context w') = function (analysis_context w)
          /\ messages w' = messages w).
Proof.
  intros Hm Hgood.
  destruct (clear_const_if_scan_folds (snd (tick_scan (pass_heap w m))) Hgood)
    as (u & h1 & Hscan & Hst & Hlog & _).
  simpl in Hst, Hlog.
  exists u, h1. split; [exact Hscan|].
  pose proof Hst as ((Hi & Hb & _ & Hframe) & _ & _).
  split; [intros bb Hin; now apply folded_store_block|].
  split; [exact Hframe|]. split; [exact Hi|]. split; [exact Hb|].
  split; [exact Hlog|].
  intros Hfix. unfold pass_clear_const_if. rewrite Hm, on_mlil_eq.
  rewrite clear_const_if_body_eq.
  destruct (pass_body_settles finalize generate_ssa_form clear_const_if_scan
              (fun m0 => length (basic_blocks m0)) (pass_heap w m) u h1)
    as (h' & E & Hil & Hlg); auto.
  - intros h2 Hil. unfold clear_const_if_scan. unfold bind at 1, get_il.
    unfold clear_const_if_scan in Hscan. unfold bind at 1, get_il in Hscan.
    apply (scan_idle_on_same_il no_constant_branch clear_const_if_block
             (snd (tick_scan (pass_heap w m))) u h1 clear_const_if_block_step
             clear_const_if_block_idle Hb Hscan h2 Hil).
  - simpl. intros Hz. apply length_zero_iff_nil in Hz.
    unfold clear_const_if_scan in Hscan. unfold bind at 1, get_il in Hscan.
    simpl in Hscan. rewrite Hz in Hscan. simpl in Hscan.
    injection Hscan as _ <-. auto.
  - rewrite E. simpl. exists (to_world w h'). split; [reflexivity|].
    apply settled_world; congruence.
Qed.

(** ** [pass_clear_goto] on a whole function (C5) *)

Lemma lookup_instr_with_node m m' i x n' :
  instrs m' = instrs m ->
  lookup_instr m i = Some x ->
  exprs m' !! expr_index x = Some n' ->
  lookup_instr m' i = Some (with_node x n').
Proof.
  intros Hin H Hn'. apply lookup_instr_Some in H as (Hi & He & _).
  unfold lookup_instr. rewrite Hin, He, Hn'. unfold with_node. now rewrite Hi.
Qed.

(** A chain has one sink. *)
Lemma resolves_to_unique m d k s k' s' :
  resolves_to m d k s -> resolves_to m d k' s' -> s = s' /\ k = k'.
Proof.
  revert d k'. induction k as [|k IH]; intros d k' [Hf Hs] [Hf' Hs'].
  - simpl in Hf. injection Hf as <-. destruct k' as [|k'].
    + simpl in Hf'. injection Hf' as <-. auto.
    + simpl in Hf'. destruct Hs as (x & Hx & Hng). rewrite Hx in Hf'.
      unfold isinstance_Goto in Hng. destruct (node x); discriminate.
  - simpl in Hf. destruct (lookup_instr m d) as [x|] eqn:Hx; [|discriminate].
    destruct (node x) as [d1| | | | |] eqn:Hn; try discriminate.
    destruct k' as [|k'].
    + simpl in Hf'. injection Hf' as <-. destruct Hs' as (x' & Hx' & Hng).
      rewrite Hx in Hx'. injection Hx' as <-.
      unfold isinstance_Goto in Hng. rewrite Hn in Hng. discriminate.
    + simpl in Hf'. rewrite Hx, Hn in Hf'.
      destruct (IH d1 k' (conj Hf Hs) (conj Hf' Hs')) as [-> ->]. auto.
Qed.

(** A chain with a sink does not go on for ever. *)
Lemma resolves_to_not_endless m d k s : resolves_to m d k s -> ~ endless m d.
Proof.
  intros [Hf (x & Hx & Hng)] He. apply (He (S k)).
  replace (S k) with (k + 1) by lia. rewrite follow_add, Hf. simpl. rewrite Hx.
  unfold isinstance_Goto in Hng. destruct (node x); [discriminate|..]; reflexivity.
Qed.

(** The block has a last instruction; when that is a jump, the chain of
    jumps from its target reaches its sink in fewer jumps than [limit]. *)
Definition resolves_within (limit : nat) (m : MediumLevelILFunction)
    (bb : MediumLevelILBasicBlock) : Prop :=
  exists x,
    terminator m bb = Some x
    /\ forall d, node x = MLIL_GOTO d ->
         exists k s, resolves_to m d k s /\ k < limit.

(** [n'] is the node [n] of [m] with its jump taken to the sink of the
    chain. *)
Definition compressed (m : MediumLevelILFunction) (n n' : Node) : Prop :=
  match n with
  | MLIL_GOTO d => exists k s, resolves_to m d k s /\ n' = MLIL_GOTO s
  | _ => n' = n
  end.

(** The store of [m'] after the blocks [done] of [m] have been dealt with. *)
Definition compressed_store (m : MediumLevelILFunction)
    (done : list MediumLevelILBasicBlock) (m' : MediumLevelILFunction) : Prop :=
  framed done m m'
  /\ (forall e n, exprs m !! e = Some n ->
        exists n', exprs m' !! e = Some n' /\ (n' = n \/ compressed m n n'))
  /\ (forall bb x, In bb done -> terminator m bb = Some x ->
        exists n', exprs m' !! expr_index x = Some n' /\ compressed m (node x) n').

Lemma compressed_store_start m : compressed_store m [] m.
Proof.
  split; [apply framed_refl|]. split; [eauto|]. intros bb x [].
Qed.

Lemma compressed_not_goto m n n' :
  is_goto_node n = false -> n' = n \/ compressed m n n' -> n' = n.
Proof. intros Hn [H|H]; [assumption|]. destruct n; try discriminate; exact H. Qed.

Lemma compressed_store_sink m done m' s :
  compressed_store m done m' -> is_sink m s -> is_sink m' s.
Proof.
  intros ((Hi & _) & Hall & _) (x & Hx & Hng).
  pose proof (lookup_instr_Some _ _ _ Hx) as (_ & _ & Hn).
  destruct (Hall _ _ Hn) as (n' & Hn' & Hrel).
  assert (E : n' = node x).
  { apply (compressed_not_goto m); [|assumption].
    unfold isinstance_Goto in Hng. unfold is_goto_node. now destruct (node x). }
  subst n'. exists x. split; [|assumption].
  rewrite (lookup_instr_with_node _ _ _ _ _ Hi Hx Hn'). now rewrite with_node_same.
Qed.

(** The chains of [m] reach the same sinks in the current function, in no
    more jumps. *)
Lemma compressed_store_chain m done m' :
  compressed_store m done m' ->
  forall k d s,
    resolves_to m d k s -> exists k', k' <= k /\ resolves_to m' d k' s.
Proof.
  intros Hst. induction k as [|k IH]; intros d s [Hf Hs].
  - simpl in Hf. injection Hf as <-. exists 0. split; [lia|].
    apply is_sink_resolves. now apply (compressed_store_sink m done).
  - simpl in Hf. destruct (lookup_instr m d) as [x|] eqn:Hx; [|discriminate].
    destruct (node x) as [d1| | | | |] eqn:Hn; try discriminate.
    destruct (IH d1 s (conj Hf Hs)) as (k1 & Hk1 & [Hf1 Hs1]).
    pose proof Hst as ((Hi & _) & Hall & _).
    pose proof (lookup_instr_Some _ _ _ Hx) as (_ & _ & Hnx).
    destruct (Hall _ _ Hnx) as (n' & Hn' & Hrel).
    pose proof (lookup_instr_with_node _ _ _ _ _ Hi Hx Hn') as Hx'.
    rewrite Hn in Hrel. destruct Hrel as [->|(k2 & s2 & Hr2 & ->)].
    + exists (S k1). split; [lia|]. split; [|assumption].
      simpl. rewrite Hx'. simpl. exact Hf1.
    + destruct (resolves_to_unique _ _ _ _ _ _ Hr2 (conj Hf Hs)) as [-> _].
      exists 1. split; [lia|]. split; [|assumption].
      simpl. rewrite Hx'. reflexivity.
Qed.

(** A chain of [m] that never leaves the jumps does not leave them in the
    current function either. *)
Lemma compressed_store_endless m done m' d :
  compressed_store m done m' -> endless m d -> endless m' d.
Proof.
  intros Hst He k. revert d He. induction k as [|k IH]; intros d He.
  - discriminate.
  - destruct (endless_step _ _ He) as (x & d1 & Hx & Hn & He1).
    pose proof Hst as ((Hi & _) & Hall & _).
    pose proof (lookup_instr_Some _ _ _ Hx) as (_ & _ & Hnx).
    destruct (Hall _ _ Hnx) as (n' & Hn' & Hrel).
    pose proof (lookup_instr_with_node _ _ _ _ _ Hi Hx Hn') as Hx'.
    rewrite Hn in Hrel. destruct Hrel as [->|(k2 & s2 & Hr2 & ->)].
    + simpl. rewrite Hx'. simpl. now apply IH.
    + now destruct (resolves_to_not_endless _ _ _ _ Hr2).
Qed.

Lemma compressed_store_skip m done bb m' x n' :
  compressed_store m done m' ->
  terminator m bb = Some x ->
  exprs m' !! expr_index x = Some n' ->
  compressed m (node x) n' ->
  compressed_store m (done ++ [bb]) m'.
Proof.
  intros (Hfr & Hall & Hdone) Hx Hcur Hc.
  split; [now apply framed_skip|]. split; [exact Hall|].
  intros bb0 x0 Hin Hx0. apply in_app_or in Hin as [Hin|[<-|[]]].
  - exact (Hdone _ _ Hin Hx0).
  - rewrite (terminator_functional _ _ _ _ Hx0 Hx). eauto.
Qed.

Lemma compressed_store_overwrites m done bb m1 m2 x n' extra :
  compressed_store m done m1 ->
  terminator m bb = Some x ->
  compressed m (node x) n' ->
  overwrites m1 m2 (expr_index x) n' extra ->
  compressed_store m (done ++ [bb]) m2.
Proof.
  intros (Hfr & Hall & Hdone) Hx Hc Ho.
  pose proof Hfr as (_ & _ & Hl & _).
  pose proof (terminator_node _ _ _ Hx) as Hnx.
  split; [exact (framed_overwrites done bb m m1 m2 x _ extra Hfr Hx Ho)|]. split.
  - intros e n He. destruct (decide (e = expr_index x)) as [->|Hne].
    + rewrite Hnx in He. injection He as <-. exists n'.
      split; [exact (overwrites_at _ _ _ _ _ Ho)|now right].
    + rewrite (overwrites_other _ _ _ _ _ e Ho Hne); [now apply Hall|].
      apply lookup_lt_Some in He. lia.
  - intros bb0 x0 Hin Hx0.
    pose proof (terminator_node _ _ _ Hx0) as Hnx0.
    destruct (decide (expr_index x0 = expr_index x)) as [E|Hne].
    + rewrite E in Hnx0 |- *. rewrite Hnx in Hnx0. injection Hnx0 as <-.
      exists n'. split; [exact (overwrites_at _ _ _ _ _ Ho)|assumption].
    + rewrite (overwrites_other _ _ _ _ _ _ Ho Hne);
        [|apply lookup_lt_Some in Hnx0; lia].
      apply in_app_or in Hin as [Hin|[<-|[]]]; [exact (Hdone _ _ Hin Hx0)|].
      rewrite (terminator_functional _ _ _ _ Hx0 Hx) in Hne. congruence.
Qed.

(** The last instruction of a block of [m] in the current function. *)
Lemma compressed_store_terminator m done m' bb x :
  compressed_store m done m' ->
  terminator m bb = Some x ->
  exists n',
    terminator m' bb = Some (with_node x n')
    /\ exprs m' !! expr_index x = Some n'
    /\ (n' = node x \/ compressed m (node x) n').
Proof.
  intros ((Hi & _) & Hall & _) Hx.
  destruct (Hall _ _ (terminator_node _ _ _ Hx)) as (n' & Hn' & Hrel).
  exists n'. split; [|auto]. exact (terminator_with_node _ _ _ _ _ Hi Hx Hn').
Qed.

(** One step of the scan, from a store that is compressed for the blocks
    dealt with so far. *)
Lemma clear_goto_block_compresses limit m done bb h :
  compressed_store m done (il h) ->
  resolves_within limit m bb ->
  exists u h1,
    clear_goto_block limit bb h = (Ok u, h1)
    /\ compressed_store m (done ++ [bb]) (il h1)
    /\ scans h1 = scans h.
Proof.
  intros Hst (x & Hx & Hres).
  destruct (compressed_store_terminator _ _ _ _ _ Hst Hx) as (n' & Hterm & Hcur & Hrel).
  pose proof (bb_last_of_terminator _ _ _ Hterm) as Hlast.
  destruct (is_goto_node (node x)) eqn:Hg.
  - destruct (node x) as [d| | | | |] eqn:Hn; try discriminate.
    destruct (Hres d eq_refl) as (k & s & Hr & Hk).
    assert (Hd' : exists d' kk, n' = MLIL_GOTO d' /\ resolves_to m d' kk s /\ kk <= k).
    { destruct Hrel as [->|(k2 & s2 & Hr2 & ->)].
      - exists d, k. auto.
      - destruct (resolves_to_unique _ _ _ _ _ _ Hr2 Hr) as [-> _].
        exists s, 0. split; [reflexivity|]. split; [|lia].
        apply is_sink_resolves. now destruct Hr. }
    destruct Hd' as (d' & kk & -> & Hr' & Hkk).
    destruct (compressed_store_chain _ _ _ Hst _ _ _ Hr') as (k' & Hk' & Hrcur).
    destruct (clear_goto_block_spec limit bb h _ d' k' s Hlast eq_refl Hrcur
                ltac:(lia)) as [Hsame Hdiff].
    assert (Hcomp : compressed m (MLIL_GOTO d) (MLIL_GOTO s)).
    { exists k, s. auto. }
    destruct (Nat.eq_dec s d') as [E|E].
    + exists false, h. split; [now apply Hsame|]. split; [|reflexivity].
      apply (compressed_store_skip m done bb (il h) x (MLIL_GOTO d')); auto.
      rewrite Hn, <- E. exact Hcomp.
    + destruct (Hdiff E) as (lg & Hstep & _). simpl in Hstep.
      eexists _, _. split; [exact Hstep|]. split; [|reflexivity].
      apply (compressed_store_overwrites m done bb (il h) _ x (MLIL_GOTO s)
               [MLIL_GOTO s] Hst Hx).
      * now rewrite Hn.
      * apply (overwrites_with_exprs (with_log h lg)).
        simpl. now apply lookup_lt_Some in Hcur.
  - assert (E : n' = node x) by now apply (compressed_not_goto m).
    subst n'. rewrite with_node_same in Hlast.
    exists false, h. split; [|split; [|reflexivity]].
    + unfold clear_goto_block. rewrite (bind_ok _ _ _ _ _ Hlast).
      destruct (node x); try reflexivity. discriminate.
    + apply (compressed_store_skip m done bb (il h) x (node x)); auto.
      destruct (node x); try reflexivity. discriminate.
Qed.

(** The scan of a list of blocks. *)
Lemma clear_goto_scan_blocks_compresses limit m bbs :
  forall done updated h,
    compressed_store m done (il h) ->
    (forall bb, In bb bbs -> resolves_within limit m bb) ->
    exists v h1,
      scan_blocks (clear_goto_block limit) bbs updated h = (Ok v, h1)
      /\ compressed_store m (done ++ bbs) (il h1)
      /\ scans h1 = scans h.
Proof.
  intros done updated h Hst Hgood.
  destruct (scan_blocks_simulates
              (fun done h' => compressed_store m done (il h') /\ scans h' = scans h)
              (resolves_within limit m) (clear_goto_block limit)) with
    (bbs := bbs) (done := done) (updated := updated) (h := h)
    as (v & h' & E & Hinv); auto.
  - intros done0 bb h0 (Hst0 & Hsc) Hg.
    destruct (clear_goto_block_compresses limit m done0 bb h0 Hst0 Hg)
      as (u & h1 & E & Hst1 & Hsc1).
    exists u, h1. split; [exact E|]. split; [exact Hst1|congruence].
  - exists v, h'. split; [exact E|exact Hinv].
Qed.

(** The state of a block [bb] of [m] in the function [m'] that the pass
    leaves, [x] being the last instruction of [bb] in [m]: a jump goes
    to the sink of its chain, which leaves it as it was when its target is
    the sink already; any other last instruction is as it was. *)
Definition jump_chain_compressed (m m' : MediumLevelILFunction)
    (bb : MediumLevelILBasicBlock) : Prop :=
  forall x,
    terminator m bb = Some x ->
    (forall d k s,
       node x = MLIL_GOTO d ->
       resolves_to m d k s ->
       terminator m' bb = Some (with_node x (MLIL_GOTO s))
       /\ (s = d -> terminator m' bb = Some x))
    /\ (isinstance_Goto x = false -> terminator m' bb = Some x).

Lemma compressed_store_block m done m' bb :
  compressed_store m done m' ->
  In bb done ->
  jump_chain_compressed m m' bb.
Proof.
  intros Hst Hin x Hx.
  pose proof Hst as ((Hi & _) & _ & Hdone).
  destruct (Hdone bb x Hin Hx) as (n' & Hn' & Hc).
  pose proof (terminator_with_node _ _ _ _ _ Hi Hx Hn') as Ht.
  split.
  - intros d k s Hn Hr. rewrite Hn in Hc. destruct Hc as (k2 & s2 & Hr2 & ->).
    destruct (resolves_to_unique _ _ _ _ _ _ Hr2 Hr) as [-> _].
    split; [exact Ht|]. intros ->. rewrite <- Hn in Ht.
    now rewrite with_node_same in Ht.
  - intros Hng. unfold isinstance_Goto in Hng.
    destruct (node x) eqn:Hn; try discriminate; simpl in Hc; subst n';
      rewrite <- Hn in Ht; now rewrite with_node_same in Ht.
Qed.

Lemma clear_goto_body_eq
    (finalize generate_ssa_form : MediumLevelILFunction -> MediumLevelILFunction)
    limit :
  clear_goto_body finalize generate_ssa_form limit
  = pass_body finalize generate_ssa_form (clear_goto_scan limit)
      (fun m => length (basic_blocks m)).
Proof. reflexivity. Qed.

Lemma clear_goto_scan_eq limit h :
  clear_goto_scan limit h
  = scan_blocks (clear_goto_block limit) (basic_blocks (il h)) false h.
Proof. reflexivity. Qed.

(** C5, as the code has it.  When every block of the function [m] has a last
    instruction and the chain of every jump that ends a block reaches its
    sink in fewer jumps than the recursion limit, the first scan of
    [pass_clear_goto] ends normally, and in the function it leaves every
    block that ended in a jump ends in a jump to the sink of its chain (the
    jump is as it was when its target was the sink already), every other
    last instruction and every node that is not the last instruction of a
    block is as it was, as are the instruction list and the blocks; when
    [finalize] and [generate_ssa_form] leave that function as it is, it is
    the function the pass ends with.  When a block ends in a jump into a
    chain that never leaves the jumps, and the blocks before it are as
    above, the pass ends in [RecursionError] at that block: the blocks
    before it have been compressed, and no node that is not the last
    instruction of one of them has been touched. *)
Theorem C5_jump_chain_compression
    (finalize generate_ssa_form : MediumLevelILFunction -> MediumLevelILFunction)
    (limit : nat) (w : World) (m : MediumLevelILFunction) :
  mlil (analysis_context w) = Some m ->
  let h0 := snd (tick_scan (pass_heap w m)) in
  ((forall bb, In bb (basic_blocks m) -> resolves_within limit m bb) ->
   exists u h1,
     clear_goto_scan limit h0 = (Ok u, h1)
     /\ (forall bb, In bb (basic_blocks m) -> jump_chain_compressed m (il h1) bb)
     /\ (forall e, e < length (exprs m) -> ~ ends_block_in (basic_blocks m) m e ->
           exprs (il h1) !! e = exprs m !! e)
     /\ instrs (il h1) = instrs m
     /\ basic_blocks (il h1) = basic_blocks m
     /\ (0 < limit ->
         generate_ssa_form (finalize (il h1)) = il h1 ->
         exists w',
           pass_clear_goto finalize generate_ssa_form limit w = (Ok tt, w')
           /\ mlil (analysis_context w') = Some (il h1)
           /\ function (analysis_context w') = function (analysis_context w)
           /\ messages w' = log h1))
  /\ (forall pre bb post x d,
        basic_blocks m = pre ++ bb :: post ->
        (forall b, In b pre -> resolves_within limit m b) ->
        terminator m bb = Some x ->
        node x = MLIL_GOTO d ->
        endless m d ->
        exists h1,
          clear_goto_scan limit h0 = (Raise RecursionError, h1)
          /\ pass_clear_goto finalize generate_ssa_form limit w
             = (Raise RecursionError, to_world w h1)
          /\ (forall b, In b pre -> jump_chain_compressed m (il h1) b)
          /\ (forall e, e < length (exprs m) -> ~ ends_block_in pre m e ->
                exprs (il h1) !! e = exprs m !! e)).
Proof.
  intros Hm h0. split.
  - intros Hgood.
    destruct (clear_goto_scan_blocks_compresses limit m (basic_blocks m) [] false h0
                (compressed_store_start m) Hgood) as (u & h1 & Hscan & Hst & _).
    simpl in Hst.
    exists u, h1. split; [exact Hscan|].
    pose proof Hst as ((Hi & Hb & _ & Hframe) & _ & _).
    split; [intros bb Hin; now apply (compressed_store_block m (basic_blocks m))|].
    split; [exact Hframe|]. split; [exact Hi|]. split; [exact Hb|].
    intros Hl Hfix. unfold pass_clear_goto. rewrite Hm, on_mlil_eq.
    rewrite clear_goto_body_eq.
    destruct (pass_body_settles finalize generate_ssa_form (clear_goto_scan limit)
                (fun m0 => length (basic_blocks m0)) (pass_heap w m) u h1)
      as (h' & E & Hil & Hlg); auto.
    + intros h2 Hil. rewrite clear_goto_scan_eq.
      apply (scan_idle_on_same_il jumps_to_sink (clear_goto_block limit)
               h0 u h1 (clear_goto_block_step limit)
               (fun bb h3 => clear_goto_block_idle limit bb h3 Hl) Hb Hscan h2 Hil).
    + simpl. intros Hz. apply length_zero_iff_nil in Hz.
      rewrite Hz in Hscan. simpl in Hscan.
      injection Hscan as _ <-. auto.
    + rewrite E. simpl. exists (to_world w h'). split; [reflexivity|].
      apply settled_world; congruence.
  - intros pre bb post x d Hbb Hgood Hx Hn He.
    destruct (clear_goto_scan_blocks_compresses limit m pre [] false h0
                (compressed_store_start m) Hgood) as (u & h1 & Hscan & Hst & _).
    simpl in Hst.
    destruct (compressed_store_terminator _ _ _ _ _ Hst Hx) as (n' & Hterm & _ & Hrel).
    assert (E : n' = MLIL_GOTO d).
    { rewrite Hn in Hrel. destruct Hrel as [->|(k & s & Hr & _)]; [reflexivity|].
      now destruct (resolves_to_not_endless _ _ _ _ Hr). }
    subst n'.
    pose proof (clear_goto_block_cycle limit bb h1 _ d
                  (bb_last_of_terminator _ _ _ Hterm) eq_refl
                  (compressed_store_endless _ _ _ _ Hst He)) as Hraise.
    assert (Hs : clear_goto_scan limit h0 = (Raise RecursionError, h1)).
    { rewrite clear_goto_scan_eq. unfold h0 at 1. simpl basic_blocks.
      rewrite Hbb, scan_blocks_app, Hscan. simpl.
      now rewrite (bind_raise _ _ _ _ _ Hraise). }
    exists h1. split; [exact Hs|]. split; [|split].
    + unfold pass_clear_goto. rewrite Hm, on_mlil_eq, clear_goto_body_eq.
      assert (Hcap : length (basic_blocks (il (pass_heap w m))) <> 0).
      { simpl. rewrite Hbb, length_app. simpl. lia. }
      rewrite (pass_body_raises finalize generate_ssa_form (clear_goto_scan limit)
                 (fun m0 => length (basic_blocks m0)) (pass_heap w m)
                 RecursionError h1 Hcap Hs).
      reflexivity.
    + intros b Hin. now apply (compressed_store_block m pre).
    + now destruct Hst as ((_ & _ & _ & Hframe) & _).
Qed.

(** ** [pass_clear_if] on a whole function (C6) *)

(** The block has a last instruction; when that is a branch, its condition
    is a value expression of the store and the chains from its two arms
    reach their sinks in fewer jumps than [limit]. *)
Definition arms_resolve_within (limit : nat) (m : MediumLevelILFunction)
    (bb : MediumLevelILBasicBlock) : Prop :=
  exists x,
    terminator m bb = Some x
    /\ forall c t f, node x = MLIL_IF c t f ->
         (exists cn, exprs m !! c = Some (MLIL_VALUE cn))
         /\ (exists k s, resolves_to m t k s /\ k < limit)
         /\ (exists k s, resolves_to m f k s /\ k < limit).

(** [n'] is the node [n] of [m] with its arms taken to the sinks of their
    chains: the branch itself when both arms were at their sinks, otherwise
    a branch on a new node of the store [ex'] that holds what the condition
    of [n] holds. *)
Definition arms_redirected (m : MediumLevelILFunction) (ex' : list Node)
    (n n' : Node) : Prop :=
  match n with
  | MLIL_IF c t f =>
      exists c' kt st kf sf,
        resolves_to m t kt st
        /\ resolves_to m f kf sf
        /\ n' = MLIL_IF c' st sf
        /\ ((c' = c /\ st = t /\ sf = f)
            \/ (length (exprs m) <= c'
                /\ (st <> t \/ sf <> f)
                /\ exists cn, exprs m !! c = Some (MLIL_VALUE cn)
                              /\ ex' !! c' = Some (MLIL_VALUE cn)))
  | _ => n' = n
  end.

(** The store of [m'] after the blocks [done] of [m] have been dealt with. *)
Definition redirected_store (m : MediumLevelILFunction)
    (done : list MediumLevelILBasicBlock) (m' : MediumLevelILFunction) : Prop :=
  framed done m m'
  /\ (forall e n, exprs m !! e = Some n ->
        exists n', exprs m' !! e = Some n'
                   /\ (n' = n \/ arms_redirected m (exprs m') n n'))
  /\ (forall bb x, In bb done -> terminator m bb = Some x ->
        exists n', exprs m' !! expr_index x = Some n'
                   /\ arms_redirected m (exprs m') (node x) n').

Lemma redirected_store_start m : redirected_store m [] m.
Proof.
  split; [apply framed_refl|]. split; [eauto|]. intros bb x [].
Qed.

Lemma arms_redirected_not_if m ex' n n' :
  (forall c t f, n <> MLIL_IF c t f) ->
  n' = n \/ arms_redirected m ex' n n' -> n' = n.
Proof.
  intros Hn [H|H]; [assumption|]. destruct n; try exact H. now destruct (Hn condition true false).
Qed.

Lemma arms_redirected_kind m ex' n n' :
  n' = n \/ arms_redirected m ex' n n' -> is_goto_node n' = is_goto_node n.
Proof.
  intros [->|H]; [reflexivity|]. destruct n; simpl in H; try (now subst).
  destruct H as (c' & kt & st & kf & sf & _ & _ & -> & _). reflexivity.
Qed.

(** A jump of [m] is the same jump in the current function. *)
Lemma redirected_store_goto m done m' i x d :
  redirected_store m done m' ->
  lookup_instr m i = Some x ->
  node x = MLIL_GOTO d ->
  lookup_instr m' i = Some x.
Proof.
  intros ((Hi & _) & Hall & _) Hx Hn.
  pose proof (lookup_instr_Some _ _ _ Hx) as (_ & _ & Hnx).
  destruct (Hall _ _ Hnx) as (n' & Hn' & Hrel).
  assert (E : n' = node x).
  { apply (arms_redirected_not_if m (exprs m')); [|assumption].
    rewrite Hn. discriminate. }
  subst n'. rewrite (lookup_instr_with_node _ _ _ _ _ Hi Hx Hn').
  now rewrite with_node_same.
Qed.

Lemma redirected_store_sink m done m' s :
  redirected_store m done m' -> is_sink m s -> is_sink m' s.
Proof.
  intros Hst (x & Hx & Hng).
  pose proof Hst as ((Hi & _) & Hall & _).
  pose proof (lookup_instr_Some _ _ _ Hx) as (_ & _ & Hnx).
  destruct (Hall _ _ Hnx) as (n' & Hn' & Hrel).
  exists (with_node x n'). split; [exact (lookup_instr_with_node _ _ _ _ _ Hi Hx Hn')|].
  apply arms_redirected_kind in Hrel.
  unfold isinstance_Goto in *. unfold is_goto_node in Hrel. simpl.
  destruct n', (node x); congruence.
Qed.

Lemma redirected_store_follow m done m' :
  redirected_store m done m' ->
  forall k d s, follow m k d = Some s -> follow m' k d = Some s.
Proof.
  intros Hst. induction k as [|k IH]; intros d s Hf; [exact Hf|].
  simpl in Hf. destruct (lookup_instr m d) as [x|] eqn:Hx; [|discriminate].
  destruct (node x) as [d1| | | | |] eqn:Hn; try discriminate.
  simpl. rewrite (redirected_store_goto _ _ _ _ _ _ Hst Hx Hn), Hn. now apply IH.
Qed.

Lemma redirected_store_chain m done m' d k s :
  redirected_store m done m' -> resolves_to m d k s -> resolves_to m' d k s.
Proof.
  intros Hst [Hf Hs]. split.
  - now apply (redirected_store_follow m done m' Hst).
  - now apply (redirected_store_sink m done m').
Qed.

Lemma redirected_store_endless m done m' d :
  redirected_store m done m' -> endless m d -> endless m' d.
Proof.
  intros Hst He k. specialize (He k).
  destruct (follow m k d) as [s|] eqn:Hf; [|congruence].
  now rewrite (redirected_store_follow m done m' Hst k d s Hf).
Qed.

(** A value expression of [m] is still where it was. *)
Lemma redirected_store_value m done m' c cn :
  redirected_store m done m' ->
  exprs m !! c = Some (MLIL_VALUE cn) ->
  exprs m' !! c = Some (MLIL_VALUE cn).
Proof.
  intros (_ & Hall & _) Hc. destruct (Hall _ _ Hc) as (n' & Hn' & Hrel).
  rewrite Hn'. f_equal.
  apply (arms_redirected_not_if m (exprs m')); [discriminate|assumption].
Qed.

(** What was said of a node in one store holds in a store that was
    overwritten below the end of [m] and extended. *)
Lemma arms_redirected_overwrites m m1 m2 e n0 extra n n' :
  overwrites m1 m2 e n0 extra ->
  e < length (exprs m) ->
  arms_redirected m (exprs m1) n n' -> arms_redirected m (exprs m2) n n'.
Proof.
  intros Ho He. destruct n; simpl; auto.
  intros (c' & kt & st & kf & sf & Ht & Hf & -> & Hc).
  exists c', kt, st, kf, sf.
  split; [exact Ht|]. split; [exact Hf|]. split; [reflexivity|].
  destruct Hc as [Hc|(Hlen & Hne & cn & Hcn & Hc')]; [now left|right].
  split; [assumption|]. split; [assumption|]. exists cn. split; [assumption|].
  rewrite (overwrites_other _ _ _ _ _ c' Ho); [assumption|lia|].
  now apply lookup_lt_Some in Hc'.
Qed.

Lemma arms_redirected_same m ex c t f kt kf :
  resolves_to m t kt t -> resolves_to m f kf f ->
  arms_redirected m ex (MLIL_IF c t f) (MLIL_IF c t f).
Proof.
  intros Ht Hf. exists c, kt, t, kf, f.
  split; [exact Ht|]. split; [exact Hf|]. split; [reflexivity|]. left. auto.
Qed.

Lemma arms_redirected_new m ex c t f c' kt st kf sf cn :
  resolves_to m t kt st -> resolves_to m f kf sf ->
  length (exprs m) <= c' ->
  st <> t \/ sf <> f ->
  exprs m !! c = Some (MLIL_VALUE cn) ->
  ex !! c' = Some (MLIL_VALUE cn) ->
  arms_redirected m ex (MLIL_IF c t f) (MLIL_IF c' st sf).
Proof.
  intros Ht Hf Hlen Hne Hc Hc'. exists c', kt, st, kf, sf.
  split; [exact Ht|]. split; [exact Hf|]. split; [reflexivity|]. right.
  split; [exact Hlen|]. split; [exact Hne|]. exists cn. auto.
Qed.

Lemma redirected_store_skip m done bb m' x n' :
  redirected_store m done m' ->
  terminator m bb = Some x ->
  exprs m' !! expr_index x = Some n' ->
  arms_redirected m (exprs m') (node x) n' ->
  redirected_store m (done ++ [bb]) m'.
Proof.
  intros (Hfr & Hall & Hdone) Hx Hcur Hc.
  split; [now apply framed_skip|]. split; [exact Hall|].
  intros bb0 x0 Hin Hx0. apply in_app_or in Hin as [Hin|[<-|[]]].
  - exact (Hdone _ _ Hin Hx0).
  - rewrite (terminator_functional _ _ _ _ Hx0 Hx). eauto.
Qed.

Lemma redirected_store_overwrites m done bb m1 m2 x n' extra :
  redirected_store m done m1 ->
  terminator m bb = Some x ->
  arms_redirected m (exprs m2) (node x) n' ->
  overwrites m1 m2 (expr_index x) n' extra ->
  redirected_store m (done ++ [bb]) m2.
Proof.
  intros (Hfr & Hall & Hdone) Hx Hc Ho.
  pose proof Hfr as (_ & _ & Hl & _).
  pose proof (terminator_node _ _ _ Hx) as Hnx.
  pose proof (terminator_expr_lt _ _ _ Hx) as Hlt.
  split; [exact (framed_overwrites done bb m m1 m2 x _ extra Hfr Hx Ho)|]. split.
  - intros e n He. destruct (decide (e = expr_index x)) as [->|Hne].
    + rewrite Hnx in He. injection He as <-. exists n'.
      split; [exact (overwrites_at _ _ _ _ _ Ho)|now right].
    + rewrite (overwrites_other _ _ _ _ _ e Ho Hne);
        [|apply lookup_lt_Some in He; lia].
      destruct (Hall _ _ He) as (n1 & Hn1 & Hrel). exists n1.
      split; [assumption|]. destruct Hrel as [->|Hrel]; [now left|right].
      exact (arms_redirected_overwrites _ _ _ _ _ _ _ _ Ho Hlt Hrel).
  - intros bb0 x0 Hin Hx0.
    pose proof (terminator_node _ _ _ Hx0) as Hnx0.
    destruct (decide (expr_index x0 = expr_index x)) as [E|Hne].
    + rewrite E in Hnx0 |- *. rewrite Hnx in Hnx0. injection Hnx0 as <-.
      exists n'. split; [exact (overwrites_at _ _ _ _ _ Ho)|assumption].
    + rewrite (overwrites_other _ _ _ _ _ _ Ho Hne);
        [|apply lookup_lt_Some in Hnx0; lia].
      apply in_app_or in Hin as [Hin|[<-|[]]].
      * destruct (Hdone _ _ Hin Hx0) as (n1 & Hn1 & Hrel). exists n1.
        split; [assumption|].
        exact (arms_redirected_overwrites _ _ _ _ _ _ _ _ Ho Hlt Hrel).
      * rewrite (terminator_functional _ _ _ _ Hx0 Hx) in Hne. congruence.
Qed.

Lemma redirected_store_terminator m done m' bb x :
  redirected_store m done m' ->
  terminator m bb = Some x ->
  exists n',
    terminator m' bb = Some (with_node x n')
    /\ exprs m' !! expr_index x = Some n'
    /\ (n' = node x \/ arms_redirected m (exprs m') (node x) n').
Proof.
  intros ((Hi & _) & Hall & _) Hx.
  destruct (Hall _ _ (terminator_node _ _ _ Hx)) as (n' & Hn' & Hrel).
  exists n'. split; [|auto]. exact (terminator_with_node _ _ _ _ _ Hi Hx Hn').
Qed.

(** One step of the scan, from a store that is redirected for the blocks
    dealt with so far. *)
Lemma clear_if_block_redirects limit m done bb h :
  redirected_store m done (il h) ->
  arms_resolve_within limit m bb ->
  exists u h1,
    clear_if_block limit bb h = (Ok u, h1)
    /\ redirected_store m (done ++ [bb]) (il h1)
    /\ log h1 = log h /\ scans h1 = scans h.
Proof.
  intros Hst (x & Hx & Hres).
  destruct (redirected_store_terminator _ _ _ _ _ Hst Hx)
    as (n' & Hterm & Hcur & Hrel).
  pose proof (bb_last_of_terminator _ _ _ Hterm) as Hlast.
  pose proof Hst as ((_ & _ & Hl & _) & _ & _).
  destruct (isinstance_If x) eqn:Hif.
  2:{ assert (E : n' = node x).
      { apply (arms_redirected_not_if m (exprs (il h))); [|assumption].
        intros c t f E. unfold isinstance_If in Hif. rewrite E in Hif. discriminate. }
      subst n'. rewrite with_node_same in Hlast.
      exists false, h. split; [|split; [|auto]].
      - unfold clear_if_block. rewrite (bind_ok _ _ _ _ _ Hlast).
        unfold isinstance_If in Hif. destruct (node x); try reflexivity. discriminate.
      - apply (redirected_store_skip m done bb (il h) x (node x)); auto.
        unfold isinstance_If in Hif. destruct (node x); try reflexivity. discriminate. }
  unfold isinstance_If in Hif.
  destruct (node x) as [d|c t f|s|d s|v|] eqn:Hn; try discriminate. clear Hif.
  destruct (Hres c t f eq_refl) as ((cn & Hcn) & (kt & st & Hrt & Hkt)
                                    & (kf & sf & Hrf & Hkf)).
  (* the branch as the current store has it *)
  assert (Hnow : exists c1 t1 f1 k1 k2,
             n' = MLIL_IF c1 t1 f1
             /\ exprs (il h) !! c1 = Some (MLIL_VALUE cn)
             /\ resolves_to (il h) t1 k1 st /\ k1 < limit
             /\ resolves_to (il h) f1 k2 sf /\ k2 < limit
             /\ (c1 = c /\ t1 = t /\ f1 = f
                 \/ t1 = st /\ f1 = sf
                    /\ arms_redirected m (exprs (il h)) (MLIL_IF c t f) n')).
  { assert (Hplain : exists c1 t1 f1 k1 k2,
               MLIL_IF c t f = MLIL_IF c1 t1 f1
               /\ exprs (il h) !! c1 = Some (MLIL_VALUE cn)
               /\ resolves_to (il h) t1 k1 st /\ k1 < limit
               /\ resolves_to (il h) f1 k2 sf /\ k2 < limit
               /\ (c1 = c /\ t1 = t /\ f1 = f
                   \/ t1 = st /\ f1 = sf
                      /\ arms_redirected m (exprs (il h)) (MLIL_IF c t f)
                           (MLIL_IF c t f))).
    { exists c, t, f, kt, kf. split; [reflexivity|].
      split; [exact (redirected_store_value _ _ _ _ _ Hst Hcn)|].
      split; [exact (redirected_store_chain _ _ _ _ _ _ Hst Hrt)|].
      split; [assumption|].
      split; [exact (redirected_store_chain _ _ _ _ _ _ Hst Hrf)|].
      split; [assumption|]. now left. }
    destruct Hrel as [->|Hrel]; [exact Hplain|].
    pose proof Hrel as (c' & kt' & st' & kf' & sf' & Hrt' & Hrf' & -> & Hc').
    destruct (resolves_to_unique _ _ _ _ _ _ Hrt' Hrt) as [-> _].
    destruct (resolves_to_unique _ _ _ _ _ _ Hrf' Hrf) as [-> _].
    destruct Hc' as [(-> & -> & ->)|(Hlen & Hne & cn' & Hcn' & Hc')];
      [exact Hplain|].
    rewrite Hcn in Hcn'. injection Hcn' as <-.
    exists c', st, sf, 0, 0. split; [reflexivity|]. split; [assumption|].
    split; [apply is_sink_resolves, (redirected_store_sink m done); auto;
            now destruct Hrt|].
    split; [lia|].
    split; [apply is_sink_resolves, (redirected_store_sink m done); auto;
            now destruct Hrf|].
    split; [lia|]. right. auto. }
  destruct Hnow as (c1 & t1 & f1 & k1 & k2 & -> & Hc1 & Hr1 & Hk1 & Hr2 & Hk2 & Hwhich).
  destruct (clear_if_block_spec limit bb h _ c1 t1 f1 cn k1 st k2 sf Hlast eq_refl
              Hc1 Hr1 Hk1 Hr2 Hk2) as [Hsame Hdiff].
  destruct (Nat.eq_dec st t1) as [Et|Et]; [destruct (Nat.eq_dec sf f1) as [Ef|Ef]|].
  - exists false, h. split; [now apply Hsame|]. split; [|auto].
    apply (redirected_store_skip m done bb (il h) x (MLIL_IF c1 t1 f1)); auto.
    rewrite Hn. destruct Hwhich as [(-> & -> & ->)|(_ & _ & Hr)]; [|exact Hr].
    subst st sf. exact (arms_redirected_same m _ c t f kt kf Hrt Hrf).
  - destruct Hwhich as [(-> & -> & ->)|(_ & ? & _)]; [|congruence].
    destruct (Hdiff (or_intror Ef)) as (Hstep & _ & Hc' & _). simpl in Hstep, Hc'.
    eexists _, _. split; [exact Hstep|]. split; [|auto].
    apply (redirected_store_overwrites m done bb (il h) _ x
             (MLIL_IF (length (exprs (il h))) st sf)
             [MLIL_VALUE cn; MLIL_IF (length (exprs (il h))) st sf] Hst Hx).
    + rewrite Hn.
      exact (arms_redirected_new m _ c t f _ kt st kf sf cn Hrt Hrf Hl
               (or_intror Ef) Hcn Hc').
    + apply overwrites_with_exprs. now apply lookup_lt_Some in Hcur.
  - destruct Hwhich as [(-> & -> & ->)|(? & _ & _)]; [|congruence].
    destruct (Hdiff (or_introl Et)) as (Hstep & _ & Hc' & _). simpl in Hstep, Hc'.
    eexists _, _. split; [exact Hstep|]. split; [|auto].
    apply (redirected_store_overwrites m done bb (il h) _ x
             (MLIL_IF (length (exprs (il h))) st sf)
             [MLIL_VALUE cn; MLIL_IF (length (exprs (il h))) st sf] Hst Hx).
    + rewrite Hn.
      exact (arms_redirected_new m _ c t f _ kt st kf sf cn Hrt Hrf Hl
               (or_introl Et) Hcn Hc').
    + apply overwrites_with_exprs. now apply lookup_lt_Some in Hcur.
Qed.

(** The scan of a list of blocks. *)
Lemma clear_if_scan_blocks_redirects limit m bbs :
  forall done updated h,
    redirected_store m done (il h) ->
    (forall bb, In bb bbs -> arms_resolve_within limit m bb) ->
    exists v h1,
      scan_blocks (clear_if_block limit) bbs updated h = (Ok v, h1)
      /\ redirected_store m (done ++ bbs) (il h1)
      /\ log h1 = log h /\ scans h1 = scans h.
Proof.
  intros done updated h Hst Hgood.
  destruct (scan_blocks_simulates
              (fun done h' => redirected_store m done (il h')
                              /\ log h' = log h /\ scans h' = scans h)
              (arms_resolve_within limit m) (clear_if_block limit)) with
    (bbs := bbs) (done := done) (updated := updated) (h := h)
    as (v & h' & E & Hinv); auto.
  - intros done0 bb h0 (Hst0 & Hlog & Hsc) Hg.
    destruct (clear_if_block_redirects limit m done0 bb h0 Hst0 Hg)
      as (u & h1 & E & Hst1 & Hlog1 & Hsc1).
    exists u, h1. split; [exact E|]. split; [exact Hst1|]. split; congruence.
  - exists v, h'. split; [exact E|exact Hinv].
Qed.

(** The state of a block [bb] of [m] in the function [m'] that the pass
    leaves, [x] being the last instruction of [bb] in [m].  A branch
    whose arms are at the sinks of their chains is as it was; otherwise the
    block ends in a branch to the two sinks, on a new node that holds what
    the condition holds; the node of the condition itself is as it was.  Any
    other last instruction is as it was. *)
Definition branch_arms_redirected (m m' : MediumLevelILFunction)
    (bb : MediumLevelILBasicBlock) : Prop :=
  forall x,
    terminator m bb = Some x ->
    (forall c t f kt st kf sf,
       node x = MLIL_IF c t f ->
       resolves_to m t kt st ->
       resolves_to m f kf sf ->
       (st = t -> sf = f -> terminator m' bb = Some x)
       /\ (st <> t \/ sf <> f ->
           exists c',
             terminator m' bb = Some (with_node x (MLIL_IF c' st sf))
             /\ length (exprs m) <= c'
             /\ exprs m' !! c' = exprs m !! c)
       /\ exprs m' !! c = exprs m !! c)
    /\ (isinstance_If x = false -> terminator m' bb = Some x).

Lemma redirected_store_block limit m done m' bb :
  redirected_store m done m' ->
  In bb done ->
  arms_resolve_within limit m bb ->
  branch_arms_redirected m m' bb.
Proof.
  intros Hst Hin (x0 & Hx0 & Hres) x Hx.
  rewrite (terminator_functional _ _ _ _ Hx0 Hx) in Hres. clear x0 Hx0.
  pose proof Hst as ((Hi & _) & _ & Hdone).
  destruct (Hdone bb x Hin Hx) as (n' & Hn' & Hc).
  pose proof (terminator_with_node _ _ _ _ _ Hi Hx Hn') as Ht.
  split.
  - intros c t f kt st kf sf Hn Hrt Hrf.
    destruct (Hres c t f Hn) as ((cn & Hcn) & _).
    rewrite Hn in Hc.
    destruct Hc as (c' & kt' & st' & kf' & sf' & Hrt' & Hrf' & -> & Hc).
    destruct (resolves_to_unique _ _ _ _ _ _ Hrt' Hrt) as [-> _].
    destruct (resolves_to_unique _ _ _ _ _ _ Hrf' Hrf) as [-> _].
    split; [|split].
    + intros Et Ef. destruct Hc as [(-> & _)|(_ & [Hne|Hne] & _)]; try congruence.
      subst st sf. rewrite <- Hn in Ht. now rewrite with_node_same in Ht.
    + intros Hne. destruct Hc as [(_ & -> & ->)|(Hlen & _ & cn' & Hcn' & Hc')].
      * destruct Hne; congruence.
      * exists c'. split; [exact Ht|]. split; [exact Hlen|]. congruence.
    + rewrite Hcn. exact (redirected_store_value _ _ _ _ _ Hst Hcn).
  - intros Hno. unfold isinstance_If in Hno.
    destruct (node x) eqn:Hn; try discriminate; simpl in Hc; subst n';
      rewrite <- Hn in Ht; now rewrite with_node_same in Ht.
Qed.

(** A branch whose true arm reaches its sink and whose false arm runs into a
    chain that never leaves the jumps. *)
Lemma clear_if_block_false_arm_cycle limit bb h b c t f kt st :
  bb_last bb h = (Ok b, h) ->
  node b = MLIL_IF c t f ->
  resolves_to (il h) t kt st -> kt < limit ->
  endless (il h) f ->
  clear_if_block limit bb h = (Raise RecursionError, h).
Proof.
  intros Hlast Hb Hrt Hkt He. unfold clear_if_block.
  rewrite (bind_ok _ _ _ _ _ Hlast), Hb.
  destruct (resolves_to_lookup _ _ _ _ Hrt) as (xt & Hxt).
  rewrite (bind_ok _ _ _ _ _ (getitem_ok h t xt Hxt)).
  destruct (get_final_target_resolves kt limit xt t st h Hxt Hrt Hkt) as (yt & _ & Et).
  rewrite (bind_ok _ _ _ _ _ Et).
  destruct (endless_step _ _ He) as (xf & d' & Hxf & _ & _).
  rewrite (bind_ok _ _ _ _ _ (getitem_ok h f xf Hxf)).
  now rewrite (bind_raise _ _ _ _ _ (get_final_target_endless limit xf f h Hxf He)).
Qed.

Lemma clear_if_body_eq
    (finalize generate_ssa_form : MediumLevelILFunction -> MediumLevelILFunction)
    limit :
  clear_if_body finalize generate_ssa_form limit
  = pass_body finalize generate_ssa_form (clear_if_scan limit)
      (fun m => length (basic_blocks m)).
Proof. reflexivity. Qed.

Lemma clear_if_scan_eq limit h :
  clear_if_scan limit h
  = scan_blocks (clear_if_block limit) (basic_blocks (il h)) false h.
Proof. reflexivity. Qed.

(** C6, as the code has it.  When every block of the function [m] has a last
    instruction and, for every branch that ends a block, the condition is a
    value expression of the store and the chains from both arms reach their
    sinks in fewer jumps than the recursion limit, the first scan of
    [pass_clear_if] ends normally, and in the function it leaves, for every
    block: a branch whose arms were at their sinks is as it was; any other
    branch has been replaced by a branch to the two sinks whose condition is
    a new node of the store that holds what the condition held, and the node
    of the condition itself is as it was; every other last instruction and
    every node that is not the last instruction of a block is as it was, as
    are the instruction list, the blocks and the log.  When [finalize] and
    [generate_ssa_form] leave that function as it is, it is the function the
    pass ends with.  When a block ends in a branch with an arm that runs
    into a chain that never leaves the jumps, and the blocks before it are
    as above, the pass ends in [RecursionError] at that block: the blocks
    before it have been redirected, and no node that is not the last
    instruction of one of them has been touched. *)
Theorem C6_branch_target_redirection
    (finalize generate_ssa_form : MediumLevelILFunction -> MediumLevelILFunction)
    (limit : nat) (w : World) (m : MediumLevelILFunction) :
  mlil (analysis_context w) = Some m ->
  let h0 := snd (tick_scan (pass_heap w m)) in
  ((forall bb, In bb (basic_blocks m) -> arms_resolve_within limit m bb) ->
   exists u h1,
     clear_if_scan limit h0 = (Ok u, h1)
     /\ (forall bb, In bb (basic_blocks m) -> branch_arms_redirected m (il h1) bb)
     /\ (forall e, e < length (exprs m) -> ~ ends_block_in (basic_blocks m) m e ->
           exprs (il h1) !! e = exprs m !! e)
     /\ instrs (il h1) = instrs m
     /\ basic_blocks (il h1) = basic_blocks m
     /\ log h1 = messages w
     /\ (0 < limit ->
         generate_ssa_form (finalize (il h1)) = il h1 ->
         exists w',
           pass_clear_if finalize generate_ssa_form limit w = (Ok tt, w')
           /\ mlil (analysis_context w') = Some (il h1)
           /\ function (analysis_context w') = function (analysis_context w)
           /\ messages w' = messages w))
  /\ (forall pre bb post x c t f,
        basic_blocks m = pre ++ bb :: post ->
        (forall b, In b pre -> arms_resolve_within limit m b) ->
        terminator m bb = Some x ->
        node x = MLIL_IF c t f ->
        endless m t
        \/ (exists k s, resolves_to m t k s /\ k < limit) /\ endless m f ->
        exists h1,
          clear_if_scan limit h0 = (Raise RecursionError, h1)
          /\ pass_clear_if finalize generate_ssa_form limit w
             = (Raise RecursionError, to_world w h1)
          /\ (forall b, In b pre -> branch_arms_redirected m (il h1) b)
          /\ (forall e, e < length (exprs m) -> ~ ends_block_in pre m e ->
                exprs (il h1) !! e = exprs m !! e)
          /\ log h1 = messages w).
Proof.
  intros Hm h0. split.
  - intros Hgood.
    destruct (clear_if_scan_blocks_redirects limit m (basic_blocks m) [] false h0
                (redirected_store_start m) Hgood)
      as (u & h1 & Hscan & Hst & Hlog & _).
    simpl in Hst, Hlog.
    exists u, h1. split; [exact Hscan|].
    pose proof Hst as ((Hi & Hb & _ & Hframe) & _ & _).
    split; [intros bb Hin;
            now apply (redirected_store_block limit m (basic_blocks m)); auto|].
    split; [exact Hframe|]. split; [exact Hi|]. split; [exact Hb|].
    split; [exact Hlog|].
    intros Hl Hfix. unfold pass_clear_if. rewrite Hm, on_mlil_eq.
    rewrite clear_if_body_eq.
    destruct (pass_body_settles finalize generate_ssa_form (clear_if_scan limit)
                (fun m0 => length (basic_blocks m0)) (pass_heap w m) u h1)
      as (h' & E & Hil & Hlg); auto.
    + intros h2 Hil. rewrite clear_if_scan_eq.
      apply (scan_idle_on_same_il branches_to_sinks (clear_if_block limit)
               h0 u h1 (clear_if_block_step limit)
               (fun bb h3 => clear_if_block_idle limit bb h3 Hl) Hb Hscan h2 Hil).
    + simpl. intros Hz. apply length_zero_iff_nil in Hz.
      rewrite Hz in Hscan. simpl in Hscan.
      injection Hscan as _ <-. auto.
    + rewrite E. simpl. exists (to_world w h'). split; [reflexivity|].
      apply settled_world; congruence.
  - intros pre bb post x c t f Hbb Hgood Hx Hn He.
    destruct (clear_if_scan_blocks_redirects limit m pre [] false h0
                (redirected_store_start m) Hgood)
      as (u & h1 & Hscan & Hst & Hlog & _).
    simpl in Hst, Hlog.
    destruct (redirected_store_terminator _ _ _ _ _ Hst Hx) as (n' & Hterm & _ & Hrel).
    assert (E : n' = MLIL_IF c t f).
    { rewrite Hn in Hrel. destruct Hrel as [->|Hrel]; [reflexivity|].
      destruct Hrel as (c' & kt & st & kf & sf & Hrt & Hrf & _).
      destruct He as [He|[_ He]].
      - now destruct (resolves_to_not_endless _ _ _ _ Hrt).
      - now destruct (resolves_to_not_endless _ _ _ _ Hrf). }
    subst n'.
    pose proof (bb_last_of_terminator _ _ _ Hterm) as Hlast.
    assert (Hraise : clear_if_block limit bb h1 = (Raise RecursionError, h1)).
    { destruct He as [He|[(k & s & Hr & Hk) He]].
      - apply (clear_if_block_cycle limit bb h1 _ c t f Hlast eq_refl).
        exact (redirected_store_endless _ _ _ _ Hst He).
      - apply (clear_if_block_false_arm_cycle limit bb h1 _ c t f k s Hlast eq_refl
                 (redirected_store_chain _ _ _ _ _ _ Hst Hr) Hk).
        exact (redirected_store_endless _ _ _ _ Hst He). }
    assert (Hs : clear_if_scan limit h0 = (Raise RecursionError, h1)).
    { rewrite clear_if_scan_eq. unfold h0 at 1. simpl basic_blocks.
      rewrite Hbb, scan_blocks_app, Hscan. simpl.
      now rewrite (bind_raise _ _ _ _ _ Hraise). }
    exists h1. split; [exact Hs|]. split; [|split; [|split]].
    + unfold pass_clear_if. rewrite Hm, on_mlil_eq, clear_if_body_eq.
      assert (Hcap : length (basic_blocks (il (pass_heap w m))) <> 0).
      { simpl. rewrite Hbb, length_app. simpl. lia. }
      rewrite (pass_body_raises finalize generate_ssa_form (clear_if_scan limit)
                 (fun m0 => length (basic_blocks m0)) (pass_heap w m)
                 RecursionError h1 Hcap Hs).
      reflexivity.
    + intros b Hin. apply (redirected_store_block limit m pre); auto.
    + now destruct Hst as ((_ & _ & _ & Hframe) & _).
    + exact Hlog.
Qed.

(** ** Running the cycle again (C9) *)

(** What a step of the scan of [pass_clear_goto] changes, if anything: the
    node of a jump, into another jump. *)
Lemma clear_goto_block_effect limit bb h u h1 :
  clear_goto_block limit bb h = (Ok u, h1) ->
  il h1 = il h
  \/ exists e d s extra,
       overwrites (il h) (il h1) e (MLIL_GOTO s) extra
       /\ exprs (il h) !! e = Some (MLIL_GOTO d).
Proof.
  unfold clear_goto_block. intros H.
  read_step_as H read_only_bb_last a Ha.
  apply bb_last_inv in Ha as (_ & [[? _]|(x & Hx & Hterm)]); [discriminate|].
  injection Hx as <-.
  destruct (node a) as [d|c t f|s|d s|v|] eqn:Hn;
    try (injection H as _ <-; now left).
  unfold bind at 1 in H.
  destruct (optimize_goto limit a h) as [[y|e] h2] eqn:Eo; [|discriminate].
  destruct (optimize_goto_sound _ _ _ _ _ Eo)
    as (d' & k & lg & _ & _ & _ & _ & -> & _).
  destruct (instr_index y =? d).
  - injection H as _ <-. now left.
  - unfold goto in H. simpl in H. rewrite build_replace_report in H.
    injection H as _ <-. right.
    exists (expr_index a), d, (instr_index y), [MLIL_GOTO (instr_index y)].
    split.
    + exact (overwrites_with_exprs (with_log h lg) (expr_index a) _ _
               (terminator_expr_lt _ _ _ Hterm)).
    + rewrite <- Hn. exact (terminator_node _ _ _ Hterm).
Qed.

(** What a step of the scan of [pass_clear_if] changes, if anything: the
    node of a branch, into a branch on a copy of its condition. *)
Lemma clear_if_block_effect limit bb h u h1 :
  clear_if_block limit bb h = (Ok u, h1) ->
  il h1 = il h
  \/ exists e c t f c' st sf extra cn n',
       overwrites (il h) (il h1) e (MLIL_IF c' st sf) extra
       /\ exprs (il h) !! e = Some (MLIL_IF c t f)
       /\ exprs (il h) !! c = Some cn
       /\ exprs (il h1) !! c' = Some n'
       /\ same_shape cn n'.
Proof.
  unfold clear_if_block. intros H.
  read_step_as H read_only_bb_last a Ha.
  apply bb_last_inv in Ha as (_ & [[? _]|(x & Hx & Hterm)]); [discriminate|].
  injection Hx as <-.
  destruct (node a) as [d|c t f|s|d s|v|] eqn:Hn;
    try (injection H as _ <-; now left).
  read_step_as H read_only_getitem xt Hxt.
  read_step_as H read_only_get_final_target yt Hyt.
  read_step_as H read_only_getitem xf Hxf.
  read_step_as H read_only_get_final_target yf Hyf.
  destruct (negb (instr_index yt =? t) || negb (instr_index yf =? f));
    [|injection H as _ <-; now left].
  read_step_as H read_only_condition_of cond Hcond.
  unfold condition_of in Hcond. rewrite Hn in Hcond. unfold bind in Hcond.
  rewrite expr_at_eq in Hcond.
  destruct (exprs (il h) !! c) as [cn|] eqn:Hc; [|discriminate].
  injection Hcond as <-.
  unfold bind at 1 in H.
  destruct (copy_expr _ h) as [[c'|e] h2] eqn:Ec; [|discriminate].
  destruct (copy_expr_result _ _ _ _ Ec) as (extra & n' & -> & Hlen & Hn' & Hshape).
  simpl in Hshape.
  unfold if_expr in H. simpl in H. rewrite build_replace_report in H.
  injection H as _ <-. simpl. rewrite <- app_assoc. right.
  pose proof (terminator_expr_lt _ _ _ Hterm) as Hlt.
  exists (expr_index a), c, t, f, c', (instr_index yt), (instr_index yf),
    (extra ++ [MLIL_IF c' (instr_index yt) (instr_index yf)]), cn, n'.
  split; [exact (overwrites_with_exprs h (expr_index a) _ _ Hlt)|].
  split; [rewrite <- Hn; exact (terminator_node _ _ _ Hterm)|].
  split; [exact Hc|]. split; [|exact Hshape].
  simpl. rewrite list_lookup_insert_ne by lia.
  rewrite app_assoc. rewrite lookup_app_l; [exact Hn'|].
  now apply lookup_lt_Some in Hn'.
Qed.

(** A copy of a node is the literal [k] only if the node is. *)
Lemma same_shape_not_const cn n' k :
  same_shape cn n' ->
  cn <> MLIL_VALUE (MLIL_CONST k) -> n' <> MLIL_VALUE (MLIL_CONST k).
Proof.
  intros Hs Hne. destruct cn; simpl in Hs; try (now subst).
  destruct Hs as (c' & ->). discriminate.
Qed.

(** Replacing a branch by a branch on a copy of its condition brings no
    constant branch about. *)
Lemma no_constant_branch_redirect m m' e c t f c' st sf extra cn n' bb :
  overwrites m m' e (MLIL_IF c' st sf) extra ->
  exprs m !! e = Some (MLIL_IF c t f) ->
  exprs m !! c = Some cn ->
  exprs m' !! c' = Some n' ->
  same_shape cn n' ->
  no_constant_branch m bb -> no_constant_branch m' bb.
Proof.
  intros Ho Hold Hcn Hn' Hshape (x & Hx & Hc).
  pose proof (terminator_node _ _ _ Hx) as Hnx.
  eexists. split; [exact (terminator_overwrites _ _ _ _ _ _ _ Ho Hx)|].
  simpl. intros c0 t0 f0 Hn.
  destruct (decide (expr_index x = e)) as [He|Hne].
  - injection Hn as <- _ _. rewrite He, Hold in Hnx. injection Hnx as Hnx.
    destruct (Hc c t f (eq_sym Hnx)) as (cn2 & Hcn2 & H1 & H0).
    rewrite Hcn in Hcn2. injection Hcn2 as <-.
    exists n'. split; [assumption|].
    split; now apply (same_shape_not_const cn).
  - destruct (Hc c0 t0 f0 Hn) as (cn0 & Hcn0 & H1 & H0).
    destruct (decide (c0 = e)) as [->|Hce].
    + rewrite (overwrites_at _ _ _ _ _ Ho). eexists. split; [reflexivity|].
      split; discriminate.
    + rewrite (overwrites_other _ _ _ _ _ c0 Ho Hce);
        [|now apply lookup_lt_Some in Hcn0].
      eauto.
Qed.

(** It leaves the jumps where they are. *)
Lemma jumps_to_sink_redirect m m' e c t f c' st sf extra bb :
  overwrites m m' e (MLIL_IF c' st sf) extra ->
  exprs m !! e = Some (MLIL_IF c t f) ->
  jumps_to_sink m bb -> jumps_to_sink m' bb.
Proof.
  intros Ho Hold (x & Hx & Hd).
  eexists. split; [exact (terminator_overwrites _ _ _ _ _ _ _ Ho Hx)|].
  simpl. intros d Hn.
  destruct (decide (expr_index x = e)) as [_|_]; [discriminate|].
  apply (is_sink_overwrites m m' e (MLIL_IF c t f) (MLIL_IF c' st sf) extra);
    auto.
Qed.

(** A property of the blocks that every step of a scan keeps is kept by the
    scan. *)
Lemma scan_blocks_keeps
    (P : MediumLevelILFunction -> MediumLevelILBasicBlock -> Prop)
    (body : MediumLevelILBasicBlock -> IL bool) :
  (forall bb h u h1,
     body bb h = (Ok u, h1) -> forall bb0, P (il h) bb0 -> P (il h1) bb0) ->
  forall bbs updated h v h',
    scan_blocks body bbs updated h = (Ok v, h') ->
    forall bb0, P (il h) bb0 -> P (il h') bb0.
Proof.
  intros Hbody. induction bbs as [|bb bbs IH]; intros updated h v h' H; simpl in H.
  - injection H as _ <-. auto.
  - unfold bind in H. destruct (body bb h) as [[u|e] h1] eqn:E; [|discriminate].
    intros bb0 Hp. apply (IH _ _ _ _ H). exact (Hbody _ _ _ _ E bb0 Hp).
Qed.

Lemma clear_goto_block_keeps_no_constant_branch limit bb h u h1 :
  clear_goto_block limit bb h = (Ok u, h1) ->
  forall bb0, no_constant_branch (il h) bb0 -> no_constant_branch (il h1) bb0.
Proof.
  intros H bb0 Hp.
  destruct (clear_goto_block_effect _ _ _ _ _ H) as [->|(e & d & s & extra & Ho & _)];
    [assumption|].
  exact (no_constant_branch_overwrites _ _ _ _ _ bb0 Ho Hp).
Qed.

Lemma clear_if_block_keeps_no_constant_branch limit bb h u h1 :
  clear_if_block limit bb h = (Ok u, h1) ->
  forall bb0, no_constant_branch (il h) bb0 -> no_constant_branch (il h1) bb0.
Proof.
  intros H bb0 Hp.
  destruct (clear_if_block_effect _ _ _ _ _ H)
    as [->|(e & c & t & f & c' & st & sf & extra & cn & n' & Ho & Hold & Hcn & Hn' & Hs)];
    [assumption|].
  exact (no_constant_branch_redirect _ _ _ _ _ _ _ _ _ _ _ _ bb0 Ho Hold Hcn Hn' Hs Hp).
Qed.

Lemma clear_if_block_keeps_jumps_to_sink limit bb h u h1 :
  clear_if_block limit bb h = (Ok u, h1) ->
  forall bb0, jumps_to_sink (il h) bb0 -> jumps_to_sink (il h1) bb0.
Proof.
  intros H bb0 Hp.
  destruct (clear_if_block_effect _ _ _ _ _ H)
    as [->|(e & c & t & f & c' & st & sf & extra & cn & n' & Ho & Hold & _)];
    [assumption|].
  exact (jumps_to_sink_redirect _ _ _ _ _ _ _ _ _ _ bb0 Ho Hold Hp).
Qed.

(** [finalize] and [generate_ssa_form] leave the function [m] as it is. *)
Definition left_alone
    (finalize generate_ssa_form : MediumLevelILFunction -> MediumLevelILFunction)
    (m : MediumLevelILFunction) : Prop :=
  generate_ssa_form (finalize m) = m.

(** The function that the first scan of a pass on [m] in the world [w]
    leaves. *)
Definition first_scan_result (scan : IL bool) (w : World)
    (m : MediumLevelILFunction) : MediumLevelILFunction :=
  il (snd (scan (snd (tick_scan (pass_heap w m))))).

Section Settled.

Variable finalize : MediumLevelILFunction -> MediumLevelILFunction.
Variable generate_ssa_form : MediumLevelILFunction -> MediumLevelILFunction.

(** A scan over the blocks that brings [Post] about, finds nothing where
    [Post] holds, and keeps the layout. *)
Variable Post : MediumLevelILFunction -> MediumLevelILBasicBlock -> Prop.
Variable body : MediumLevelILBasicBlock -> IL bool.
Hypothesis body_step :
  forall bb h u h1,
    body bb h = (Ok u, h1) ->
    Post (il h1) bb /\ forall bb0, Post (il h) bb0 -> Post (il h1) bb0.
Hypothesis body_idle :
  forall bb h, Post (il h) bb -> body bb h = (Ok false, h).
Hypothesis body_layout :
  forall h,
    same_layout h (snd (scan_blocks body (basic_blocks (il h)) false h)).

Definition scan_of : IL bool :=
  fun h => scan_blocks body (basic_blocks (il h)) false h.

Definition pass_of : IL unit :=
  pass_body finalize generate_ssa_form scan_of (fun m0 => length (basic_blocks m0)).

(** A pass that ended normally ended with the function its first scan left,
    when [finalize] and [generate_ssa_form] leave that function as it is. *)
Lemma settled_pass w m0 w' :
  mlil (analysis_context w) = Some m0 ->
  left_alone finalize generate_ssa_form (first_scan_result scan_of w m0) ->
  on_mlil m0 pass_of w = (Ok tt, w') ->
  exists u h1,
    scan_of (snd (tick_scan (pass_heap w m0))) = (Ok u, h1)
    /\ il h1 = first_scan_result scan_of w m0
    /\ mlil (analysis_context w') = Some (il h1)
    /\ basic_blocks (il h1) = basic_blocks m0.
Proof.
  intros Hm Hfix H. rewrite on_mlil_eq in H.
  pose proof (body_layout (snd (tick_scan (pass_heap w m0)))) as (_ & Lb & _).
  fold (scan_of (snd (tick_scan (pass_heap w m0)))) in Lb.
  unfold left_alone, first_scan_result in Hfix.
  destruct (scan_of (snd (tick_scan (pass_heap w m0)))) as [[u|e] h1] eqn:E;
    simpl in Lb, Hfix.
  - exists u, h1. split; [reflexivity|].
    split; [unfold first_scan_result; now rewrite E|].
    destruct (pass_body_settles finalize generate_ssa_form scan_of
                (fun m1 => length (basic_blocks m1)) (pass_heap w m0) u h1)
      as (h' & E' & Hil & Hlg); auto.
    + intros h2 Hil.
      exact (scan_idle_on_same_il Post body (snd (tick_scan (pass_heap w m0))) u h1
               body_step body_idle Lb E h2 Hil).
    + simpl. intros Hz. apply length_zero_iff_nil in Hz.
      unfold scan_of in E. simpl in E. rewrite Hz in E. simpl in E.
      injection E as _ <-. auto.
    + fold pass_of in E'. rewrite E' in H. simpl in H. injection H as <-.
      simpl. rewrite Hil. auto.
  - exfalso. destruct (basic_blocks m0) as [|b bs] eqn:Hbb.
    + unfold scan_of in E. simpl in E. rewrite Hbb in E. discriminate.
    + assert (Hcap : length (basic_blocks (il (pass_heap w m0))) <> 0).
      { simpl. now rewrite Hbb. }
      unfold pass_of in H.
      rewrite (pass_body_raises finalize generate_ssa_form scan_of
                 (fun m1 => length (basic_blocks m1)) (pass_heap w m0) e h1
                 Hcap E) in H.
      discriminate.
Qed.

(** On a function in which [Post] holds of every block, and which
    [finalize] and [generate_ssa_form] leave as it is, the pass changes
    nothing. *)
Lemma idle_pass w m0 :
  mlil (analysis_context w) = Some m0 ->
  left_alone finalize generate_ssa_form m0 ->
  (forall bb, In bb (basic_blocks m0) -> Post m0 bb) ->
  exists w',
    on_mlil m0 pass_of w = (Ok tt, w')
    /\ analysis_context w' = analysis_context w
    /\ messages w' = messages w.
Proof.
  intros Hm Hfix Hpost. rewrite on_mlil_eq.
  assert (Hidle : forall h2, il h2 = m0 -> scan_of h2 = (Ok false, h2)).
  { intros h2 Hil. unfold scan_of. apply scan_blocks_idle.
    intros bb Hin. apply body_idle. rewrite Hil. apply Hpost. now rewrite <- Hil. }
  destruct (pass_body_settles finalize generate_ssa_form scan_of
              (fun m1 => length (basic_blocks m1)) (pass_heap w m0) false
              (snd (tick_scan (pass_heap w m0))))
    as (h' & E' & Hil & Hlg); auto.
  fold pass_of in E'. rewrite E'. simpl. eexists. split; [reflexivity|].
  simpl in Hil, Hlg. unfold to_world. simpl. rewrite Hil, Hlg.
  split; [|reflexivity].
  destruct w as [[mm ff] lg n]. simpl in *. now rewrite Hm.
Qed.

End Settled.

(** A pass whose scan finds nothing in [m0], whatever the log holds, ends
    with [m0] when [finalize] and [generate_ssa_form] leave it as it is. *)
Lemma quiescent_pass
    (finalize generate_ssa_form : MediumLevelILFunction -> MediumLevelILFunction)
    (scan : IL bool) (cap : MediumLevelILFunction -> nat) w m0 :
  (forall h1 h2, scan h1 = (Ok false, h2) -> il h2 = il h1) ->
  quiescent scan m0 ->
  generate_ssa_form (finalize m0) = m0 ->
  mlil (analysis_context w) = Some m0 ->
  exists w',
    on_mlil m0 (pass_body finalize generate_ssa_form scan cap) w = (Ok tt, w')
    /\ analysis_context w' = analysis_context w.
Proof.
  intros Hkeep Hq Hfix Hm. rewrite on_mlil_eq.
  assert (Hbody : exists h',
            pass_body finalize generate_ssa_form scan cap (pass_heap w m0)
            = (Ok tt, h') /\ il h' = m0).
  { unfold pass_body. unfold bind at 1, get_il.
    destruct (cap (il (pass_heap w m0))) as [|n].
    - simpl. unfold bind at 1. simpl. rewrite closing_eq.
      eexists. split; [reflexivity|]. simpl. exact Hfix.
    - destruct (Hq (messages w) (S (scan_count w))) as (h1 & E).
      rewrite (bind_ok _ _ _ _ _
                 (fixed_point_loop_stop finalize generate_ssa_form scan n
                    (pass_heap w m0) h1 E)).
      rewrite closing_eq. eexists. split; [reflexivity|]. simpl.
      apply Hkeep in E. simpl in E. now rewrite E. }
  destruct Hbody as (h' & E & Hil). rewrite E. simpl.
  eexists. split; [reflexivity|]. unfold to_world. simpl. rewrite Hil.
  destruct w as [[mm ff] lg n]. simpl in *. now rewrite Hm.
Qed.

(** C9, as the code has it.  Let the first three passes of a run on the
    function [m] end normally, and let [finalize] and [generate_ssa_form]
    leave the functions that the first scans of these passes produce as
    they are.  Then the three passes have reached their fixed point: run
    again on the function they left, they end normally and leave the
    analysis context and the log as they are.  When in addition a scan of
    [pass_merge_block] finds nothing to merge in that function, the full
    cycle on [m] ends normally with that function, and a second run of the
    full cycle leaves the analysis context as the first run left it. *)
Theorem C9_second_run_at_fixed_point
    (finalize generate_ssa_form : MediumLevelILFunction -> MediumLevelILFunction)
    (incoming : MediumLevelILFunction -> nat -> list MediumLevelILBasicBlock)
    (limit : nat) (w w1 w2 w3 : World) (m : MediumLevelILFunction) :
  let m1 := first_scan_result clear_const_if_scan w m in
  let m2 := first_scan_result (clear_goto_scan limit) w1 m1 in
  let m3 := first_scan_result (clear_if_scan limit) w2 m2 in
  mlil (analysis_context w) = Some m ->
  0 < limit ->
  pass_clear_const_if finalize generate_ssa_form w = (Ok tt, w1) ->
  pass_clear_goto finalize generate_ssa_form limit w1 = (Ok tt, w2) ->
  pass_clear_if finalize generate_ssa_form limit w2 = (Ok tt, w3) ->
  left_alone finalize generate_ssa_form m1 ->
  left_alone finalize generate_ssa_form m2 ->
  left_alone finalize generate_ssa_form m3 ->
  mlil (analysis_context w3) = Some m3
  /\ (exists w1' w2' w3',
        pass_clear_const_if finalize generate_ssa_form w3 = (Ok tt, w1')
        /\ pass_clear_goto finalize generate_ssa_form limit w1' = (Ok tt, w2')
        /\ pass_clear_if finalize generate_ssa_form limit w2' = (Ok tt, w3')
        /\ analysis_context w3' = analysis_context w3
        /\ messages w3' = messages w3)
  /\ (quiescent (merge_scan incoming) m3 ->
      exists w4 w5,
        pass_clear finalize generate_ssa_form incoming limit w = (Ok tt, w4)
        /\ analysis_context w4 = analysis_context w3
        /\ pass_clear finalize generate_ssa_form incoming limit w4 = (Ok tt, w5)
        /\ analysis_context w5 = analysis_context w4).
Proof.
  intros m1 m2 m3 Hm Hl H1 H2 H3 F1 F2 F3.
  (* the first run *)
  pose proof H1 as S1. unfold pass_clear_const_if in S1. rewrite Hm in S1.
  destruct (settled_pass finalize generate_ssa_form no_constant_branch
              clear_const_if_block clear_const_if_block_step
              clear_const_if_block_idle same_layout_clear_const_if_scan
              w m w1 Hm F1 S1)
    as (u1 & h1 & E1 & R1 & M1 & B1).
  change (il h1 = m1) in R1. rewrite R1 in M1, B1.
  assert (P1 : forall bb, In bb (basic_blocks m) -> no_constant_branch m1 bb).
  { rewrite <- R1.
    now apply (scan_blocks_establishes no_constant_branch clear_const_if_block
                 clear_const_if_block_step) in E1 as [_ Hp]. }
  pose proof H2 as S2. unfold pass_clear_goto in S2. rewrite M1 in S2.
  destruct (settled_pass finalize generate_ssa_form jumps_to_sink
              (clear_goto_block limit) (clear_goto_block_step limit)
              (fun bb h => clear_goto_block_idle limit bb h Hl)
              (same_layout_clear_goto_scan limit)
              w1 m1 w2 M1 F2 S2)
    as (u2 & h2 & E2 & R2 & M2 & B2).
  change (il h2 = m2) in R2. rewrite R2 in M2, B2.
  assert (P2 : forall bb, In bb (basic_blocks m) ->
                 no_constant_branch m2 bb /\ jumps_to_sink m2 bb).
  { rewrite <- R2. intros bb Hin. split.
    - apply (scan_blocks_keeps no_constant_branch (clear_goto_block limit)
               (clear_goto_block_keeps_no_constant_branch limit) _ _ _ _ _ E2).
      now apply P1.
    - apply (scan_blocks_establishes jumps_to_sink (clear_goto_block limit)
               (clear_goto_block_step limit)) in E2 as [_ Hp].
      apply Hp. simpl. now rewrite B1. }
  pose proof H3 as S3. unfold pass_clear_if in S3. rewrite M2 in S3.
  destruct (settled_pass finalize generate_ssa_form branches_to_sinks
              (clear_if_block limit) (clear_if_block_step limit)
              (fun bb h => clear_if_block_idle limit bb h Hl)
              (same_layout_clear_if_scan limit)
              w2 m2 w3 M2 F3 S3)
    as (u3 & h3 & E3 & R3 & M3 & B3).
  change (il h3 = m3) in R3. rewrite R3 in M3, B3.
  assert (P3 : forall bb, In bb (basic_blocks m3) ->
                 no_constant_branch m3 bb
                 /\ jumps_to_sink m3 bb
                 /\ branches_to_sinks m3 bb).
  { rewrite B3, B2, B1. rewrite <- R3. intros bb Hin.
    destruct (P2 bb Hin) as [Pa Pb].
    split; [|split].
    - exact (scan_blocks_keeps no_constant_branch (clear_if_block limit)
               (clear_if_block_keeps_no_constant_branch limit) _ _ _ _ _ E3 bb Pa).
    - exact (scan_blocks_keeps jumps_to_sink (clear_if_block limit)
               (clear_if_block_keeps_jumps_to_sink limit) _ _ _ _ _ E3 bb Pb).
    - apply (scan_blocks_establishes branches_to_sinks (clear_if_block limit)
               (clear_if_block_step limit)) in E3 as [_ Hp].
      apply Hp. simpl. now rewrite B2, B1. }
  (* the three passes on the function they left *)
  assert (Hidle : forall wx,
            mlil (analysis_context wx) = Some m3 ->
            exists wa wb wc,
              pass_clear_const_if finalize generate_ssa_form wx = (Ok tt, wa)
              /\ pass_clear_goto finalize generate_ssa_form limit wa = (Ok tt, wb)
              /\ pass_clear_if finalize generate_ssa_form limit wb = (Ok tt, wc)
              /\ analysis_context wc = analysis_context wx
              /\ messages wc = messages wx).
  { intros wx Hx.
    destruct (idle_pass finalize generate_ssa_form no_constant_branch
                clear_const_if_block clear_const_if_block_idle
                wx m3 Hx F3 (fun bb Hin => proj1 (P3 bb Hin)))
      as (wa & Ea & Ca & La).
    assert (Ha : mlil (analysis_context wa) = Some m3) by congruence.
    destruct (idle_pass finalize generate_ssa_form jumps_to_sink
                (clear_goto_block limit)
                (fun bb h => clear_goto_block_idle limit bb h Hl)
                wa m3 Ha F3 (fun bb Hin => proj1 (proj2 (P3 bb Hin))))
      as (wb & Eb & Cb & Lb).
    assert (Hb : mlil (analysis_context wb) = Some m3) by congruence.
    destruct (idle_pass finalize generate_ssa_form branches_to_sinks
                (clear_if_block limit)
                (fun bb h => clear_if_block_idle limit bb h Hl)
                wb m3 Hb F3 (fun bb Hin => proj2 (proj2 (P3 bb Hin))))
      as (wc & Ec & Cc & Lc).
    exists wa, wb, wc.
    split; [unfold pass_clear_const_if; rewrite Hx; exact Ea|].
    split; [unfold pass_clear_goto; rewrite Ha; exact Eb|].
    split; [unfold pass_clear_if; rewrite Hb; exact Ec|].
    split; congruence. }
  split; [exact M3|]. split.
  - destruct (Hidle w3 M3) as (wa & wb & wc & Ea & Eb & Ec & Cc & Lc).
    exists wa, wb, wc. auto.
  - intros Hq.
    assert (Hmerge : forall wx,
              mlil (analysis_context wx) = Some m3 ->
              exists wy,
                pass_merge_block finalize generate_ssa_form incoming wx = (Ok tt, wy)
                /\ analysis_context wy = analysis_context wx).
    { intros wx Hx. unfold pass_merge_block. rewrite Hx.
      exact (quiescent_pass finalize generate_ssa_form (merge_scan incoming)
               (fun m0 => length (basic_blocks m0) * 2) wx m3
               (merge_scan_false incoming) Hq F3 Hx). }
    destruct (Hmerge w3 M3) as (w4 & E4 & C4).
    assert (M4 : mlil (analysis_context w4) = Some m3) by congruence.
    destruct (Hidle w4 M4) as (wa & wb & wc & Ea & Eb & Ec & Cc & _).
    assert (Mc : mlil (analysis_context wc) = Some m3) by congruence.
    destruct (Hmerge wc Mc) as (w5 & E5 & C5).
    exists w4, w5. split; [|split; [exact C4|split; [|congruence]]].
    + unfold pass_clear, and_then. now rewrite H1, H2, H3.
    + unfold pass_clear, and_then. now rewrite Ea, Eb, Ec.
Qed.

(** ** The stub [pass_swap_if] *)

(** Every instruction index of every block is an instruction of the
    function, and the condition of every branch among them is in the
    store. *)
Definition readable (m : MediumLevelILFunction) : Prop :=
  forall bb i,
    In bb (basic_blocks m) -> start bb <= i < end_ bb ->
    exists x,
      lookup_instr m i = Some x
      /\ forall c t f, node x = MLIL_IF c t f -> c < length (exprs m).

(** One turn of the traversal on the instruction index [i]. *)
Lemma swap_if_visit_reads i h :
  let visit :=
    (let* instr := getitem i in
     let* found := traverse_find_if instr in
     match found with
     | Some x => let* condition := condition_of x in ret tt
     | None => ret tt
     end) in
  ((exists x, lookup_instr (il h) i = Some x
              /\ forall c t f, node x = MLIL_IF c t f ->
                               c < length (exprs (il h)))
   /\ visit h = (Ok tt, h))
  \/ (~ (exists x, lookup_instr (il h) i = Some x
                   /\ forall c t f, node x = MLIL_IF c t f ->
                                    c < length (exprs (il h)))
      /\ visit h = (Raise IndexError, h)).
Proof.
  intros visit.
  destruct (lookup_instr (il h) i) as [x|] eqn:Hx.
  2:{ right. split; [intros (x & Hx' & _); discriminate|].
      unfold visit. unfold bind at 1. now rewrite getitem_eq, Hx. }
  assert (Ev : visit h
               = (let* found := traverse_find_if x in
                  match found with
                  | Some y => let* condition := condition_of y in ret tt
                  | None => ret tt
                  end) h).
  { unfold visit. unfold bind at 1. now rewrite getitem_eq, Hx. }
  rewrite Ev. clear Ev visit.
  unfold traverse_find_if, isinstance_If.
  destruct (node x) as [d|c t f|s|d s|v|] eqn:Hn;
    try (left; split; [|reflexivity]; exists x; split; [reflexivity|];
         intros ? ? ? E; rewrite Hn in E; discriminate).
  assert (Hcond : condition_of x h
                  = match exprs (il h) !! c with
                    | Some n => (Ok {| instr_index := instr_index x;
                                       expr_index := c; node := n |}, h)
                    | None => (Raise IndexError, h)
                    end).
  { unfold condition_of. rewrite Hn. unfold bind at 1. rewrite expr_at_eq.
    now destruct (exprs (il h) !! c). }
  destruct (exprs (il h) !! c) as [n|] eqn:Hc.
  - left. split.
    + exists x. split; [reflexivity|]. intros c0 t0 f0 E. rewrite Hn in E.
      injection E as <- _ _. now apply lookup_lt_Some in Hc.
    + assert (Hbody : (let* condition := condition_of x in ret tt) h = (Ok tt, h)).
      { now rewrite (bind_ok _ _ _ _ _ Hcond). }
      unfold bind at 1. unfold bind at 1. rewrite Hcond. cbv beta iota. simpl node.
      destruct n as [| | | |[| |[] []|[] []| ? [] []| |]|];
        try reflexivity; exact Hbody.
  - right. split.
    + intros (x' & Hx' & Hc'). injection Hx' as <-.
      specialize (Hc' c t f Hn). apply lookup_ge_None in Hc. lia.
    + unfold bind at 1. unfold bind at 1. now rewrite Hcond.
Qed.

(** A loop whose turns only read: it ends normally when every turn does, and
    in [IndexError] otherwise; the heap is as before. *)
Lemma for_each_reads (f : nat -> IL unit) (P : nat -> Prop) h :
  (forall i, (P i /\ f i h = (Ok tt, h))
             \/ (~ P i /\ f i h = (Raise IndexError, h))) ->
  forall l,
    ((forall i, In i l -> P i) /\ for_each f l h = (Ok tt, h))
    \/ (~ (forall i, In i l -> P i) /\ for_each f l h = (Raise IndexError, h)).
Proof.
  intros Hf. induction l as [|i l IH].
  - left. split; [intros i []|reflexivity].
  - simpl. destruct (Hf i) as [[Hp E]|[Hp E]].
    + rewrite (bind_ok _ _ _ _ _ E). destruct IH as [[Hall El]|[Hno El]].
      * left. split; [|exact El]. intros j [<-|Hj]; auto.
      * right. split; [|exact El]. intros H. apply Hno. intros j Hj. apply H.
        now right.
    + right. rewrite (bind_raise _ _ _ _ _ E). split; [|reflexivity].
      intros H. apply Hp. apply H. now left.
Qed.

Lemma readable_indices m :
  readable m
  <-> forall i,
        In i (flat_map (fun bb => seq (start bb) (end_ bb - start bb))
                (basic_blocks m)) ->
        exists x, lookup_instr m i = Some x
                  /\ forall c t f, node x = MLIL_IF c t f -> c < length (exprs m).
Proof.
  unfold readable. split.
  - intros H i Hin. apply in_flat_map in Hin as (bb & Hbb & Hi).
    apply in_seq in Hi. apply (H bb i Hbb). lia.
  - intros H bb i Hbb Hi. apply H. apply in_flat_map. exists bb.
    split; [assumption|]. apply in_seq. lia.
Qed.

Lemma swap_if_body_reads h :
  (readable (il h) /\ swap_if_body h = (Ok tt, h))
  \/ (~ readable (il h) /\ swap_if_body h = (Raise IndexError, h)).
Proof.
  unfold swap_if_body, traverse. unfold bind at 1, get_il.
  destruct (for_each_reads
              (fun i =>
                 let* instr := getitem i in
                 let* found := traverse_find_if instr in
                 match found with
                 | Some x => let* condition := condition_of x in ret tt
                 | None => ret tt
                 end)
              (fun i =>
                 exists x, lookup_instr (il h) i = Some x
                           /\ forall c t f, node x = MLIL_IF c t f ->
                                            c < length (exprs (il h)))
              h (fun i => swap_if_visit_reads i h)
              (flat_map (fun bb => seq (start bb) (end_ bb - start bb))
                 (basic_blocks (il h)))) as [[Hall E]|[Hno E]].
  - left. split; [now apply readable_indices|exact E].
  - right. split; [|exact E]. intros H. apply Hno. now apply readable_indices.
Qed.

(** X13: [pass_swap_if] never changes anything: the analysis context, the
    log and the function of the context are as they were, whatever it
    returns.  On a function in which every instruction of every block can be
    read, with the condition of every branch, it ends normally; otherwise
    it ends in [IndexError]. *)
Theorem X13_pass_swap_if_only_reads w :
  snd (pass_swap_if w) = w
  /\ forall m,
       function_mlil (function (analysis_context w)) = Some m ->
       (readable m -> fst (pass_swap_if w) = Ok tt)
       /\ (~ readable m -> fst (pass_swap_if w) = Raise IndexError).
Proof.
  unfold pass_swap_if.
  destruct (function_mlil (function (analysis_context w))) as [m|] eqn:Hm.
  2:{ split; [reflexivity|]. intros m E. discriminate. }
  assert (Hw : {| analysis_context :=
                    {| mlil := mlil (analysis_context w);
                       function := {| function_mlil := Some m |} |};
                  messages := messages w;
                  scan_count := scan_count w |} = w).
  { destruct w as [[mm [ff]] lg n]. simpl in *. now rewrite Hm. }
  destruct (swap_if_body_reads
              {| il := m; log := messages w; scans := scan_count w |})
    as [[Hr E]|[Hr E]]; rewrite E; simpl in *.
  - split; [exact Hw|]. intros m' Em. injection Em as <-.
    split; [reflexivity|]. intros H. now destruct H.
  - split; [exact Hw|]. intros m' Em. injection Em as <-.
    split; [|reflexivity]. intros H. now destruct Hr.
Qed.

(** ** The composition *)

Lemma merge_block_body_eq
    (finalize generate_ssa_form : MediumLevelILFunction -> MediumLevelILFunction)
    incoming :
  merge_block_body finalize generate_ssa_form incoming
  = pass_body finalize generate_ssa_form (merge_scan incoming)
      (fun m => length (basic_blocks m) * 2).
Proof. reflexivity. Qed.

(** X14: [pass_clear] runs its four passes in order and stops at the first
    one that raises: it ends as that pass ended, and the passes after it are
    not run; when none of the first three raises it ends as
    [pass_merge_block] ends.  An exception of the first scan of a pass is
    not caught on the way out: the cycle ends with it, with the function as
    that scan left it, and neither [finalize] nor [generate_ssa_form] is
    run; this is how the fatal error of [merge_block] leaves the cycle.  On
    a context without IL function the cycle ends in the [AttributeError] of
    [pass_clear_const_if], so that the test [mlil is None] of
    [pass_merge_block] is never reached. *)
Theorem X14_pass_clear_stops_at_first_exception
    (finalize generate_ssa_form : MediumLevelILFunction -> MediumLevelILFunction)
    (incoming : MediumLevelILFunction -> nat -> list MediumLevelILBasicBlock)
    (limit : nat) (w : World) :
  let cycle := pass_clear finalize generate_ssa_form incoming limit in
  (forall e w1,
     pass_clear_const_if finalize generate_ssa_form w = (Raise e, w1) ->
     cycle w = (Raise e, w1))
  /\ (forall w1 e w2,
        pass_clear_const_if finalize generate_ssa_form w = (Ok tt, w1) ->
        pass_clear_goto finalize generate_ssa_form limit w1 = (Raise e, w2) ->
        cycle w = (Raise e, w2))
  /\ (forall w1 w2 e w3,
        pass_clear_const_if finalize generate_ssa_form w = (Ok tt, w1) ->
        pass_clear_goto finalize generate_ssa_form limit w1 = (Ok tt, w2) ->
        pass_clear_if finalize generate_ssa_form limit w2 = (Raise e, w3) ->
        cycle w = (Raise e, w3))
  /\ (forall w1 w2 w3,
        pass_clear_const_if finalize generate_ssa_form w = (Ok tt, w1) ->
        pass_clear_goto finalize generate_ssa_form limit w1 = (Ok tt, w2) ->
        pass_clear_if finalize generate_ssa_form limit w2 = (Ok tt, w3) ->
        cycle w = pass_merge_block finalize generate_ssa_form incoming w3
        /\ forall m3 e h,
             mlil (analysis_context w3) = Some m3 ->
             basic_blocks m3 <> [] ->
             merge_scan incoming (snd (tick_scan (pass_heap w3 m3))) = (Raise e, h) ->
             cycle w = (Raise e, to_world w3 h))
  /\ (forall m e h,
        mlil (analysis_context w) = Some m ->
        basic_blocks m <> [] ->
        clear_const_if_scan (snd (tick_scan (pass_heap w m))) = (Raise e, h) ->
        cycle w = (Raise e, to_world w h))
  /\ (mlil (analysis_context w) = None -> cycle w = (Raise AttributeError, w)).
Proof.
  intros cycle. unfold cycle, pass_clear, and_then.
  assert (Hcap : forall (k : nat) w0 m0,
            basic_blocks m0 <> [] ->
            length (basic_blocks (il (pass_heap w0 m0))) * S k <> 0).
  { intros k w0 m0 Hb. simpl. destruct (basic_blocks m0); [congruence|].
    simpl. lia. }
  split; [|split; [|split; [|split; [|split]]]].
  - intros e w1 H1. now rewrite H1.
  - intros w1 e w2 H1 H2. now rewrite H1, H2.
  - intros w1 w2 e w3 H1 H2 H3. now rewrite H1, H2, H3.
  - intros w1 w2 w3 H1 H2 H3. rewrite H1, H2, H3. split; [reflexivity|].
    intros m3 e h Hm Hb Hs. unfold pass_merge_block. rewrite Hm, on_mlil_eq.
    rewrite merge_block_body_eq.
    rewrite (pass_body_raises finalize generate_ssa_form (merge_scan incoming)
               (fun m0 => length (basic_blocks m0) * 2) (pass_heap w3 m3) e h
               (Hcap 1 w3 m3 Hb) Hs).
    reflexivity.
  - intros m e h Hm Hb Hs. unfold pass_clear_const_if. rewrite Hm, on_mlil_eq.
    rewrite clear_const_if_body_eq.
    assert (Hc : length (basic_blocks (il (pass_heap w m))) <> 0).
    { pose proof (Hcap 0 w m Hb). lia. }
    rewrite (pass_body_raises finalize generate_ssa_form clear_const_if_scan
               (fun m0 => length (basic_blocks m0)) (pass_heap w m) e h Hc Hs).
    reflexivity.
  - intros Hn. unfold pass_clear_const_if. now rewrite Hn.
Qed.

(** ** The theorems on whole functions at work *)

(** A branch at 0 into the jump at 1, which jumps to itself, and into the
    chain of jumps 2, 3 that ends at the return at 5; a second branch at 4
    into the jump at 3 and to the return at 5. *)
Definition endless_loop_il : MediumLevelILFunction :=
  finalize_blocks
    {| exprs := [MLIL_IF 6 1 2; MLIL_GOTO 1; MLIL_GOTO 3; MLIL_GOTO 5;
                 MLIL_IF 6 3 5; MLIL_RET []; MLIL_VALUE (MLIL_VAR 0)];
       instrs := [0; 1; 2; 3; 4; 5];
       basic_blocks := [] |}.

Lemma endless_loop_il_endless : endless endless_loop_il 1.
Proof. apply on_cycle_endless. exists 1. split; [lia|reflexivity]. Qed.

(** The world after a first scan of [endless_loop_il] that changed
    nothing. *)
Definition endless_loop_world : World :=
  {| analysis_context :=
       {| mlil := Some endless_loop_il; function := {| function_mlil := None |} |};
     messages := [];
     scan_count := 1 |}.

(** On [endless_loop_il] the block at 2 ends in a jump to 3 whose chain has
    its sink at 5, but [pass_clear_goto] never gets to it: with any
    recursion limit the pass ends in [RecursionError] at the block at 1, and
    the function is as it was. *)
Lemma C5_endless_jump_stops_compression :
  terminator endless_loop_il {| start := 2; end_ := 3 |}
  = Some {| instr_index := 2; expr_index := 2; node := MLIL_GOTO 3 |}
  /\ resolves_to endless_loop_il 3 1 5
  /\ forall limit,
       pass_clear_goto finalize_blocks regenerate_metadata limit
         (fresh_world endless_loop_il)
       = (Raise RecursionError, endless_loop_world).
Proof.
  split; [reflexivity|]. split.
  { split; [reflexivity|].
    exists {| instr_index := 5; expr_index := 5; node := MLIL_RET [] |}.
    split; reflexivity. }
  intros limit.
  set (w := fresh_world endless_loop_il).
  set (h0 := snd (tick_scan (pass_heap w endless_loop_il))).
  assert (Hs : clear_goto_scan limit h0 = (Raise RecursionError, h0)).
  { rewrite clear_goto_scan_eq.
    change (basic_blocks (il h0))
      with ([{| start := 0; end_ := 1 |}]
            ++ [{| start := 1; end_ := 2 |}; {| start := 2; end_ := 3 |};
                {| start := 3; end_ := 4 |}; {| start := 4; end_ := 5 |};
                {| start := 5; end_ := 6 |}]).
    rewrite scan_blocks_app.
    change (scan_blocks (clear_goto_block limit) [{| start := 0; end_ := 1 |}]
              false h0) with (@Ok bool false, h0).
    cbv iota beta. simpl scan_blocks.
    now rewrite (bind_raise _ _ _ _ _
                   (clear_goto_block_cycle limit {| start := 1; end_ := 2 |} h0
                      {| instr_index := 1; expr_index := 1; node := MLIL_GOTO 1 |}
                      1 eq_refl eq_refl endless_loop_il_endless)). }
  unfold pass_clear_goto. change (mlil (analysis_context w)) with (Some endless_loop_il).
  cbv iota beta.
  rewrite on_mlil_eq, clear_goto_body_eq.
  rewrite (pass_body_raises finalize_blocks regenerate_metadata
             (clear_goto_scan limit) (fun m0 => length (basic_blocks m0))
             (pass_heap w endless_loop_il) RecursionError h0
             ltac:(discriminate) Hs).
  reflexivity.
Qed.

(** On [endless_loop_il] the block at 4 ends in a branch whose true arm, the
    jump at 3, has its sink at 5, and whose false arm is at its sink, but
    [pass_clear_if] never gets to it: the true arm of the branch at 0 runs
    into the jump at 1, with any recursion limit the pass ends in
    [RecursionError] at the block at 0, and the function is as it was. *)
Lemma C6_endless_arm_stops_redirection :
  terminator endless_loop_il {| start := 4; end_ := 5 |}
  = Some {| instr_index := 4; expr_index := 4; node := MLIL_IF 6 3 5 |}
  /\ resolves_to endless_loop_il 3 1 5
  /\ resolves_to endless_loop_il 5 0 5
  /\ on_cycle endless_loop_il 1
  /\ forall limit,
       pass_clear_if finalize_blocks regenerate_metadata limit
         (fresh_world endless_loop_il)
       = (Raise RecursionError, endless_loop_world).
Proof.
  assert (Hs5 : is_sink endless_loop_il 5).
  { exists {| instr_index := 5; expr_index := 5; node := MLIL_RET [] |}.
    split; reflexivity. }
  split; [reflexivity|].
  split; [split; [reflexivity|exact Hs5]|].
  split; [split; [reflexivity|exact Hs5]|].
  split; [exists 1; split; [lia|reflexivity]|].
  intros limit.
  set (w := fresh_world endless_loop_il).
  set (h0 := snd (tick_scan (pass_heap w endless_loop_il))).
  assert (Hs : clear_if_scan limit h0 = (Raise RecursionError, h0)).
  { rewrite clear_if_scan_eq.
    change (basic_blocks (il h0))
      with [{| start := 0; end_ := 1 |}; {| start := 1; end_ := 2 |};
            {| start := 2; end_ := 3 |}; {| start := 3; end_ := 4 |};
            {| start := 4; end_ := 5 |}; {| start := 5; end_ := 6 |}].
    simpl scan_blocks.
    now rewrite (bind_raise _ _ _ _ _
                   (clear_if_block_cycle limit {| start := 0; end_ := 1 |} h0
                      {| instr_index := 0; expr_index := 0; node := MLIL_IF 6 1 2 |}
                      6 1 2 eq_refl eq_refl endless_loop_il_endless)). }
  unfold pass_clear_if. change (mlil (analysis_context w)) with (Some endless_loop_il).
  cbv iota beta.
  rewrite on_mlil_eq, clear_if_body_eq.
  rewrite (pass_body_raises finalize_blocks regenerate_metadata
             (clear_if_scan limit) (fun m0 => length (basic_blocks m0))
             (pass_heap w endless_loop_il) RecursionError h0
             ltac:(discriminate) Hs).
  reflexivity.
Qed.

Lemma const_branch_il_ends_well bb :
  In bb (basic_blocks const_branch_il) -> ends_well const_branch_il bb.
Proof.
  intros Hin. compute in Hin.
  destruct Hin as [<-|[<-|[<-|[]]]];
    (eexists; split; [reflexivity|]; intros c t f E; simpl in E;
     try discriminate; injection E as <- _ _; simpl; lia).
Qed.

Lemma C4_witness :
  let w := fresh_world const_branch_il in
  let bb := {| start := 0; end_ := 1 |} in
  (forall b, In b (basic_blocks const_branch_il) -> ends_well const_branch_il b)
  /\ exists w' m',
       pass_clear_const_if finalize_blocks regenerate_metadata w = (Ok tt, w')
       /\ mlil (analysis_context w') = Some m'
       /\ terminator m' bb
          = Some {| instr_index := 0; expr_index := 0; node := MLIL_GOTO 1 |}.
Proof.
  intros w bb. split; [exact const_branch_il_ends_well|].
  destruct (C4_constant_branch_folding finalize_blocks regenerate_metadata w
              const_branch_il eq_refl const_branch_il_ends_well)
    as (u & h1 & Hscan & Hblocks & _ & _ & _ & _ & Hpass).
  assert (Eh : h1 = snd (clear_const_if_scan
                           (snd (tick_scan (pass_heap w const_branch_il)))))
    by now rewrite Hscan.
  assert (Hfix : regenerate_metadata (finalize_blocks (il h1)) = il h1)
    by (rewrite Eh; reflexivity).
  destruct (Hpass Hfix) as (w' & Ew & Mw & _).
  exists w', (il h1). split; [exact Ew|]. split; [exact Mw|].
  destruct (Hblocks bb (or_introl eq_refl)
              {| instr_index := 0; expr_index := 0; node := MLIL_IF 3 1 2 |} eq_refl)
    as (Hc & _).
  exact (proj1 (Hc 3 1 2 1%Z eq_refl eq_refl) eq_refl).
Defined.

Lemma jump_chain_il_resolves bb :
  In bb (basic_blocks jump_chain_il) -> resolves_within 1000 jump_chain_il bb.
Proof.
  assert (Hs : is_sink jump_chain_il 2).
  { exists {| instr_index := 2; expr_index := 2; node := MLIL_RET [] |}.
    split; reflexivity. }
  intros Hin. compute in Hin. destruct Hin as [<-|[<-|[<-|[]]]].
  - eexists. split; [reflexivity|]. intros d E. injection E as <-.
    exists 1, 2. split; [|lia]. split; [reflexivity|exact Hs].
  - eexists. split; [reflexivity|]. intros d E. injection E as <-.
    exists 0, 2. split; [|lia]. split; [reflexivity|exact Hs].
  - eexists. split; [reflexivity|]. intros d E. discriminate.
Qed.

Lemma C5_witness :
  let bb := {| start := 0; end_ := 1 |} in
  (exists w' m',
     pass_clear_goto finalize_blocks regenerate_metadata 1000
       (fresh_world jump_chain_il) = (Ok tt, w')
     /\ mlil (analysis_context w') = Some m'
     /\ terminator m' bb
        = Some {| instr_index := 0; expr_index := 0; node := MLIL_GOTO 2 |})
  /\ (exists h1,
        pass_clear_goto finalize_blocks regenerate_metadata 1000
          (fresh_world endless_loop_il)
        = (Raise RecursionError, to_world (fresh_world endless_loop_il) h1)).
Proof.
  intros bb. split.
  - set (w := fresh_world jump_chain_il).
    destruct (proj1 (C5_jump_chain_compression finalize_blocks regenerate_metadata
                       1000 w jump_chain_il eq_refl) jump_chain_il_resolves)
      as (u & h1 & Hscan & Hblocks & _ & _ & _ & Hpass).
    assert (Eh : h1 = snd (clear_goto_scan 1000
                             (snd (tick_scan (pass_heap w jump_chain_il)))))
      by now rewrite Hscan.
    assert (Hfix : regenerate_metadata (finalize_blocks (il h1)) = il h1)
      by (rewrite Eh; reflexivity).
    destruct (Hpass ltac:(lia) Hfix) as (w' & Ew & Mw & _).
    exists w', (il h1). split; [exact Ew|]. split; [exact Mw|].
    destruct (Hblocks bb (or_introl eq_refl)
                {| instr_index := 0; expr_index := 0; node := MLIL_GOTO 1 |} eq_refl)
      as (Hc & _).
    refine (proj1 (Hc 1 1 2 eq_refl _)). split; [reflexivity|].
    exists {| instr_index := 2; expr_index := 2; node := MLIL_RET [] |}.
    split; reflexivity.
  - set (w := fresh_world endless_loop_il).
    destruct (proj2 (C5_jump_chain_compression finalize_blocks regenerate_metadata
                       1000 w endless_loop_il eq_refl)
                [{| start := 0; end_ := 1 |}] {| start := 1; end_ := 2 |}
                [{| start := 2; end_ := 3 |}; {| start := 3; end_ := 4 |};
                 {| start := 4; end_ := 5 |}; {| start := 5; end_ := 6 |}]
                {| instr_index := 1; expr_index := 1; node := MLIL_GOTO 1 |} 1
                eq_refl) as (h1 & _ & Hpass & _).
    + intros b [<-|[]]. eexists. split; [reflexivity|]. intros d E. discriminate.
    + reflexivity.
    + reflexivity.
    + exact endless_loop_il_endless.
    + exists h1. exact Hpass.
Defined.

Lemma single_jump_il_resolves bb :
  In bb (basic_blocks single_jump_il) -> arms_resolve_within 1000 single_jump_il bb.
Proof.
  intros Hin. compute in Hin. destruct Hin as [<-|[<-|[<-|[<-|[]]]]];
    try (eexists; split; [reflexivity|]; intros c t f E; discriminate).
  eexists. split; [reflexivity|]. intros c t f E. injection E as <- <- <-.
  split; [exists (MLIL_VAR 0); reflexivity|]. split.
  - exists 1, 3. split; [|lia]. split; [reflexivity|].
    exists {| instr_index := 3; expr_index := 3; node := MLIL_RET [] |}.
    split; reflexivity.
  - exists 0, 2. split; [|lia]. split; [reflexivity|].
    exists {| instr_index := 2; expr_index := 2; node := MLIL_RET [] |}.
    split; reflexivity.
Qed.

Lemma C6_witness :
  let bb := {| start := 0; end_ := 1 |} in
  (exists w' m' c',
     pass_clear_if finalize_blocks regenerate_metadata 1000
       (fresh_world single_jump_il) = (Ok tt, w')
     /\ mlil (analysis_context w') = Some m'
     /\ terminator m' bb
        = Some {| instr_index := 0; expr_index := 0; node := MLIL_IF c' 3 2 |}
     /\ exprs m' !! c' = Some (MLIL_VALUE (MLIL_VAR 0))
     /\ exprs m' !! 4 = Some (MLIL_VALUE (MLIL_VAR 0)))
  /\ (exists h1,
        pass_clear_if finalize_blocks regenerate_metadata 1000
          (fresh_world endless_loop_il)
        = (Raise RecursionError, to_world (fresh_world endless_loop_il) h1)).
Proof.
  intros bb. split.
  - set (w := fresh_world single_jump_il).
    destruct (proj1 (C6_branch_target_redirection finalize_blocks
                       regenerate_metadata 1000 w single_jump_il eq_refl)
                single_jump_il_resolves)
      as (u & h1 & Hscan & Hblocks & _ & _ & _ & _ & Hpass).
    assert (Eh : h1 = snd (clear_if_scan 1000
                             (snd (tick_scan (pass_heap w single_jump_il)))))
      by now rewrite Hscan.
    assert (Hfix : regenerate_metadata (finalize_blocks (il h1)) = il h1)
      by (rewrite Eh; reflexivity).
    destruct (Hpass ltac:(lia) Hfix) as (w' & Ew & Mw & _).
    destruct (Hblocks bb (or_introl eq_refl)
                {| instr_index := 0; expr_index := 0; node := MLIL_IF 4 1 2 |} eq_refl)
      as (Hc & _).
    assert (Ht : resolves_to single_jump_il 1 1 3).
    { split; [reflexivity|].
      exists {| instr_index := 3; expr_index := 3; node := MLIL_RET [] |}.
      split; reflexivity. }
    assert (Hf : resolves_to single_jump_il 2 0 2).
    { split; [reflexivity|].
      exists {| instr_index := 2; expr_index := 2; node := MLIL_RET [] |}.
      split; reflexivity. }
    destruct (Hc 4 1 2 1 3 0 2 eq_refl Ht Hf) as (_ & Hnew & Hold).
    destruct (Hnew ltac:(left; lia)) as (c' & Hterm & _ & Hc').
    exists w', (il h1), c'. split; [exact Ew|]. split; [exact Mw|].
    split; [exact Hterm|]. split; [exact Hc'|exact Hold].
  - set (w := fresh_world endless_loop_il).
    destruct (proj2 (C6_branch_target_redirection finalize_blocks
                       regenerate_metadata 1000 w endless_loop_il eq_refl)
                [] {| start := 0; end_ := 1 |}
                [{| start := 1; end_ := 2 |}; {| start := 2; end_ := 3 |};
                 {| start := 3; end_ := 4 |}; {| start := 4; end_ := 5 |};
                 {| start := 5; end_ := 6 |}]
                {| instr_index := 0; expr_index := 0; node := MLIL_IF 6 1 2 |} 6 1 2
                eq_refl) as (h1 & _ & Hpass & _).
    + intros b [].
    + reflexivity.
    + reflexivity.
    + left. exact endless_loop_il_endless.
    + exists h1. exact Hpass.
Defined.

Lemma C9_witness :
  let cycle := pass_clear finalize_blocks regenerate_metadata incoming_blocks 1000 in
  let r1 := cycle (fresh_world jump_chain_il) in
  let r2 := cycle (snd r1) in
  fst r1 = Ok tt
  /\ fst r2 = Ok tt
  /\ analysis_context (snd r2) = analysis_context (snd r1).
Proof.
  intros cycle r1 r2.
  set (w := fresh_world jump_chain_il).
  set (w1 := snd (pass_clear_const_if finalize_blocks regenerate_metadata w)).
  set (w2 := snd (pass_clear_goto finalize_blocks regenerate_metadata 1000 w1)).
  set (w3 := snd (pass_clear_if finalize_blocks regenerate_metadata 1000 w2)).
  destruct (C9_second_run_at_fixed_point finalize_blocks regenerate_metadata
              incoming_blocks 1000 w w1 w2 w3 jump_chain_il eq_refl ltac:(lia)
              eq_refl eq_refl eq_refl eq_refl eq_refl eq_refl)
    as (_ & _ & Hfull).
  destruct Hfull as (w4 & w5 & E4 & _ & E5 & C5).
  - intros lg n. eexists. reflexivity.
  - unfold r2, r1. fold w. unfold cycle. rewrite E4. simpl. rewrite E5. simpl. auto.
Defined.
